(** * BAR-FEP_NAMD_parser: the parser and the pairwise BAR estimator

    A shallow embedding of [ParseFEP] and [DoBAR] of
    [BAR-FEP_NAMD_parser.py].  Python floats are idealised as real
    numbers, Python exceptions as an error result, dictionaries as
    insertion-ordered association lists with unique keys, and numpy arrays
    as lists indexed the way numpy does it (negative indices wrap). *)

From Stdlib Require Import Reals Lra ZArith String Ascii.
From stdpp Require Import base option list sorting.

(** ** Exceptions and the error monad *)

Inductive exn : Type :=
  | IndexError        (* list or array index out of range *)
  | KeyError          (* dictionary key absent *)
  | ValueError        (* float() on a token that is no number *)
  | LibraryError.     (* raised inside pymbar *)

Inductive res (A : Type) : Type :=
  | Ok (a : A)
  | Raise (e : exn).
Arguments Ok {A} a.
Arguments Raise {A} e.

#[global] Instance res_ret : MRet res := fun _ a => Ok a.
#[global] Instance res_bind : MBind res := fun _ _ f m =>
  match m with Ok a => f a | Raise e => Raise e end.

Definition of_option {A} (e : exn) (o : option A) : res A :=
  match o with Some a => Ok a | None => Raise e end.

Definition is_Ok {A} (m : res A) : Prop := ∃ a, m = Ok a.

(** A [for] loop whose body threads the loop variables. *)
Fixpoint for_each `{MBind M, MRet M} {S A}
    (body : S → A → M S) (s : S) (l : list A) : M S :=
  match l with
  | [] => mret s
  | a :: l' => s' ← body s a; for_each body s' l'
  end.

(** ** Python dictionaries keyed by integers

    Iteration order is insertion order, so a dictionary is its item list;
    [dict_set] is [d[k] = v]: it overwrites in place or appends. *)

Abbreviation pydict V := (list (Z * V)).

Fixpoint dict_set {V} (k : Z) (v : V) (d : pydict V) : pydict V :=
  match d with
  | [] => [(k, v)]
  | (k', v') :: d' =>
      if decide (k = k') then (k, v) :: d' else (k', v') :: dict_set k v d'
  end.

Fixpoint dict_get {V} (k : Z) (d : pydict V) : option V :=
  match d with
  | [] => None
  | (k', v') :: d' => if decide (k = k') then Some v' else dict_get k d'
  end.

Definition dict_keys {V} (d : pydict V) : list Z := d.*1.

(** [d[k]] as an expression raises [KeyError] on an absent key. *)
Definition dict_item {V} (k : Z) (d : pydict V) : res V :=
  of_option KeyError (dict_get k d).

(** ** numpy arrays of float64 *)

Definition np_zeros (n : nat) : list R := replicate n 0%R.

Definition np_index (n : nat) (k : Z) : res nat :=
  if decide (0 ≤ k < Z.of_nat n)%Z then Ok (Z.to_nat k)
  else if decide (- Z.of_nat n ≤ k < 0)%Z then Ok (Z.to_nat (k + Z.of_nat n))
  else Raise IndexError.

Definition np_get (a : list R) (k : Z) : res R :=
  j ← np_index (length a) k; of_option IndexError (a !! j).

Definition np_set (a : list R) (k : Z) (v : R) : res (list R) :=
  j ← np_index (length a) k; Ok (<[j:=v]> a).

(** [value[indices]] with a list of integer indices. *)
Fixpoint np_take (a : list R) (ks : list Z) : res (list R) :=
  match ks with
  | [] => Ok []
  | k :: ks' => x ← np_get a k; xs ← np_take a ks'; Ok (x :: xs)
  end.

Definition np_sum (a : list R) : R := foldr Rplus 0%R a.

(** ** Tokens of a line: [line.strip().split()]

    [split] with no argument cuts at runs of white space and yields no
    empty token, so the preceding [strip] changes nothing.  Characters are
    the code points below 256; the white space among them is 9 to 13, 28 to
    32, 133 and 160. *)

Definition is_space (c : ascii) : bool :=
  let n := nat_of_ascii c in
  ((9 <=? n)%nat && (n <=? 13)%nat) || ((28 <=? n)%nat && (n <=? 32)%nat)
  || (n =? 133)%nat || (n =? 160)%nat.

Definition flush (cur : string) (toks : list string) : list string :=
  match cur with EmptyString => toks | _ => cur :: toks end.

Fixpoint split_from (cur : string) (s : string) : list string :=
  match s with
  | EmptyString => flush cur []
  | String c s' =>
      if is_space c then flush cur (split_from EmptyString s')
      else split_from (cur ++ String c EmptyString)%string s'
  end.

Definition split (line : string) : list string := split_from EmptyString line.

(** [tok in l] *)
Definition has (tok : string) (l : list string) : bool :=
  existsb (String.eqb tok) l.

(** [" ".join(l[a:b])] for constant non-negative bounds *)
Definition slice {A} (a b : nat) (l : list A) : list A := take (b - a) (drop a l).
Definition join (sep : string) (l : list string) : string := String.concat sep l.

(** ** ParseFEP *)

Record scan_state : Type := ScanState {
  dEs_dict : pydict (list R);
  dGs_dict : pydict (list R);
  elecs_dict : pydict (list R);
  vdws_dict : pydict (list R);
  window : pydict string;
  tempDE : list R;
  tempDG : list R;
  tempElec : list R;
  tempVdw : list R;
  parsing : bool;
  cur_i : Z            (* the variable [i] *)
}.

Definition scan_init : scan_state :=
  ScanState [] [] [] [] [] [] [] [] [] false 0.

Definition set_parsing (b : bool) (st : scan_state) : scan_state :=
  ScanState (dEs_dict st) (dGs_dict st) (elecs_dict st) (vdws_dict st)
    (window st) (tempDE st) (tempDG st) (tempElec st) (tempVdw st) b (cur_i st).

(** The body of [if '#Free' in l]. *)
Definition seal (l : list string) (st : scan_state) : scan_state :=
  let i := cur_i st in
  ScanState
    (dict_set i (tempDE st) (dEs_dict st))
    (dict_set i (tempDG st) (dGs_dict st))
    (dict_set i (tempElec st) (elecs_dict st))
    (dict_set i (tempVdw st) (vdws_dict st))
    (dict_set i (join " " (slice 6 10 l)) (window st))
    [] [] [] [] false (i + 1)%Z.

Record ensemble_sample : Type := EnsembleSample {
  s_dE : R; s_dG : R; s_elec : R; s_vdw : R
}.

Section Parser.

(** Python's [float] on a token; [Raise ValueError] when it does not
    parse. *)
Variable float : string → res R.

(** [float(l[k])] *)
Definition column (l : list string) (k : nat) : res R :=
  tok ← of_option IndexError (l !! k); float tok.

(** The body of [if parsing]. *)
Definition collect (l : list string) (st : scan_state) : res scan_state :=
  dE ← column l 6;
  dG ← column l 9;
  e3 ← column l 3;
  e2 ← column l 2;
  v5 ← column l 5;
  v4 ← column l 4;
  Ok (ScanState (dEs_dict st) (dGs_dict st) (elecs_dict st) (vdws_dict st)
        (window st)
        (tempDE st ++ [dE]) (tempDG st ++ [dG])
        (tempElec st ++ [(e3 - e2)%R]) (tempVdw st ++ [(v5 - v4)%R])
        (parsing st) (cur_i st)).

(** One iteration of [for line in data]. *)
Definition step (st : scan_state) (line : string) : res scan_state :=
  let l := split line in
  let st1 := if has "#Free" l then seal l st else st in
  st2 ← (if parsing st1 then collect l st1 else Ok st1);
  Ok (if has "#STARTING" l then set_parsing true st2 else st2).

Definition scan (st : scan_state) (data : list string) : res scan_state :=
  for_each step st data.

Definition ParseFEP (data : list string)
  : res (pydict (list R) * pydict (list R) * pydict (list R)
         * pydict (list R) * pydict string) :=
  st ← scan scan_init data;
  Ok (dEs_dict st, dGs_dict st, elecs_dict st, vdws_dict st, window st).

(** *** Vocabulary for the statements about the parser *)

(** The four values one ensemble-sample line yields. *)
Definition sample (l : list string) : res ensemble_sample :=
  dE ← column l 6;
  dG ← column l 9;
  e3 ← column l 3;
  e2 ← column l 2;
  v5 ← column l 5;
  v4 ← column l 4;
  Ok (EnsembleSample dE dG (e3 - e2)%R (v5 - v4)%R).

Fixpoint samples (ls : list (list string)) : res (list ensemble_sample) :=
  match ls with
  | [] => Ok []
  | l :: ls' => s ← sample l; ss ← samples ls'; Ok (s :: ss)
  end.

End Parser.

(** The buffers after appending the given samples. *)
Definition push (ss : list ensemble_sample) (st : scan_state) : scan_state :=
  ScanState (dEs_dict st) (dGs_dict st) (elecs_dict st) (vdws_dict st)
    (window st)
    (tempDE st ++ (s_dE <$> ss)) (tempDG st ++ (s_dG <$> ss))
    (tempElec st ++ (s_elec <$> ss)) (tempVdw st ++ (s_vdw <$> ss))
    (parsing st) (cur_i st).

(** The lines of a segment that follow its first begin marker. *)
Fixpoint after_marker (seg : list (list string)) : list (list string) :=
  match seg with
  | [] => []
  | l :: rest => if has "#STARTING" l then rest else after_marker rest
  end.

(** The lines of a segment that are collected, given whether collection is
    on when the segment starts. *)
Definition ensemble (on : bool) (seg : list (list string)) : list (list string) :=
  if on then seg else after_marker seg.

Definition is_summary (line : string) : bool := has "#Free" (split line).

Fixpoint count_windows (data : list string) : nat :=
  match data with
  | [] => 0
  | line :: rest => (if is_summary line then 1 else 0) + count_windows rest
  end.

(** What a scan leaves in the five dictionaries: keys [0 .. k-1] in this
    order, [k] being the running index. *)
Definition keyed (k : nat) (st : scan_state) : Prop :=
  cur_i st = Z.of_nat k
  ∧ dict_keys (dEs_dict st) = Z.of_nat <$> seq 0 k
  ∧ dict_keys (dGs_dict st) = Z.of_nat <$> seq 0 k
  ∧ dict_keys (elecs_dict st) = Z.of_nat <$> seq 0 k
  ∧ dict_keys (vdws_dict st) = Z.of_nat <$> seq 0 k
  ∧ dict_keys (window st) = Z.of_nat <$> seq 0 k.

(** A stand-in for [float] that reads integer literals only; it is used to
    run the parser on concrete streams. *)
Definition digit (c : ascii) : option Z :=
  let n := nat_of_ascii c in
  if ((48 <=? n)%nat && (n <=? 57)%nat)%bool then Some (Z.of_nat (n - 48)) else None.

Fixpoint digits (acc : Z) (s : string) : option Z :=
  match s with
  | EmptyString => Some acc
  | String c s' => d ← digit c; digits (10 * acc + d)%Z s'
  end.

Definition float_int (s : string) : res R :=
  match s with
  | EmptyString => Raise ValueError
  | String c s' =>
      if Ascii.eqb c "-"%char then
        match s' with
        | EmptyString => Raise ValueError
        | _ => of_option ValueError (z ← digits 0 s'; Some (IZR (- z)))
        end
      else of_option ValueError (z ← digits 0 s; Some (IZR z))
  end.

(** ** DoBAR *)

(** A program that may call the external estimator: it threads the list
    of the argument pairs [BAR] was invoked on so far, and keeps that list
    when an exception ends the run. *)
Definition call : Type := (list R * list R)%type.
Definition prog (A : Type) : Type := list call → list call * res A.

#[global] Instance prog_ret : MRet prog := fun _ a log => (log, Ok a).
#[global] Instance prog_bind : MBind prog := fun _ _ f m log =>
  match m log with
  | (log', Ok a) => f a log'
  | (log', Raise e) => (log', Raise e)
  end.

Definition lift {A} (m : res A) : prog A := fun log => (log, m).

Definition sorted (l : list Z) : list Z := merge_sort Z.le l.
Definition sorted_reverse (l : list Z) : list Z := merge_sort Z.ge l.

Record profile : Type := Profile {
  dgs : list R;        (* accumulated dG, returned *)
  gsdlist : list R;    (* accumulated stdev, returned *)
  net_dG : R;          (* np.sum(dg_bar), printed in the summary line *)
  net_gsd : R          (* gsd, printed in the summary line *)
}.

(** The body of [for i, g in enumerate(dg_bar)]; the loop variables are
    [dgs], [gsdlist], [net] and [netsd]. *)
Definition accum_body (dg_bar gsd_bar : list R)
    (st : list R * list R * R * R) (i : nat)
    : res (list R * list R * R * R) :=
  let '(dgs, gsdlist, net, netsd) := st in
  let k := Z.of_nat i in
  x ← np_get dg_bar k;
  dgs ← np_set dgs k (x + net)%R;
  net ← np_get dgs k;
  s ← np_get gsd_bar k;
  gsdlist ← np_set gsdlist k (sqrt (s ^ 2 + netsd ^ 2))%R;
  netsd ← np_get gsdlist k;
  Ok (dgs, gsdlist, net, netsd).

Definition accumulate (dg_bar gsd_bar dgs gsdlist : list R)
    : res (list R * list R * R * R) :=
  for_each (accum_body dg_bar gsd_bar) (dgs, gsdlist, 0%R, 0%R)
    (seq 0 (length dg_bar)).

(** [(np.sum(np.power(gsd_bar, 2)))**0.5] *)
Definition net_stdev (gsd_bar : list R) : R :=
  sqrt (np_sum ((fun s => s ^ 2)%R <$> gsd_bar)).

(** The rows of the correlation-time table read [v[0]] and [v[1]]. *)
Definition print_corr_time (corr_time : pydict (list R)) : res unit :=
  for_each (fun (_ : unit) (kv : Z * list R) =>
              _ ← of_option IndexError (kv.2 !! 0%nat);
              _ ← of_option IndexError (kv.2 !! 1%nat);
              Ok tt) tt corr_time.

Section Estimator.

(** pymbar's [timeseries.statisticalInefficiency],
    [timeseries.subsampleCorrelatedData] and [BAR]. *)
Variable statisticalInefficiency : list R → res R.
Variable subsampleCorrelatedData : list R → R → res (list Z).
Variable BAR : list R → list R → res (R * R).

Definition call_BAR (w_F w_R : list R) : prog (R * R) :=
  fun log => (log ++ [(w_F, w_R)], BAR w_F w_R).

(** The three pymbar steps both loops apply to one window: the
    statistical inefficiency and the subsampled series. *)
Definition decorrelated (value : list R) : res (R * list R) :=
  g ← statisticalInefficiency value;
  indices ← subsampleCorrelatedData value g;
  ss ← np_take value indices;
  Ok (g, ss).

(** The body of [for key, value in fwds.items()]. *)
Definition fwd_body (st : pydict (list R) * pydict (list R))
    (kv : Z * list R) : res (pydict (list R) * pydict (list R)) :=
  let '(corr_time, fwd_ss) := st in
  let '(key, value) := kv in
  g ← statisticalInefficiency value;
  let corr_time := dict_set key [g] corr_time in
  indices ← subsampleCorrelatedData value g;
  ss ← np_take value indices;
  Ok (corr_time, dict_set key ss fwd_ss).

(** The body of [for key, value in revs.items()]. *)
Definition rev_body (st : pydict (list R) * pydict (list R))
    (kv : Z * list R) : res (pydict (list R) * pydict (list R)) :=
  let '(corr_time, rev_ss) := st in
  let '(key, value) := kv in
  g ← statisticalInefficiency value;
  gs ← dict_item key corr_time;
  let corr_time := dict_set key (gs ++ [g]) corr_time in
  indices ← subsampleCorrelatedData value g;
  ss ← np_take value indices;
  Ok (corr_time, dict_set key ss rev_ss).

(** [zip(sorted(fwd_ss.keys()), sorted(list(rev_ss.keys()), reverse=True))] *)
Definition bar_pairs (fwd_ss rev_ss : pydict (list R)) : list (Z * Z) :=
  zip (sorted (dict_keys fwd_ss)) (sorted_reverse (dict_keys rev_ss)).

(** The body of [for kF, kR in zip(...)]; the loop variables are
    [dg_bar], [gsd_bar] and [bar]. *)
Definition bar_body (fwd_ss rev_ss : pydict (list R))
    (st : list R * list R * pydict (R * R * R)) (p : Z * Z)
    : prog (list R * list R * pydict (R * R * R)) :=
  let '(dg_bar, gsd_bar, bar) := st in
  let '(kF, kR) := p in
  w_F ← lift (dict_item kF fwd_ss);
  w_R ← lift (dict_item kR rev_ss);
  '(dg, sd) ← call_BAR w_F w_R;
  dg_bar ← lift (np_set dg_bar kF dg);
  gsd_bar ← lift (np_set gsd_bar kF sd);
  mret (dg_bar, gsd_bar, dict_set kF (np_sum dg_bar, dg, sd) bar).

(** [label] only enters the printed text and is left out.  Of the printed
    output, the model keeps the two numbers of the summary line and the
    reads [v[0]], [v[1]] of the correlation-time table, which can raise. *)
Definition DoBAR (fwds revs : pydict (list R)) (verbose : bool)
    : prog profile :=
  let n := length fwds in
  '(corr_time, fwd_ss) ← lift (for_each fwd_body ([], []) fwds);
  '(corr_time, rev_ss) ← lift (for_each rev_body (corr_time, []) revs);
  '(dg_bar, gsd_bar, bar) ←
    for_each (bar_body fwd_ss rev_ss) (np_zeros n, np_zeros n, [])
      (bar_pairs fwd_ss rev_ss);
  let gsd := net_stdev gsd_bar in
  '(dgs, gsdlist, _, _) ←
    lift (accumulate dg_bar gsd_bar (np_zeros n) (np_zeros n));
  _ ← lift (if verbose then print_corr_time corr_time else Ok tt);
  mret (Profile dgs gsdlist (np_sum dg_bar) gsd).

End Estimator.

(** *** Vocabulary for the statements about the estimator *)

(** The accumulation recurrences written on lists:
    [cumulative_i = dG_i + running_total] and
    [cumulative_sigma_i = sqrt (sigma_i^2 + cumulative_sigma_(i-1)^2)]. *)
Fixpoint running_sums (net : R) (dg : list R) : list R :=
  match dg with
  | [] => []
  | x :: dg' => (x + net)%R :: running_sums (x + net)%R dg'
  end.

Fixpoint running_stdevs (netsd : R) (sd : list R) : list R :=
  match sd with
  | [] => []
  | s :: sd' =>
      sqrt (s ^ 2 + netsd ^ 2)%R :: running_stdevs (sqrt (s ^ 2 + netsd ^ 2))%R sd'
  end.

(** The values of [net] and [netsd] when the loop ends. *)
Definition final_sum (net : R) (dg : list R) : R :=
  foldl (fun acc x => (x + acc)%R) net dg.
Definition final_stdev (netsd : R) (sd : list R) : R :=
  foldl (fun acc s => sqrt (s ^ 2 + acc ^ 2)%R) netsd sd.

(** The entry before index [i], or the initial value 0 when [i = 0]. *)
Definition previous (l : list R) (i : nat) : R :=
  match i with
  | O => 0%R
  | S j => default 0%R (l !! j)
  end.

(** What [corr_time] holds while the reverse loop runs: every row has the
    forward inefficiency, and the rows of the keys in [P] the reverse one
    as well. *)
Definition corr_rows (P : list Z) (ct : pydict (list R)) : Prop :=
  Forall (fun kv => 1 ≤ length kv.2 ∧ (kv.1 ∈ P → 2 ≤ length kv.2)) ct.

(** Estimator stand-ins used to run [DoBAR] on concrete windows: no
    correlation, every sample kept, and the difference of the sums with a
    unit uncertainty. *)
Definition no_correlation (value : list R) : res R := Ok 1%R.
Definition keep_all (value : list R) (g : R) : res (list Z) :=
  Ok (Z.of_nat <$> seq 0 (length value)).
Definition sum_difference (w_F w_R : list R) : res (R * R) :=
  Ok ((np_sum w_F - np_sum w_R)%R, 1%R).

(** A pymbar stand-in that refuses a series of fewer than two samples. *)
Definition needs_two_samples (value : list R) : res R :=
  if (length value <? 2)%nat then Raise LibraryError else Ok 1%R.

(** Two forward and two reverse windows to run [DoBAR] on. *)
Definition demo_fwds : pydict (list R) := [(0%Z, [1%R; 2%R]); (1%Z, [3%R])].
Definition demo_revs : pydict (list R) := [(0%Z, [4%R]); (1%Z, [5%R; 6%R])].
Definition demo_series (d : pydict (list R)) (k : Z) : list R :=
  default [] (dict_get k d).
Definition demo_estimate (i j : nat) : R * R :=
  ((np_sum (demo_series demo_fwds (Z.of_nat i))
    - np_sum (demo_series demo_revs (Z.of_nat j)))%R, 1%R).

(** ** Vocabulary for further statements about the parser *)

(** The keys of a dictionary moved up by [n]. *)
Definition shift_keys {V} (n : Z) (d : pydict V) : pydict V :=
  (fun kv => ((kv.1 + n)%Z, kv.2)) <$> d.

(** Two dictionaries list the same windows in the same order, with as many
    samples per window. *)
Definition same_shape (d1 d2 : pydict (list R)) : Prop :=
  Forall2 (fun a b => a.1 = b.1 ∧ length a.2 = length b.2) d1 d2.

(** The buffers are empty and collection is off, as after a summary line
    without begin marker. *)
Definition at_rest (st : scan_state) : Prop :=
  tempDE st = [] ∧ tempDG st = [] ∧ tempElec st = [] ∧ tempVdw st = []
  ∧ parsing st = false.

(** The channels of a scan state are aligned: the sample dictionaries have
    one shape and the buffers one length. *)
Definition aligned (st : scan_state) : Prop :=
  same_shape (dEs_dict st) (dGs_dict st)
  ∧ same_shape (dEs_dict st) (elecs_dict st)
  ∧ same_shape (dEs_dict st) (vdws_dict st)
  ∧ length (tempDE st) = length (tempDG st)
  ∧ length (tempDE st) = length (tempElec st)
  ∧ length (tempDE st) = length (tempVdw st).

(** The state [st0] of a scan that started from nothing, seen from a scan
    that started after [base]: the windows of [base] come first and those
    of [st0] are numbered on from its index. *)
Definition rebase (base st0 : scan_state) : scan_state :=
  ScanState
    (dEs_dict base ++ shift_keys (cur_i base) (dEs_dict st0))
    (dGs_dict base ++ shift_keys (cur_i base) (dGs_dict st0))
    (elecs_dict base ++ shift_keys (cur_i base) (elecs_dict st0))
    (vdws_dict base ++ shift_keys (cur_i base) (vdws_dict st0))
    (window base ++ shift_keys (cur_i base) (window st0))
    (tempDE st0) (tempDG st0) (tempElec st0) (tempVdw st0)
    (parsing st0) (cur_i st0 + cur_i base)%Z.

(** ** The BAR analysis of [main]

    [main] parses the forward and the reverse stream and fills the rows of
    two 3-by-n arrays with the profiles of the van-der-Waals, the
    electrostatic and the total channel (the last one only, without
    [--decomp]). *)

(** [a[r] = v] for a row of length [n]: numpy takes [v] of length [n],
    repeats a single value, and raises ValueError on any other length. *)
Definition set_row (a : list (list R)) (r : nat) (v : list R) (n : nat)
    : res (list (list R)) :=
  if decide (length v = n) then Ok (<[r:=v]> a)
  else if decide (length v = 1) then Ok (<[r:=replicate n (default 0%R (head v))]> a)
  else Raise ValueError.

Abbreviation parsed :=
  (pydict (list R) * pydict (list R) * pydict (list R) * pydict (list R)
   * pydict string)%type.

(** The series of a window, empty for an absent key. *)
Definition series_of (d : pydict (list R)) (k : Z) : list R :=
  default [] (dict_get k d).

(** The pairs of dictionaries the analysis runs DoBAR on: the three
    channels with [--decomp], the total channel alone without. *)
Definition channels (F Rv : parsed) (decomp : bool)
    : list (pydict (list R) * pydict (list R)) :=
  let '(w_F, dGs_F, elecs_F, vdws_F, window_F) := F in
  let '(w_R, dGs_R, elecs_R, vdws_R, window_R) := Rv in
  if decomp then [(vdws_F, vdws_R); (elecs_F, elecs_R); (dGs_F, dGs_R)]
  else [(dGs_F, dGs_R)].

Section Analysis.

Variable statisticalInefficiency : list R → res R.
Variable subsampleCorrelatedData : list R → R → res (list Z).
Variable BAR : list R → list R → res (R * R).

(** [alls[r], sds[r] = DoBAR(fwds, revs, label, verbose)] *)
Definition fill_row (r : nat) (n : nat) (fwds revs : pydict (list R))
    (verbose : bool) (st : list (list R) * list (list R))
    : prog (list (list R) * list (list R)) :=
  p ← DoBAR statisticalInefficiency subsampleCorrelatedData BAR fwds revs verbose;
  alls ← lift (set_row st.1 r (dgs p) n);
  sds ← lift (set_row st.2 r (gsdlist p) n);
  mret (alls, sds).

(** Lines 405 to 419 of [main], given what [getdata] returned for the two
    directions. *)
Definition bar_analysis (F Rv : parsed) (decomp verbose : bool)
    : prog (list (list R) * list (list R)) :=
  let '(w_F, dGs_F, elecs_F, vdws_F, window_F) := F in
  let '(w_R, dGs_R, elecs_R, vdws_R, window_R) := Rv in
  let n := length dGs_F in
  let alls := replicate 3 (np_zeros n) in
  let sds := replicate 3 (np_zeros n) in
  if decomp then
    st ← fill_row 2 n vdws_F vdws_R verbose (alls, sds);
    st ← fill_row 1 n elecs_F elecs_R verbose st;
    fill_row 0 n dGs_F dGs_R verbose st
  else
    fill_row 0 n dGs_F dGs_R verbose (alls, sds).

(** What pymbar returns for window [k] of [d], when it returns: the
    statistical inefficiency and the subsampled series. *)
Definition inefficiency_of (d : pydict (list R)) (k : Z) : R :=
  match decorrelated statisticalInefficiency subsampleCorrelatedData (series_of d k) with
  | Ok (g, _) => g
  | Raise _ => 0%R
  end.

Definition subsampled_of (d : pydict (list R)) (k : Z) : list R :=
  match decorrelated statisticalInefficiency subsampleCorrelatedData (series_of d k) with
  | Ok (_, w) => w
  | Raise _ => []
  end.

(** What the estimator returns for pair [i] of [n], when it returns. *)
Definition estimate_of (d_F d_R : pydict (list R)) (n i : nat) : R * R :=
  match BAR (subsampled_of d_F (Z.of_nat i))
            (subsampled_of d_R (Z.of_nat (n - 1 - i))) with
  | Ok p => p
  | Raise _ => (0%R, 0%R)
  end.

End Analysis.

(** ** numericalSort and cat_fepout *)

Definition is_digit (c : ascii) : bool :=
  let n := nat_of_ascii c in ((48 <=? n)%nat && (n <=? 57)%nat)%bool.

(** Prepend a character to the first part of a split. *)
Definition push_char (c : ascii) (ps : list string) : list string :=
  match ps with
  | [] => [String c EmptyString]
  | p :: ps' => String c p :: ps'
  end.

(** [numbers.split(value)] for the pattern [(\d+)]: the text between the
    maximal runs of digits, with the runs themselves at the odd positions.
    [in_num] tells that the first part under construction is a run of
    digits; the split of a whole string starts with [in_num = false]. *)
Fixpoint re_split (in_num : bool) (s : string) : list string :=
  match s with
  | EmptyString => if in_num then [EmptyString; EmptyString] else [EmptyString]
  | String c s' =>
      if is_digit c then
        if in_num then push_char c (re_split true s')
        else EmptyString :: push_char c (re_split true s')
      else
        if in_num then EmptyString :: push_char c (re_split false s')
        else push_char c (re_split false s')
  end.

(** One element of a sort key: a piece of text or a number. *)
Inductive part : Type :=
  | PStr (s : string)
  | PInt (n : Z).

(** [int] on a run of digits; it raises ValueError on the empty string and
    on any other character. *)
Definition int_of_digits (s : string) : res Z :=
  match s with
  | EmptyString => Raise ValueError
  | _ => of_option ValueError (digits 0 s)
  end.

(** [parts[1::2] = list(map(int, parts[1::2]))]; [odd] is the parity of the
    first position. *)
Fixpoint convert_odd (odd : bool) (parts : list string) : res (list part) :=
  match parts with
  | [] => Ok []
  | p :: parts' =>
      if odd then
        n ← int_of_digits p; rest ← convert_odd false parts'; Ok (PInt n :: rest)
      else
        rest ← convert_odd true parts'; Ok (PStr p :: rest)
  end.

Definition numericalSort (value : string) : res (list part) :=
  convert_odd false (re_split false value).

(** Python's [==] and [<] on two elements of a key; [None] is the
    TypeError of comparing text with a number. *)
Definition part_eqb (a b : part) : bool :=
  match a, b with
  | PStr s, PStr t => String.eqb s t
  | PInt m, PInt n => Z.eqb m n
  | _, _ => false
  end.

Definition part_lt (a b : part) : option bool :=
  match a, b with
  | PStr s, PStr t => Some (String.ltb s t)
  | PInt m, PInt n => Some (Z.ltb m n)
  | _, _ => None
  end.

(** [a < b] on lists: the first position where the two differ decides,
    and a proper prefix is smaller. *)
Fixpoint list_lt (a b : list part) : option bool :=
  match a, b with
  | [], [] => Some false
  | [], _ :: _ => Some true
  | _ :: _, [] => Some false
  | x :: a', y :: b' => if part_eqb x y then list_lt a' b' else part_lt x y
  end.

(** [sorted(files, key=numericalSort)]: the keys are computed first, then
    the files are put in the one stable ascending order, here by insertion
    from the right: a file goes before the first file whose key is not
    smaller. *)
Fixpoint insert_by_key (x : list part * string) (l : list (list part * string))
    : option (list (list part * string)) :=
  match l with
  | [] => Some [x]
  | y :: l' =>
      b ← list_lt y.1 x.1;
      if b : bool then l'' ← insert_by_key x l'; Some (y :: l'') else Some (x :: l)
  end.

Fixpoint sort_by_key (l : list (list part * string))
    : option (list (list part * string)) :=
  match l with
  | [] => Some []
  | x :: l' => s ← sort_by_key l'; insert_by_key x s
  end.

Fixpoint with_keys (files : list string) : res (list (list part * string)) :=
  match files with
  | [] => Ok []
  | f :: files' => k ← numericalSort f; rest ← with_keys files'; Ok ((k, f) :: rest)
  end.

(** What a call that touches the file system can raise. *)
Inductive os_exn : Type :=
  | OSError                (* a file cannot be opened *)
  | TypeError              (* text compared with a number *)
  | Builtin (e : exn).

Inductive outcome (A : Type) : Type :=
  | Returns (a : A)
  | Raises (e : os_exn).
Arguments Returns {A} a.
Arguments Raises {A} e.

Definition sorted_numerical (files : list string) : outcome (list string) :=
  match with_keys files with
  | Raise e => Raises (Builtin e)
  | Ok keyed_files =>
      match sort_by_key keyed_files with
      | None => Raises TypeError
      | Some l => Returns l.*2
      end
  end.

(** The files: [files p = Some text] when [os.path.exists(p)] holds,
    [text] being what Python reads from the file in text mode (the files
    hold text in the encoding Python expects); writing such a text and
    reading it again gives the same text.  A path names one file (no
    links, one spelling per file). *)
Definition fs : Type := string → option string.

Definition fs_write (path content : string) (files : fs) : fs :=
  fun p => if String.eqb p path then Some content else files p.

Section Files.

(** What the process may do, which a run does not change: [can_read p]
    when the existing file [p] can be opened for reading, [can_write p]
    when [p] can be opened for writing, that is created or truncated (its
    directory exists and permits it).  A path that exists without being a
    regular file, a directory say, can be neither.  Writing to an open
    file is taken to succeed. *)
Variables can_read can_write : string → bool.

(** [open(fname).read()]; [None] is the OSError of [open]. *)
Definition read_file (fname : string) (files : fs) : option string :=
  if can_read fname then files fname else None.

(** [for fname in fep_file: output.write(open(fname).read())], with
    [written] what the output file holds so far; leaving the [with] block,
    also by an exception, closes the output file with what was written.
    glob ran before the output file was created, so the output file is
    none of the files read. *)
Fixpoint write_all (outfile written : string) (fep_file : list string) (files : fs)
    : fs * outcome unit :=
  match fep_file with
  | [] => (files, Returns tt)
  | fname :: rest =>
      match read_file fname files with
      | None => (files, Raises OSError)
      | Some content =>
          let written := (written ++ content)%string in
          write_all outfile written rest (fs_write outfile written files)
      end
  end.

(** [cat_fepout(fep_dir, label, D)], given the paths [glob.glob] returns
    for [fep_dir/*.fepout]; the printed messages are left out.
    [open(outfile, 'w')] raises OSError when the file cannot be created,
    and creates it empty otherwise. *)
Definition cat_fepout (globbed : list string) (label D : string) (files : fs)
    : fs * outcome string :=
  match sorted_numerical globbed with
  | Raises e => (files, Raises e)
  | Returns fep_file =>
      let outfile := (label ++ "_" ++ D ++ ".fepout")%string in
      match files outfile with
      | Some _ => (files, Returns outfile)
      | None =>
          if can_write outfile then
            match write_all outfile EmptyString fep_file
                    (fs_write outfile EmptyString files) with
            | (files', Returns _) => (files', Returns outfile)
            | (files', Raises e) => (files', Raises e)
            end
          else (files, Raises OSError)
      end
  end.

End Files.

(** The text of the digits, read as a number, and the shape of a key. *)
Fixpoint all_digits (s : string) : bool :=
  match s with
  | EmptyString => true
  | String c s' => is_digit c && all_digits s'
  end.

Definition starts_with_digit (s : string) : bool :=
  match s with
  | EmptyString => false
  | String c _ => is_digit c
  end.

Fixpoint ends_with_digit (s : string) : bool :=
  match s with
  | EmptyString => false
  | String c EmptyString => is_digit c
  | String _ s' => ends_with_digit s'
  end.

(** A key alternates text and numbers; [odd] is the parity of its first
    position and the last element is text. *)
Fixpoint alternating (odd : bool) (k : list part) : Prop :=
  match k with
  | [] => odd = true
  | PStr _ :: k' => odd = false ∧ alternating true k'
  | PInt _ :: k' => odd = true ∧ alternating false k'
  end.

(** The contents of the given files in a row. *)
Fixpoint contents (files : fs) (names : list string) : string :=
  match names with
  | [] => EmptyString
  | f :: names' => (default EmptyString (files f) ++ contents files names')%string
  end.

(** The shape of a split: text and runs of digits in turn, a run of digits
    being empty only while it is first and still under construction. *)
Fixpoint split_shape (in_num : bool) (ps : list string) : Prop :=
  match ps with
  | [] => False
  | p :: ps' =>
      if in_num then all_digits p = true ∧ split_shape false ps'
      else ps' = [] ∨ (head ps' ≠ Some EmptyString ∧ split_shape true ps')
  end.

(** The files of a sorted list, with their keys. *)
Definition keys_ascend (f1 f2 : string) : Prop :=
  ∃ k1 k2, numericalSort f1 = Ok k1 ∧ numericalSort f2 = Ok k2
           ∧ list_lt k2 k1 = Some false.

#[global] Instance exn_eq_dec : EqDecision exn.
Proof. solve_decision. Defined.
#[global] Instance res_eq_dec {A} `{EqDecision A} : EqDecision (res A).
Proof. solve_decision. Defined.
#[global] Instance string_eq_dec : EqDecision string := string_dec.
#[global] Instance part_eq_dec : EqDecision part.
Proof. solve_decision. Defined.

(** A key paired with its file is the key of that file, and it has the
    shape of a key. *)
Definition keyed_file (kf : list part * string) : Prop :=
  numericalSort kf.2 = Ok kf.1 ∧ alternating false kf.1.

(** The second of two keyed files is not smaller than the first. *)
Definition not_before (x y : list part * string) : Prop :=
  list_lt y.1 x.1 = Some false.

(** Prepend a string to the first part of a split. *)
Definition push_str (t : string) (ps : list string) : list string :=
  match ps with
  | [] => [t]
  | p :: ps' => (t ++ p)%string :: ps'
  end.

(** A directory of two result files and nothing else, to run [cat_fepout]
    on. *)
Definition demo_fs : fs := fun p =>
  if String.eqb p "d/w2.fepout" then Some "two;"%string
  else if String.eqb p "d/w10.fepout" then Some "ten;"%string
  else None.

(** ** getdata: the summary file, read and parsed *)

Definition newline : ascii := "010"%char.

(** [f.readlines()]: the lines of a text, each with its line end; the last
    one has none when the text does not end with a line end. *)
Fixpoint readlines (text : string) : list string :=
  match text with
  | EmptyString => []
  | String c text' =>
      if Ascii.eqb c newline then String c EmptyString :: readlines text'
      else push_char c (readlines text')
  end.

(** The text is empty or ends with a line end. *)
Fixpoint whole_lines (text : string) : bool :=
  match text with
  | EmptyString => true
  | String c EmptyString => Ascii.eqb c newline
  | String _ text' => whole_lines text'
  end.

Definition to_outcome {A} (m : res A) : outcome A :=
  match m with
  | Ok a => Returns a
  | Raise e => Raises (Builtin e)
  end.

Section Reading.

Variable float : string → res R.
Variables can_read can_write : string → bool.

(** [ParseFEP(fep_file)] with its first three statements, which read the
    lines of the file. *)
Definition ParseFEP_file (fep_file : string) (files : fs) : outcome parsed :=
  match read_file can_read fep_file files with
  | None => Raises OSError
  | Some text => to_outcome (ParseFEP float (readlines text))
  end.

(** [getdata(D)] of [main]; [dir_exists] is [os.path.exists(dir)] and
    [globbed] what [glob.glob] returns for the result files of [dir]. *)
Definition getdata (dir_exists : bool) (globbed : list string) (outfname D : string)
    (files : fs) : fs * outcome parsed :=
  if dir_exists then
    match cat_fepout can_read can_write globbed outfname D files with
    | (files', Returns fepout) => (files', ParseFEP_file fepout files')
    | (files', Raises e) => (files', Raises e)
    end
  else (files, Raises OSError).

End Reading.

(** Every path can be read and written. *)
Definition permitted (p : string) : bool := true.

(** The lines of the given files in a row. *)
Definition lines_of (files : fs) (names : list string) : list string :=
  names ≫= fun f => readlines (default EmptyString (files f)).

(** A directory of one forward window in two files. *)
Definition demo_results : fs := fun p =>
  if String.eqb p "d/w1.fepout"%string
  then Some (String.concat (String newline EmptyString)
               ["#STARTING"%string; "a b 1 2 3 4 5 c d 6"%string; EmptyString])
  else if String.eqb p "d/w2.fepout"%string
  then Some (String.concat (String newline EmptyString)
               ["a b 1 2 3 4 7 c d 8"%string; "#Free e c f l w [ 0 1 ]"%string;
                EmptyString])
  else None.

(** ** hist_plot and dg_plot *)

(** [s.split(' ')]: the text between single spaces, empty pieces kept. *)
Fixpoint split_on (sep : ascii) (s : string) : list string :=
  match s with
  | EmptyString => [EmptyString]
  | String c s' =>
      if Ascii.eqb c sep then EmptyString :: split_on sep s'
      else push_char c (split_on sep s')
  end.

Fixpoint has_char (c : ascii) (s : string) : bool :=
  match s with
  | EmptyString => false
  | String c' s' => Ascii.eqb c' c || has_char c s'
  end.

(** The calls of matplotlib.pyplot that the two functions make, with the
    arguments that depend on the data. *)
Inductive plt_call : Type :=
  | plt_figure
  | plt_subplot (cell : nat)                     (* plt.subplot(gs[cell]) *)
  | plt_hist (data : list R) (color : string)
  | plt_plot (x y : list R) (color : string)
  | plt_title (text : string)
  | plt_tick_params
  | plt_subplots_adjust
  | plt_suptitle (text : string)
  | plt_text (text : string)
  | plt_savefig (fname : string)
  | plt_clf.

(** [temp = label.split(' ')] and the subplot title made of [temp[1]] and
    [temp[2]]. *)
Definition sbtitle (label : string) : res string :=
  let temp := split_on " "%char label in
  t1 ← of_option IndexError (temp !! 1%nat);
  t2 ← of_option IndexError (temp !! 2%nat);
  Ok ("$\lambda$ = "%string ++ t1 ++ " to "%string ++ t2)%string.

(** [gs[idx]] for [gs = gridspec.GridSpec(8,5)] and [idx] counted up from
    0: the grid has 40 cells. *)
Definition gridspec_item (idx : nat) : res nat :=
  if (idx <? 8 * 5)%nat then Ok idx else Raise IndexError.

(** [-1 * a] *)
Definition negated (a : list R) : list R := (fun x => (-1 * x)%R) <$> a.

(** [zip(sorted(d_F.keys()), sorted(list(d_R.keys()), reverse=True))] *)
Definition plot_pairs (d_F d_R : pydict (list R)) : list (Z * Z) :=
  zip (sorted (dict_keys d_F)) (sorted_reverse (dict_keys d_R)).

(** The body of the loop of [hist_plot]; the loop variables are [idx] and
    the calls made so far.  pyplot is taken to raise nothing. *)
Definition hist_body (w_F w_R : pydict (list R)) (window_F : pydict string)
    (st : nat * list plt_call) (p : Z * Z) : res (nat * list plt_call) :=
  let '(idx, calls) := st in
  let '(kF, kR) := p in
  label ← dict_item kF window_F;
  title ← sbtitle label;
  cell ← gridspec_item idx;
  r ← dict_item kR w_R;
  f ← dict_item kF w_F;
  Ok (S idx, calls ++ [plt_subplot cell; plt_hist (negated r) "r"%string;
                       plt_hist f "b"%string; plt_title title; plt_tick_params]).

(** [hist_plot]: the calls made when it returns. *)
Definition hist_plot (w_F w_R : pydict (list R)) (window_F window_R : pydict string)
    (title outfname : string) : res (list plt_call) :=
  '(_, calls) ← for_each (hist_body w_F w_R window_F) (0%nat, [plt_figure])
                  (plot_pairs w_F w_R);
  Ok (calls ++ [plt_subplots_adjust; plt_suptitle title;
                plt_text "$\Delta$U (kcal/mol)"%string; plt_text "frequency"%string;
                plt_savefig (outfname ++ "_dE-overlap.eps"%string)%string; plt_clf]).

(** [ns = np.arange(2001)/500.+1] *)
Definition ns : list R := (fun k => (INR k / 500 + 1)%R) <$> seq 0 2001.

(** [plt.plot(x, y, color=c)] raises ValueError when [x] and [y] differ in
    length. *)
Definition plot_xy (x y : list R) (color : string) : res plt_call :=
  if decide (length x = length y) then Ok (plt_plot x y color) else Raise ValueError.

(** The body of the loop of [dg_plot]. *)
Definition dg_body (dGs_F dGs_R : pydict (list R)) (window_F : pydict string)
    (st : nat * list plt_call) (p : Z * Z) : res (nat * list plt_call) :=
  let '(idx, calls) := st in
  let '(kF, kR) := p in
  label ← dict_item kF window_F;
  title ← sbtitle label;
  cell ← gridspec_item idx;
  r ← dict_item kR dGs_R;
  plot_R ← plot_xy ns (negated r) "r"%string;
  f ← dict_item kF dGs_F;
  plot_F ← plot_xy ns f "b"%string;
  Ok (S idx, calls ++ [plt_subplot cell; plot_R; plot_F; plt_title title;
                       plt_tick_params]).

Definition dg_plot (dGs_F dGs_R : pydict (list R)) (window_F window_R : pydict string)
    (title outfname : string) : res (list plt_call) :=
  '(_, calls) ← for_each (dg_body dGs_F dGs_R window_F) (0%nat, [plt_figure])
                  (plot_pairs dGs_F dGs_R);
  Ok (calls ++ [plt_subplots_adjust; plt_suptitle title;
                plt_text "time (ns)"%string; plt_text "$\Delta$G (kcal/mol)"%string;
                plt_savefig (outfname ++ "_dGvTime.eps"%string)%string; plt_clf]).

(** The calls for one pair of windows. *)
Definition hist_cell (w_F w_R : pydict (list R)) (titles : nat → string) (M i : nat)
    : list plt_call :=
  [plt_subplot i; plt_hist (negated (series_of w_R (Z.of_nat (M - 1 - i)))) "r"%string;
   plt_hist (series_of w_F (Z.of_nat i)) "b"%string; plt_title (titles i); plt_tick_params].

(** The label of a window comes from a summary line of the stream. *)
Definition labelled_by (data : list string) (kl : Z * string) : Prop :=
  ∃ line, line ∈ data ∧ is_summary line = true
          ∧ kl.2 = join " "%string (slice 6 10 (split line)).

(** * Properties *)

(** ** The error monad *)

Lemma bind_Ok {A B} (f : A → res B) (a : A) : (Ok a ≫= f) = f a.
Proof. reflexivity. Qed.

Lemma bind_Ok_inv {A B} (f : A → res B) (m : res A) (b : B) :
  (m ≫= f) = Ok b → ∃ a, m = Ok a ∧ f a = Ok b.
Proof. destruct m as [a|e]; [eauto | discriminate]. Qed.

Lemma for_each_app {S A} (body : S → A → res S) (s : S) (l1 l2 : list A) :
  for_each body s (l1 ++ l2) = (for_each body s l1 ≫= fun s' => for_each body s' l2).
Proof.
  revert s. induction l1 as [|a l1 IH]; intros s; [reflexivity|].
  simpl. destruct (body s a) as [s'|e]; [apply IH | reflexivity].
Qed.

(** ** Dictionaries *)

Lemma dict_get_set {V} (k : Z) (v : V) (d : pydict V) :
  dict_get k (dict_set k v d) = Some v.
Proof.
  induction d as [|[k' v'] d IH]; simpl.
  - by rewrite decide_True.
  - destruct (decide (k = k')); simpl; [by rewrite decide_True | by rewrite decide_False].
Qed.

Lemma dict_keys_set_new {V} (k : Z) (v : V) (d : pydict V) :
  k ∉ dict_keys d → dict_set k v d = d ++ [(k, v)].
Proof.
  unfold dict_keys. induction d as [|[k' v'] d IH]; simpl; [done|].
  rewrite not_elem_of_cons. intros [Hne Hd].
  rewrite decide_False by done. by rewrite IH.
Qed.

Lemma dict_get_None {V} (k : Z) (d : pydict V) :
  dict_get k d = None ↔ k ∉ dict_keys d.
Proof.
  unfold dict_keys. induction d as [|[k' v'] d IH]; simpl.
  - split; [intros _; apply not_elem_of_nil | done].
  - rewrite not_elem_of_cons. destruct (decide (k = k')); [|tauto].
    split; [done | tauto].
Qed.

Lemma dict_get_elem_of {V} (k : Z) (v : V) (d : pydict V) :
  NoDup (dict_keys d) → (k, v) ∈ d → dict_get k d = Some v.
Proof.
  unfold dict_keys. induction d as [|[k' v'] d IH]; simpl.
  - intros _ H. by apply elem_of_nil in H.
  - rewrite NoDup_cons. intros [Hk' Hnd] [Heq|Hin]%elem_of_cons.
    + injection Heq as -> ->. by rewrite decide_True.
    + destruct (decide (k = k')) as [->|]; [|by apply IH].
      exfalso. apply Hk'. apply list_elem_of_fmap. by exists (k', v).
Qed.

(** ** The parser *)

Section ParserFacts.

Variable float : string → res R.

Lemma collect_sample l st :
  collect float l st = (sample float l ≫= fun s => Ok (push [s] st)).
Proof.
  unfold collect, sample.
  destruct (column float l 6); [|done]. destruct (column float l 9); [|done].
  destruct (column float l 3); [|done]. destruct (column float l 2); [|done].
  destruct (column float l 5); [|done]. destruct (column float l 4); done.
Qed.

Lemma push_nil st : push [] st = st.
Proof. destruct st. unfold push. simpl. by rewrite !app_nil_r. Qed.

Lemma push_cons s ss st : push (s :: ss) st = push ss (push [s] st).
Proof. unfold push. simpl. by rewrite <- !app_assoc. Qed.

Lemma step_summary st line :
  is_summary line = true →
  step float st line
  = Ok (set_parsing (has "#STARTING" (split line)) (seal (split line) st)).
Proof.
  unfold is_summary, step. intros ->. simpl.
  by destruct (has "#STARTING" (split line)).
Qed.

Lemma step_other st line :
  is_summary line = false →
  step float st line
  = if parsing st
    then s ← sample float (split line);
         Ok (set_parsing (has "#STARTING" (split line) || parsing st) (push [s] st))
    else Ok (set_parsing (has "#STARTING" (split line)) st).
Proof.
  unfold is_summary, step. intros ->. simpl.
  destruct (parsing st) eqn:Hp.
  - rewrite collect_sample. destruct (sample float (split line)) as [s|]; [|done].
    simpl. destruct (has "#STARTING" (split line)); simpl; [done|].
    unfold set_parsing, push. simpl. by rewrite Hp.
  - simpl. destruct (has "#STARTING" (split line)); [done|].
    destruct st; simpl in *; by subst.
Qed.

Lemma scan_app st d1 d2 :
  scan float st (d1 ++ d2) = (scan float st d1 ≫= fun st' => scan float st' d2).
Proof. apply for_each_app. Qed.

Lemma scan_cons st line rest :
  scan float st (line :: rest) = (step float st line ≫= fun st' => scan float st' rest).
Proof. reflexivity. Qed.

Lemma samples_cons l ls :
  samples float (l :: ls) = (s ← sample float l; ss ← samples float ls; Ok (s :: ss)).
Proof. reflexivity. Qed.

Lemma set_parsing_same st : set_parsing (parsing st) st = st.
Proof. by destruct st. Qed.

(** A segment with no summary line: its collected lines are appended to
    the buffers and nothing else changes but the flag. *)
Lemma scan_segment st seg ss :
  Forall (fun line => is_summary line = false) seg →
  samples float (ensemble (parsing st) (split <$> seg)) = Ok ss →
  ∃ b, scan float st seg = Ok (set_parsing b (push ss st)).
Proof.
  intros Hseg. revert st ss.
  induction Hseg as [|line seg Hline Hseg IH]; intros st ss Hss.
  - exists (parsing st).
    assert (ss = []) as -> by (destruct (parsing st); by injection Hss).
    by rewrite push_nil, set_parsing_same.
  - rewrite scan_cons, step_other by done. rewrite fmap_cons in Hss.
    destruct (parsing st) eqn:Hp; unfold ensemble in Hss.
    + rewrite samples_cons in Hss.
      apply bind_Ok_inv in Hss as (s & Hs & Hss).
      apply bind_Ok_inv in Hss as (ss' & Hss' & [= <-]).
      rewrite Hs, !bind_Ok, orb_true_r.
      destruct (IH (set_parsing true (push [s] st)) ss') as [b Hb]; [exact Hss'|].
      exists b. rewrite Hb, (push_cons s ss'). reflexivity.
    + rewrite bind_Ok.
      destruct (IH (set_parsing (has "#STARTING" (split line)) st) ss) as [b Hb].
      { unfold ensemble. cbn [after_marker] in Hss. simpl parsing.
        destruct (has "#STARTING" (split line)); exact Hss. }
      exists b. rewrite Hb. reflexivity.
Qed.

Lemma slice_6_10 {A} (l : list A) :
  slice 6 10 l = omap (fun k => l !! k) [6; 7; 8; 9]%nat.
Proof.
  unfold slice. do 10 (destruct l as [|? l]; [reflexivity|]). reflexivity.
Qed.

Lemma dict_keys_next {V} (k : nat) (v : V) (d : pydict V) :
  dict_keys d = Z.of_nat <$> seq 0 k →
  dict_keys (dict_set (Z.of_nat k) v d) = Z.of_nat <$> seq 0 (S k).
Proof.
  intros Hd. rewrite dict_keys_set_new.
  - unfold dict_keys in *. rewrite fmap_app, Hd, seq_S, fmap_app. reflexivity.
  - rewrite Hd. intros (j & Hj & Hin%elem_of_seq)%list_elem_of_fmap. lia.
Qed.

Lemma step_keyed k st line st' :
  keyed k st → step float st line = Ok st' →
  keyed ((if is_summary line then 1 else 0) + k) st'.
Proof.
  intros (Hi & H1 & H2 & H3 & H4 & H5) Hstep.
  destruct (is_summary line) eqn:Hsum.
  - rewrite step_summary in Hstep by done. injection Hstep as <-.
    unfold keyed, seal; simpl. rewrite Hi.
    repeat split; [lia | by apply dict_keys_next ..].
  - rewrite step_other in Hstep by done.
    destruct (parsing st).
    + apply bind_Ok_inv in Hstep as (s & _ & [= <-]). by repeat split.
    + injection Hstep as <-. by repeat split.
Qed.

Lemma scan_keyed k st data st' :
  keyed k st → scan float st data = Ok st' → keyed (count_windows data + k) st'.
Proof.
  revert k st. induction data as [|line data IH]; intros k st Hk Hscan.
  - injection Hscan as <-. exact Hk.
  - rewrite scan_cons in Hscan. apply bind_Ok_inv in Hscan as (st1 & Hstep & Hscan).
    pose proof (IH _ _ (step_keyed _ _ _ _ Hk Hstep) Hscan) as Hres.
    simpl. by replace ((if is_summary line then 1 else 0) + count_windows data + k)
      with (count_windows data + ((if is_summary line then 1 else 0) + k)) by lia.
Qed.

Lemma keyed_init : keyed 0 scan_init.
Proof. by repeat split. Qed.

(** Lines that are no summary leave the dictionaries and the index alone. *)
Lemma scan_no_summary st tail st' :
  Forall (fun line => is_summary line = false) tail →
  scan float st tail = Ok st' →
  dEs_dict st' = dEs_dict st ∧ dGs_dict st' = dGs_dict st
  ∧ elecs_dict st' = elecs_dict st ∧ vdws_dict st' = vdws_dict st
  ∧ window st' = window st ∧ cur_i st' = cur_i st.
Proof.
  intros Htail. revert st. induction Htail as [|line tail Hline Htail IH]; intros st Hscan.
  - by injection Hscan as <-.
  - rewrite scan_cons, step_other in Hscan by done.
    apply bind_Ok_inv in Hscan as (st1 & Hstep & Hscan).
    apply IH in Hscan. destruct (parsing st).
    + apply bind_Ok_inv in Hstep as (s & _ & [= <-]). exact Hscan.
    + injection Hstep as <-. exact Hscan.
Qed.

Lemma scan_well_formed st tail :
  Forall (fun line => is_summary line = false) tail →
  Forall (fun line => is_Ok (sample float (split line))) tail →
  is_Ok (scan float st tail).
Proof.
  intros Htail. revert st. induction Htail as [|line tail Hline Htail IH];
    intros st Hwf.
  - by exists st.
  - apply Forall_cons in Hwf as [[s Hs] Hwf].
    rewrite scan_cons, step_other by done.
    destruct (parsing st); [rewrite Hs|]; rewrite !bind_Ok; by apply IH.
Qed.

End ParserFacts.

(** ** Claims about the parser *)

Local Open Scope string_scope.
Local Open Scope list_scope.
Local Open Scope stdpp_scope.

(** C7, as stated, fails: a window-summary line that also carries the
    begin marker leaves collection on, so the sample line of the next
    segment is collected although no begin marker occurs in that segment. *)
Lemma summary_line_can_leave_collection_on :
  (∃ st', step float_int scan_init "#Free #STARTING" = Ok st' ∧ parsing st' = true)
  ∧ ParseFEP float_int ["#Free #STARTING"; "a b 1 2 3 4 5 c d 6"; "#Free end"]
    = Ok ([(0, []); (1, [5%R])], [(0, []); (1, [6%R])],
          [(0, []); (1, [(2 - 1)%R])], [(0, []); (1, [(4 - 3)%R])],
          [(0, EmptyString); (1, EmptyString)])%Z.
Proof. split; [eexists; split; reflexivity | reflexivity]. Qed.

(** C7 (amended): scanning one window segment, that is lines without a
    summary marker followed by a summary line.  Only the lines after the
    segment's first begin marker are collected (all of them when collection
    is already on at the start of the segment, which happens only when the
    preceding summary line carried the begin marker too); the summary line
    stores the buffers under the running index, empties the buffers,
    increments the index and is itself never collected; collection is off
    afterwards unless the summary line also carries the begin marker. *)
Theorem window_segment_sealed (float : string → res R)
    (st : scan_state) (seg : list string) (fl : string)
    (ss : list ensemble_sample) :
  Forall (fun line => is_summary line = false) seg →
  is_summary fl = true →
  samples float (ensemble (parsing st) (split <$> seg)) = Ok ss →
  ∃ st', scan float st (seg ++ [fl]) = Ok st'
    ∧ dEs_dict st' = dict_set (cur_i st) (tempDE st ++ (s_dE <$> ss)) (dEs_dict st)
    ∧ dGs_dict st' = dict_set (cur_i st) (tempDG st ++ (s_dG <$> ss)) (dGs_dict st)
    ∧ elecs_dict st' = dict_set (cur_i st) (tempElec st ++ (s_elec <$> ss)) (elecs_dict st)
    ∧ vdws_dict st' = dict_set (cur_i st) (tempVdw st ++ (s_vdw <$> ss)) (vdws_dict st)
    ∧ window st' = dict_set (cur_i st) (join " " (slice 6 10 (split fl))) (window st)
    ∧ tempDE st' = [] ∧ tempDG st' = [] ∧ tempElec st' = [] ∧ tempVdw st' = []
    ∧ cur_i st' = (cur_i st + 1)%Z
    ∧ parsing st' = has "#STARTING" (split fl).
Proof.
  intros Hseg Hfl Hss.
  destruct (scan_segment float st seg ss Hseg Hss) as [b Hb].
  rewrite scan_app, Hb, bind_Ok, scan_cons, step_summary by done.
  eexists. split; [reflexivity|]. by repeat split.
Qed.

Lemma window_segment_sealed_witness :
  ∃ st', scan float_int scan_init
           (["x y 9 9 9 9 9 z z 9"; "#STARTING COLLECTION"; "a b 1 2 3 4 5 c d 6"]
            ++ ["#Free energy change for lambda window [ 0 1 ] is 6"]) = Ok st'
    ∧ dEs_dict st' = [(0%Z, [5%R])] ∧ parsing st' = false.
Proof.
  destruct (window_segment_sealed float_int scan_init
    ["x y 9 9 9 9 9 z z 9"; "#STARTING COLLECTION"; "a b 1 2 3 4 5 c d 6"]
    "#Free energy change for lambda window [ 0 1 ] is 6"
    [EnsembleSample 5 6 (2 - 1) (4 - 3)])
    as (st' & Hscan & HdE & _ & _ & _ & _ & _ & _ & _ & _ & _ & Hp).
  - repeat constructor.
  - reflexivity.
  - reflexivity.
  - exists st'. split; [exact Hscan|]. split; [exact HdE | exact Hp].
Defined.

(** C8: a collected line contributes column 6 as work sample, column 9 as
    free-energy sample, column 3 minus column 2 as electrostatic delta and
    column 5 minus column 4 as van-der-Waals delta; and every summary line,
    in whatever state it is met (collection on or off, buffers empty or
    not), is labelled by its tokens 6 to 9 joined by single spaces, the
    label being stored under the running window index. *)
Theorem columns_of_a_line (float : string → res R) :
  (∀ (st : scan_state) (line : string)
     (t2 t3 t4 t5 t6 t9 : string) (e2 e3 e4 e5 e6 e9 : R),
     is_summary line = false → parsing st = true →
     split line !! 2%nat = Some t2 → float t2 = Ok e2 →
     split line !! 3%nat = Some t3 → float t3 = Ok e3 →
     split line !! 4%nat = Some t4 → float t4 = Ok e4 →
     split line !! 5%nat = Some t5 → float t5 = Ok e5 →
     split line !! 6%nat = Some t6 → float t6 = Ok e6 →
     split line !! 9%nat = Some t9 → float t9 = Ok e9 →
     ∃ st', step float st line = Ok st'
       ∧ tempDE st' = tempDE st ++ [e6]
       ∧ tempDG st' = tempDG st ++ [e9]
       ∧ tempElec st' = tempElec st ++ [(e3 - e2)%R]
       ∧ tempVdw st' = tempVdw st ++ [(e5 - e4)%R])
  ∧ (∀ (st : scan_state) (fl : string),
       is_summary fl = true →
       ∃ st', step float st fl = Ok st'
         ∧ dict_get (cur_i st) (window st')
           = Some (join " " (omap (fun k => split fl !! k) [6; 7; 8; 9]%nat))).
Proof.
  split.
  - intros st line t2 t3 t4 t5 t6 t9 e2 e3 e4 e5 e6 e9
      Hline Hp H2 F2 H3 F3 H4 F4 H5 F5 H6 F6 H9 F9.
    rewrite step_other, Hp by done.
    unfold sample, column.
    rewrite H6, H9, H3, H2, H5, H4. simpl.
    rewrite F6, F9, F3, F2, F5, F4. simpl.
    eexists. split; [reflexivity|]. by repeat split.
  - intros st fl Hfl.
    rewrite step_summary by done. eexists. split; [reflexivity|].
    simpl. rewrite dict_get_set, slice_6_10. reflexivity.
Qed.

Lemma columns_of_a_line_witness :
  (∃ st', step float_int (set_parsing true scan_init) "a b 1 2 3 4 5 c d 6" = Ok st'
     ∧ tempDE st' = [5%R] ∧ tempDG st' = [6%R]
     ∧ tempElec st' = [(2 - 1)%R] ∧ tempVdw st' = [(4 - 3)%R])
  ∧ (∃ st', step float_int scan_init
              "#Free energy change for lambda window [ 0 0.025 ] is 6" = Ok st'
     ∧ dict_get 0%Z (window st') = Some "[ 0 0.025 ]").
Proof.
  destruct (columns_of_a_line float_int) as [Hsample Hlabel]. split.
  - apply (Hsample (set_parsing true scan_init) "a b 1 2 3 4 5 c d 6"
             "1" "2" "3" "4" "5" "6" 1%R 2%R 3%R 4%R 5%R 6%R); reflexivity.
  - apply (Hlabel scan_init
             "#Free energy change for lambda window [ 0 0.025 ] is 6").
    reflexivity.
Defined.

(** C10: the five dictionaries hold exactly one entry per summary line,
    keyed [0 .. n-1]; lines after the last summary line change none of
    them, and well-formed sample lines there raise nothing. *)
Theorem one_entry_per_summary_line (float : string → res R)
    (data tail : list string)
    (dEs dGs elecs vdws : pydict (list R)) (labels : pydict string) :
  ParseFEP float data = Ok (dEs, dGs, elecs, vdws, labels) →
  Forall (fun line => is_summary line = false) tail →
  (dict_keys dEs = Z.of_nat <$> seq 0 (count_windows data)
   ∧ dict_keys dGs = Z.of_nat <$> seq 0 (count_windows data)
   ∧ dict_keys elecs = Z.of_nat <$> seq 0 (count_windows data)
   ∧ dict_keys vdws = Z.of_nat <$> seq 0 (count_windows data)
   ∧ dict_keys labels = Z.of_nat <$> seq 0 (count_windows data))
  ∧ (∀ r, ParseFEP float (data ++ tail) = Ok r → r = (dEs, dGs, elecs, vdws, labels))
  ∧ (Forall (fun line => is_Ok (sample float (split line))) tail →
     ParseFEP float (data ++ tail) = Ok (dEs, dGs, elecs, vdws, labels)).
Proof.
  unfold ParseFEP. intros Hdata Htail.
  apply bind_Ok_inv in Hdata as (st & Hscan & [= <- <- <- <- <-]).
  assert (∀ r, (scan float scan_init (data ++ tail) ≫= fun st0 =>
                 Ok (dEs_dict st0, dGs_dict st0, elecs_dict st0, vdws_dict st0, window st0))
               = Ok r →
               r = (dEs_dict st, dGs_dict st, elecs_dict st, vdws_dict st, window st))
    as Hsame.
  { intros r Hr. rewrite scan_app, Hscan, bind_Ok in Hr.
    apply bind_Ok_inv in Hr as (st' & Hscan' & [= <-]).
    destruct (scan_no_summary float st tail st' Htail Hscan')
      as (-> & -> & -> & -> & -> & _). reflexivity. }
  split; [|split].
  - pose proof (scan_keyed float 0 _ _ _ keyed_init Hscan) as (_ & H1 & H2 & H3 & H4 & H5).
    rewrite Nat.add_0_r in *. done.
  - exact Hsame.
  - intros Hwf.
    destruct (scan_well_formed float st tail Htail Hwf) as [st' Hscan'].
    rewrite <- (Hsame (dEs_dict st', dGs_dict st', elecs_dict st', vdws_dict st', window st')).
    + by rewrite scan_app, Hscan, bind_Ok, Hscan'.
    + by rewrite scan_app, Hscan, bind_Ok, Hscan'.
Qed.

Lemma one_entry_per_summary_line_witness :
  ParseFEP float_int
    (["#STARTING"; "a b 1 2 3 4 5 c d 6"; "#Free e c f l w [ 0 1 ]"; "#STARTING"]
     ++ ["a b 1 2 3 4 7 c d 8"])
  = Ok ([(0, [5%R])], [(0, [6%R])], [(0, [(2 - 1)%R])], [(0, [(4 - 3)%R])],
        [(0, "[ 0 1 ]")])%Z.
Proof.
  apply (one_entry_per_summary_line float_int
    ["#STARTING"; "a b 1 2 3 4 5 c d 6"; "#Free e c f l w [ 0 1 ]"; "#STARTING"]
    ["a b 1 2 3 4 7 c d 8"]).
  - reflexivity.
  - repeat constructor.
  - repeat constructor. by eexists.
Defined.

(** ** numpy arrays *)

Lemma np_index_nat (n j : nat) : j < n → np_index n (Z.of_nat j) = Ok j.
Proof.
  intros Hj. unfold np_index. rewrite decide_True by lia. by rewrite Nat2Z.id.
Qed.

Lemma np_get_nat (a : list R) (j : nat) (x : R) :
  a !! j = Some x → np_get a (Z.of_nat j) = Ok x.
Proof.
  intros Hx. unfold np_get.
  rewrite np_index_nat by (by eapply lookup_lt_Some). simpl. by rewrite Hx.
Qed.

Lemma np_set_nat (a : list R) (j : nat) (v : R) :
  j < length a → np_set a (Z.of_nat j) v = Ok (<[j:=v]> a).
Proof. intros Hj. unfold np_set. by rewrite np_index_nat. Qed.

Lemma np_set_middle (pre post : list R) (j : nat) (x v : R) :
  length pre = j →
  np_set (pre ++ x :: post) (Z.of_nat j) v = Ok (pre ++ v :: post).
Proof.
  intros <-. rewrite np_set_nat by (rewrite length_app; simpl; lia).
  rewrite insert_app_r_alt by lia. by rewrite Nat.sub_diag.
Qed.

Lemma np_get_middle (pre post : list R) (j : nat) (x : R) :
  length pre = j → np_get (pre ++ x :: post) (Z.of_nat j) = Ok x.
Proof. intros Hj. apply np_get_nat. by apply list_lookup_middle. Qed.

Lemma np_take_elem_of (a : list R) (ks : list Z) (w : list R) :
  np_take a ks = Ok w → ∀ x, x ∈ w → x ∈ a.
Proof.
  revert w. induction ks as [|k ks IH]; intros w Hw x Hx; simpl in Hw.
  - injection Hw as <-. by apply elem_of_nil in Hx.
  - apply bind_Ok_inv in Hw as (y & Hy & Hw).
    apply bind_Ok_inv in Hw as (ys & Hys & [= <-]).
    apply elem_of_cons in Hx as [->|Hx]; [|by eapply IH].
    unfold np_get in Hy. apply bind_Ok_inv in Hy as (j & _ & Hy).
    destruct (a !! j) as [y'|] eqn:Hj; [|done]. injection Hy as <-.
    by eapply list_elem_of_lookup_2.
Qed.

Lemma np_take_keep_all (a : list R) :
  np_take a (Z.of_nat <$> seq 0 (length a)) = Ok a.
Proof.
  enough (∀ pre post, np_take (pre ++ post) (Z.of_nat <$> seq (length pre) (length post))
                      = Ok post) as H by apply (H [] a).
  intros pre post. revert pre. induction post as [|x post IH]; intros pre; [done|].
  cbn [length seq]. rewrite fmap_cons. cbn [np_take].
  rewrite np_get_middle, bind_Ok by done.
  specialize (IH (pre ++ [x])). rewrite length_app, Nat.add_1_r, <- app_assoc in IH.
  cbn [app] in IH. by rewrite IH.
Qed.

(** ** The accumulation loop *)

Lemma for_each_cons {S A} (body : S → A → res S) (s : S) (a : A) (l : list A) :
  for_each body s (a :: l) = (body s a ≫= fun s' => for_each body s' l).
Proof. reflexivity. Qed.

Lemma accum_body_middle (dg sd pre_d post_d pre_g post_g : list R)
    (net netsd x0 y0 x s : R) (j : nat) :
  length pre_d = j → length pre_g = j →
  dg !! j = Some x → sd !! j = Some s →
  accum_body dg sd (pre_d ++ x0 :: post_d, pre_g ++ y0 :: post_g, net, netsd) j
  = Ok (pre_d ++ (x + net)%R :: post_d,
        pre_g ++ sqrt (s ^ 2 + netsd ^ 2)%R :: post_g,
        (x + net)%R, sqrt (s ^ 2 + netsd ^ 2)%R).
Proof.
  intros Hd Hg Hx Hs. unfold accum_body.
  rewrite (np_get_nat _ _ _ Hx), bind_Ok.
  rewrite (np_set_middle _ _ _ _ _ Hd), bind_Ok.
  rewrite (np_get_middle _ _ _ _ Hd), bind_Ok.
  rewrite (np_get_nat _ _ _ Hs), bind_Ok.
  rewrite (np_set_middle _ _ _ _ _ Hg), bind_Ok.
  rewrite (np_get_middle _ _ _ _ Hg), bind_Ok.
  reflexivity.
Qed.

Lemma accumulate_from (dg sd pre_d pre_g : list R) (net netsd : R) (j m : nat) :
  length pre_d = j → length pre_g = j →
  length dg = j + m → length sd = j + m →
  for_each (accum_body dg sd)
    (pre_d ++ np_zeros m, pre_g ++ np_zeros m, net, netsd) (seq j m)
  = Ok (pre_d ++ running_sums net (drop j dg),
        pre_g ++ running_stdevs netsd (drop j sd),
        final_sum net (drop j dg), final_stdev netsd (drop j sd)).
Proof.
  revert j pre_d pre_g net netsd.
  induction m as [|m IH]; intros j pre_d pre_g net netsd Hd Hg Hdg Hsd.
  - rewrite !drop_ge by lia. reflexivity.
  - destruct (lookup_lt_is_Some_2 dg j) as [x Hx]; [lia|].
    destruct (lookup_lt_is_Some_2 sd j) as [s Hs]; [lia|].
    rewrite (drop_S _ _ _ Hx), (drop_S _ _ _ Hs).
    cbn [seq running_sums running_stdevs np_zeros replicate].
    rewrite for_each_cons, (accum_body_middle _ _ _ _ _ _ _ _ _ _ x s j), bind_Ok
      by done.
    unfold final_sum, final_stdev. cbn [foldl].
    rewrite (cons_middle _ pre_d), (cons_middle _ pre_g), !app_assoc.
    fold (np_zeros m).
    rewrite (IH (S j)); [|rewrite ?length_app; simpl; lia ..].
    by rewrite <- !app_assoc.
Qed.

Lemma accumulate_spec (dg sd : list R) :
  length sd = length dg →
  accumulate dg sd (np_zeros (length dg)) (np_zeros (length dg))
  = Ok (running_sums 0 dg, running_stdevs 0 sd, final_sum 0 dg, final_stdev 0 sd).
Proof.
  intros Hlen. unfold accumulate.
  apply (accumulate_from dg sd [] [] 0%R 0%R 0 (length dg)); done.
Qed.

Lemma length_running_sums net dg : length (running_sums net dg) = length dg.
Proof. revert net. induction dg; intros net; simpl; [done | by rewrite IHdg]. Qed.

Lemma length_running_stdevs c sd : length (running_stdevs c sd) = length sd.
Proof. revert c. induction sd; intros c; simpl; [done | by rewrite IHsd]. Qed.

Lemma running_sums_lookup (net : R) (dg : list R) (i : nat) :
  i < length dg →
  running_sums net dg !! i = Some (np_sum (take (S i) dg) + net)%R.
Proof.
  revert net i. induction dg as [|x dg IH]; intros net i Hi; simpl in Hi; [lia|].
  destruct i as [|i]; simpl.
  - f_equal. lra.
  - rewrite IH by lia. f_equal. simpl. lra.
Qed.

Lemma running_stdevs_lookup (c : R) (sd : list R) (i : nat) (s : R) :
  sd !! i = Some s →
  running_stdevs c sd !! i
  = Some (sqrt (s ^ 2 + (match i with O => c | S j => default 0 (running_stdevs c sd !! j) end) ^ 2))%R.
Proof.
  revert c i. induction sd as [|s0 sd IH]; intros c i Hs; [done|].
  destruct i as [|i]; simpl in *.
  - by injection Hs as ->.
  - rewrite (IH _ _ Hs). destruct i; reflexivity.
Qed.

Lemma sqrt_sq_sum_ge (s c : R) : (c <= sqrt (s ^ 2 + c ^ 2))%R.
Proof.
  destruct (Rle_or_lt 0 c) as [Hc|Hc].
  - rewrite <- (sqrt_pow2 c) at 1 by done. apply sqrt_le_1_alt. nra.
  - pose proof (sqrt_pos (s ^ 2 + c ^ 2)). lra.
Qed.

Lemma final_stdev_sum (c : R) (sd : list R) :
  (0 <= c)%R →
  final_stdev c sd = sqrt (np_sum ((fun s => s ^ 2)%R <$> sd) + c ^ 2).
Proof.
  revert c. induction sd as [|s sd IH]; intros c Hc.
  - change (c = sqrt (0 + c ^ 2)). by rewrite Rplus_0_l, sqrt_pow2.
  - change (final_stdev (sqrt (s ^ 2 + c ^ 2)) sd
            = sqrt (s ^ 2 + np_sum ((fun s => s ^ 2)%R <$> sd) + c ^ 2)).
    rewrite IH by apply sqrt_pos.
    rewrite pow2_sqrt by (pose proof (pow2_ge_0 s); pose proof (pow2_ge_0 c); lra).
    f_equal. lra.
Qed.

Lemma running_stdevs_last (c : R) (sd : list R) :
  sd ≠ [] → last (running_stdevs c sd) = Some (final_stdev c sd).
Proof.
  revert c. induction sd as [|s sd IH]; intros c Hne; [done|].
  destruct sd as [|s' sd]; [reflexivity|].
  specialize (IH (sqrt (s ^ 2 + c ^ 2))%R). simpl in *. by apply IH.
Qed.

(** ** Sorting the window keys *)

Lemma Sorted_seq (j n : nat) : Sorted le (seq j n).
Proof.
  revert j. induction n as [|n IH]; intros j; simpl; constructor; [apply IH|].
  destruct n; simpl; constructor. lia.
Qed.

Lemma Zge_transitive : Transitive Z.ge.
Proof. intros x y z. lia. Qed.
Lemma Zge_antisymm : AntiSymm (=) Z.ge.
Proof. intros x y. lia. Qed.
Lemma Zge_total : Total Z.ge.
Proof. intros x y. lia. Qed.

Lemma sorted_seq (l : list Z) (n : nat) :
  l ≡ₚ Z.of_nat <$> seq 0 n → sorted l = Z.of_nat <$> seq 0 n.
Proof.
  intros Hl. apply (Sorted_unique Z.le).
  - apply Sorted_merge_sort, _.
  - apply (Sorted_fmap _ le); [lia | apply Sorted_seq].
  - unfold sorted. by rewrite merge_sort_Permutation.
Qed.

Lemma sorted_reverse_seq (l : list Z) (n : nat) :
  l ≡ₚ Z.of_nat <$> seq 0 n → sorted_reverse l = Z.of_nat <$> reverse (seq 0 n).
Proof.
  intros Hl.
  apply (@Sorted_unique _ Z.ge Zge_transitive Zge_antisymm).
  - apply Sorted_merge_sort, Zge_total.
  - apply (Sorted_fmap _ (flip le)); [unfold flip; lia|].
    apply Sorted_reverse, Sorted_seq.
  - unfold sorted_reverse. by rewrite merge_sort_Permutation, Hl, reverse_Permutation.
Qed.

Lemma reverse_seq (n : nat) :
  reverse (seq 0 n) = (fun i => n - 1 - i) <$> seq 0 n.
Proof.
  induction n as [|n IH]; [done|].
  rewrite seq_S at 1. rewrite reverse_snoc, IH.
  change (seq 0 (S n)) with (0 :: seq 1 n).
  rewrite fmap_cons, <- fmap_S_seq, <- list_fmap_compose.
  f_equal; [simpl; lia|].
  apply list_fmap_ext. intros i x Hx. simpl. lia.
Qed.

Lemma zip_fmap_seq {A B} (f : nat → A) (g : nat → B) (a n m : nat) :
  m ≤ n →
  zip (f <$> seq a n) (g <$> seq a m) = (fun i => (f i, g i)) <$> seq a m.
Proof.
  revert a n. induction m as [|m IH]; intros a n Hmn.
  - by destruct n.
  - destruct n as [|n]; [lia|]. simpl. f_equal. apply IH. lia.
Qed.

(** ** The loops of DoBAR *)

Lemma dict_keys_set {V} (k : Z) (v : V) (d : pydict V) :
  k ∈ dict_keys d → dict_keys (dict_set k v d) = dict_keys d.
Proof.
  unfold dict_keys. induction d as [|[k' v'] d IH]; simpl.
  - intros H. by apply elem_of_nil in H.
  - intros Hin. destruct (decide (k = k')) as [->|Hne]; simpl; [done|].
    f_equal. apply IH. apply elem_of_cons in Hin as [?|?]; done.
Qed.

Lemma dict_get_Some_elem_of {V} (k : Z) (v : V) (d : pydict V) :
  dict_get k d = Some v → (k, v) ∈ d.
Proof.
  induction d as [|[k' v'] d IH]; simpl; [done|].
  destruct (decide (k = k')) as [->|].
  - intros [= ->]. apply elem_of_cons. by left.
  - intros H. apply elem_of_cons. right. by apply IH.
Qed.

Lemma dict_get_is_Some {V} (k : Z) (d : pydict V) :
  k ∈ dict_keys d → is_Some (dict_get k d).
Proof.
  intros Hk. destruct (dict_get k d) eqn:Hget; [by eexists|].
  by apply dict_get_None in Hget.
Qed.

Lemma dict_get_fmap_key {V W} (f : Z → W) (k : Z) (d : pydict V) :
  k ∈ dict_keys d →
  dict_get k ((fun kv => (kv.1, f kv.1)) <$> d) = Some (f k).
Proof.
  unfold dict_keys. induction d as [|[k' v'] d IH]; simpl.
  - intros H. by apply elem_of_nil in H.
  - intros Hin. destruct (decide (k = k')) as [->|Hne]; [done|].
    apply IH. apply elem_of_cons in Hin as [?|?]; done.
Qed.

Lemma dict_keys_fmap_key {V W} (f : Z → W) (d : pydict V) :
  dict_keys ((fun kv => (kv.1, f kv.1)) <$> d) = dict_keys d.
Proof.
  unfold dict_keys. rewrite <- list_fmap_compose. by apply list_fmap_ext.
Qed.


Section EstimatorFacts.

Variable statisticalInefficiency : list R → res R.
Variable subsampleCorrelatedData : list R → R → res (list Z).
Variable BAR : list R → list R → res (R * R).

Local Abbreviation decor :=
  (decorrelated statisticalInefficiency subsampleCorrelatedData).
Local Abbreviation fwd_step :=
  (fwd_body statisticalInefficiency subsampleCorrelatedData).
Local Abbreviation rev_step :=
  (rev_body statisticalInefficiency subsampleCorrelatedData).
Local Abbreviation bar_step := (bar_body BAR).
Local Abbreviation run_DoBAR :=
  (DoBAR statisticalInefficiency subsampleCorrelatedData BAR).

Lemma decorrelated_inv v g w :
  decor v = Ok (g, w) →
  statisticalInefficiency v = Ok g
  ∧ ∃ ix, subsampleCorrelatedData v g = Ok ix ∧ np_take v ix = Ok w.
Proof.
  unfold decorrelated. intros H.
  apply bind_Ok_inv in H as (g' & Hg & H).
  apply bind_Ok_inv in H as (ix & Hix & H).
  apply bind_Ok_inv in H as (w' & Hw & [= <- <-]). eauto.
Qed.

Lemma fwd_body_decorrelated ct ss k v :
  fwd_step (ct, ss) (k, v)
  = (decor v ≫= fun gw => Ok (dict_set k [gw.1] ct, dict_set k gw.2 ss)).
Proof.
  unfold fwd_body, decorrelated.
  destruct (statisticalInefficiency v) as [g|]; [|done]. simpl.
  destruct (subsampleCorrelatedData v g) as [ix|]; [|done]. simpl.
  by destruct (np_take v ix).
Qed.

Lemma rev_body_decorrelated ct ss k v gs :
  dict_get k ct = Some gs →
  rev_step (ct, ss) (k, v)
  = (decor v ≫= fun gw =>
       Ok (dict_set k (gs ++ [gw.1]) ct, dict_set k gw.2 ss)).
Proof.
  intros Hk. unfold rev_body, decorrelated, dict_item.
  rewrite Hk.
  destruct (statisticalInefficiency v) as [g|]; [|done]. simpl.
  destruct (subsampleCorrelatedData v g) as [ix|]; [|done]. simpl.
  by destruct (np_take v ix).
Qed.

Lemma rev_body_absent ct ss k v :
  k ∉ dict_keys ct → ∃ e, rev_step (ct, ss) (k, v) = Raise e.
Proof.
  intros Hk%dict_get_None. unfold rev_body, dict_item. rewrite Hk.
  destruct (statisticalInefficiency v); by eexists.
Qed.

Lemma rev_body_keys ct ss kv ct' ss' :
  rev_step (ct, ss) kv = Ok (ct', ss') → dict_keys ct' = dict_keys ct.
Proof.
  destruct kv as [k v]. intros H.
  destruct (dict_get k ct) as [gs|] eqn:Hk.
  - rewrite (rev_body_decorrelated _ _ _ _ _ Hk) in H.
    apply bind_Ok_inv in H as (gw & _ & [= <- _]).
    apply dict_keys_set. apply dict_get_Some_elem_of in Hk.
    apply list_elem_of_fmap. by exists (k, gs).
  - apply dict_get_None in Hk.
    destruct (rev_body_absent ct ss k v Hk) as [e He]. congruence.
Qed.

(** The forward loop stores, for every window, its inefficiency in
    [corr_time] and its subsampled series in [fwd_ss]. *)
Lemma fwd_loop fwds gF wF ct0 ss0 :
  NoDup (dict_keys fwds) →
  (∀ k, k ∈ dict_keys fwds → (k ∉ dict_keys ct0) ∧ (k ∉ dict_keys ss0)) →
  (∀ k v, (k, v) ∈ fwds → decor v = Ok (gF k, wF k)) →
  for_each fwd_step (ct0, ss0) fwds
  = Ok (ct0 ++ ((fun kv => (kv.1, [gF kv.1])) <$> fwds),
        ss0 ++ ((fun kv => (kv.1, wF kv.1)) <$> fwds)).
Proof.
  revert ct0 ss0. induction fwds as [|[k v] fwds IH]; intros ct0 ss0 Hnd Hnew Hdec.
  - by rewrite !app_nil_r.
  - apply NoDup_cons in Hnd as [Hk Hnd].
    destruct (Hnew k) as [Hct Hss]; [apply elem_of_cons; by left|].
    rewrite for_each_cons, fwd_body_decorrelated.
    rewrite (Hdec k v), !bind_Ok by (apply elem_of_cons; by left).
    simpl fst. simpl snd.
    rewrite !dict_keys_set_new by done.
    rewrite IH; [by rewrite !fmap_cons, <- !app_assoc|done|..].
    + intros k' Hk'. destruct (Hnew k') as [Hct' Hss'].
      { apply elem_of_cons. by right. }
      unfold dict_keys in *. rewrite !fmap_app, !not_elem_of_app. simpl.
      rewrite !list_elem_of_singleton. repeat split; try done; by intros ->.
    + intros k' v' Hin. apply Hdec. apply elem_of_cons. by right.
Qed.

Lemma corr_rows_set P k gs g ct :
  NoDup (dict_keys ct) → corr_rows P ct → dict_get k ct = Some gs →
  corr_rows (k :: P) (dict_set k (gs ++ [g]) ct).
Proof.
  unfold corr_rows, dict_keys. induction ct as [|[k' v'] ct IH]; simpl; [done|].
  intros [Hk' Hnd]%NoDup_cons [[H1 H2] Hrows]%Forall_cons Hget.
  destruct (decide (k = k')) as [->|Hne].
  - injection Hget as ->. constructor.
    + simpl in *. rewrite length_app. simpl. split; [lia|]. intros _. lia.
    + apply Forall_forall. intros [k v] Hin.
      destruct (proj1 (Forall_forall _ _) Hrows _ Hin) as [Hl HP].
      split; [done|]. simpl in *.
      intros [->|HinP]%elem_of_cons; [|by apply HP].
      exfalso. apply Hk'. apply list_elem_of_fmap. by exists (k', v).
  - constructor.
    + simpl in *. split; [done|]. intros [?|Hin]%elem_of_cons; [done | by apply H2].
    + by apply IH.
Qed.

Lemma corr_rows_weaken P P' ct :
  (∀ k, k ∈ P' → k ∈ P) → corr_rows P ct → corr_rows P' ct.
Proof.
  intros HP Hrows. eapply Forall_impl; [exact Hrows|].
  intros kv [Hl H2]. split; [done|]. intros Hin. by apply H2, HP.
Qed.

Lemma corr_rows_print ct :
  corr_rows (dict_keys ct) ct → print_corr_time ct = Ok tt.
Proof.
  intros Hrows.
  assert (Forall (fun kv : Z * list R => 2 ≤ length kv.2) ct) as Hall.
  { apply Forall_forall. intros kv Hin.
    apply (proj1 (Forall_forall _ _) Hrows kv Hin).
    apply list_elem_of_fmap. by exists kv. }
  clear Hrows. unfold print_corr_time.
  induction Hall as [|[k v] ct Hl Hall IH]; [done|].
  rewrite for_each_cons. destruct v as [|g0 [|g1 v]]; simpl in Hl; [lia..|].
  exact IH.
Qed.

(** The reverse loop appends every reverse inefficiency to the row of
    its key and stores the subsampled series in [rev_ss]. *)
Lemma rev_loop revs gR wR P ct ss0 :
  NoDup (dict_keys revs) → NoDup (dict_keys ct) → corr_rows P ct →
  (∀ k, k ∈ dict_keys revs → k ∈ dict_keys ct ∧ (k ∉ dict_keys ss0)) →
  (∀ k v, (k, v) ∈ revs → decor v = Ok (gR k, wR k)) →
  ∃ ct', for_each rev_step (ct, ss0) revs
         = Ok (ct', ss0 ++ ((fun kv => (kv.1, wR kv.1)) <$> revs))
    ∧ dict_keys ct' = dict_keys ct
    ∧ corr_rows (dict_keys revs ++ P) ct'.
Proof.
  revert P ct ss0.
  induction revs as [|[k v] revs IH]; intros P ct ss0 Hnd Hct Hrows Hkeys Hdec.
  - exists ct. by rewrite app_nil_r.
  - apply NoDup_cons in Hnd as [Hk Hnd].
    destruct (Hkeys k) as [Hin Hss]; [apply elem_of_cons; by left|].
    destruct (dict_get_is_Some k ct Hin) as [gs Hgs].
    rewrite for_each_cons, (rev_body_decorrelated _ _ _ _ _ Hgs).
    rewrite (Hdec k v), !bind_Ok by (apply elem_of_cons; by left).
    simpl fst. simpl snd.
    rewrite (dict_keys_set_new k (wR k) ss0) by done.
    destruct (IH (k :: P) (dict_set k (gs ++ [gR k]) ct) (ss0 ++ [(k, wR k)]))
      as (ct' & Hrun & Hkeys' & Hrows'); [done| | | | |].
    + by rewrite dict_keys_set.
    + by apply corr_rows_set.
    + intros k' Hk'. destruct (Hkeys k') as [Hin' Hss'].
      { apply elem_of_cons. by right. }
      rewrite dict_keys_set by done. split; [done|].
      unfold dict_keys in *. rewrite fmap_app, not_elem_of_app. simpl.
      rewrite list_elem_of_singleton. split; [done | by intros ->].
    + intros k' v' Hin'. apply Hdec. apply elem_of_cons. by right.
    + exists ct'. rewrite Hrun. split; [by rewrite fmap_cons, <- app_assoc|].
      split; [by rewrite Hkeys', dict_keys_set|].
      eapply corr_rows_weaken; [|exact Hrows'].
      intros k'. unfold dict_keys. simpl.
      rewrite !elem_of_app, !elem_of_cons, elem_of_app. tauto.
Qed.

Lemma prog_for_each_cons {S A} (body : S → A → prog S) s a l log :
  for_each body s (a :: l) log
  = match body s a log with
    | (log', Ok s') => for_each body s' l log'
    | (log', Raise e) => (log', Raise e)
    end.
Proof. reflexivity. Qed.

Lemma lift_bind {A B} (m : res A) (f : A → prog B) log :
  (lift m ≫= f) log
  = match m with Ok a => f a log | Raise e => (log, Raise e) end.
Proof. by destruct m. Qed.

Lemma bar_body_middle fwd_ss rev_ss pre_d post_d pre_s post_s x0 y0 bar
    kR w_F w_R dg sd j log :
  length pre_d = j → length pre_s = j →
  dict_get (Z.of_nat j) fwd_ss = Some w_F →
  dict_get kR rev_ss = Some w_R →
  BAR w_F w_R = Ok (dg, sd) →
  ∃ bar',
    bar_step fwd_ss rev_ss (pre_d ++ x0 :: post_d, pre_s ++ y0 :: post_s, bar)
      (Z.of_nat j, kR) log
    = (log ++ [(w_F, w_R)],
       Ok (pre_d ++ dg :: post_d, pre_s ++ sd :: post_s, bar')).
Proof.
  intros Hd Hs HF HR HB. eexists. unfold bar_body.
  rewrite lift_bind. unfold dict_item. rewrite HF. cbn [of_option].
  rewrite lift_bind, HR. cbn [of_option].
  unfold mbind at 1, prog_bind, call_BAR. rewrite HB.
  rewrite lift_bind, (np_set_middle _ _ _ _ _ Hd).
  rewrite lift_bind, (np_set_middle _ _ _ _ _ Hs).
  reflexivity.
Qed.

Lemma bar_loop fwd_ss rev_ss (kR : nat → Z) (wF' wR' : nat → list R)
    (dG sd : nat → R) (N : nat) :
  ∀ m j pre_d pre_s bar log,
    length pre_d = j → length pre_s = j → j + m ≤ N →
    (∀ i, j ≤ i < j + m →
       dict_get (Z.of_nat i) fwd_ss = Some (wF' i)
       ∧ dict_get (kR i) rev_ss = Some (wR' i)
       ∧ BAR (wF' i) (wR' i) = Ok (dG i, sd i)) →
    ∃ bar',
      for_each (bar_step fwd_ss rev_ss)
        (pre_d ++ np_zeros (N - j), pre_s ++ np_zeros (N - j), bar)
        ((fun i => (Z.of_nat i, kR i)) <$> seq j m) log
      = (log ++ ((fun i => (wF' i, wR' i)) <$> seq j m),
         Ok (pre_d ++ (dG <$> seq j m) ++ np_zeros (N - j - m),
             pre_s ++ (sd <$> seq j m) ++ np_zeros (N - j - m), bar')).
Proof.
  induction m as [|m IH]; intros j pre_d pre_s bar log Hd Hs Hle Hwin.
  - exists bar. cbn [seq fmap list_fmap app]. rewrite app_nil_r, Nat.sub_0_r.
    reflexivity.
  - destruct (Hwin j) as (HF & HR & HB); [lia|].
    replace (N - j) with (S (N - S j)) by lia.
    cbn [seq np_zeros replicate]. rewrite !fmap_cons, prog_for_each_cons.
    destruct (bar_body_middle fwd_ss rev_ss pre_d (np_zeros (N - S j))
                pre_s (np_zeros (N - S j)) 0%R 0%R bar (kR j) _ _ _ _ j log
                Hd Hs HF HR HB) as [bar1 Hstep].
    unfold np_zeros in Hstep |- *. rewrite Hstep.
    rewrite (cons_middle (dG j) pre_d), (cons_middle (sd j) pre_s), !app_assoc.
    destruct (IH (S j) (pre_d ++ [dG j]) (pre_s ++ [sd j]) bar1
                (log ++ [(wF' j, wR' j)])) as [bar' Hrun].
    + rewrite length_app. simpl. lia.
    + rewrite length_app. simpl. lia.
    + lia.
    + intros i Hi. apply Hwin. lia.
    + exists bar'. unfold np_zeros in Hrun. rewrite Hrun.
      replace (S (N - S j) - S m) with (N - S j - m) by lia.
      by rewrite <- !app_assoc.
Qed.

Lemma keys_seq_length {V} (d : pydict V) (n : nat) :
  dict_keys d ≡ₚ Z.of_nat <$> seq 0 n → length d = n ∧ NoDup (dict_keys d).
Proof.
  intros Hp. split.
  - apply Permutation_length in Hp. unfold dict_keys in Hp.
    by rewrite !length_fmap, length_seq in Hp.
  - rewrite Hp. apply NoDup_fmap_2; [apply Nat2Z.inj' | apply NoDup_seq].
Qed.

Lemma keys_seq_elem_of {V} (d : pydict V) (n i : nat) :
  dict_keys d ≡ₚ Z.of_nat <$> seq 0 n → i < n → Z.of_nat i ∈ dict_keys d.
Proof.
  intros Hp Hi. rewrite Hp. apply list_elem_of_fmap. exists i.
  split; [done|]. apply elem_of_seq. lia.
Qed.

Lemma bar_pairs_seq (fwd_ss rev_ss : pydict (list R)) (N M : nat) :
  dict_keys fwd_ss ≡ₚ Z.of_nat <$> seq 0 N →
  dict_keys rev_ss ≡ₚ Z.of_nat <$> seq 0 M →
  M ≤ N →
  bar_pairs fwd_ss rev_ss
  = (fun i => (Z.of_nat i, Z.of_nat (M - 1 - i))) <$> seq 0 M.
Proof.
  intros HF HR Hle. unfold bar_pairs.
  rewrite (sorted_seq _ _ HF), (sorted_reverse_seq _ _ HR), reverse_seq.
  rewrite <- list_fmap_compose. by apply zip_fmap_seq.
Qed.

(** The whole run, for forward windows keyed [0 .. N-1] and reverse
    windows keyed [0 .. M-1] with [M ≤ N], when pymbar raises nothing. *)
Lemma DoBAR_run fwds revs verbose log (N M : nat)
    (gF gR : Z → R) (wF wR : Z → list R) (dG sd : nat → R) :
  dict_keys fwds ≡ₚ Z.of_nat <$> seq 0 N →
  dict_keys revs ≡ₚ Z.of_nat <$> seq 0 M →
  M ≤ N → verbose = false ∨ M = N →
  (∀ k v, (k, v) ∈ fwds → decor v = Ok (gF k, wF k)) →
  (∀ k v, (k, v) ∈ revs → decor v = Ok (gR k, wR k)) →
  (∀ i, i < M →
     BAR (wF (Z.of_nat i)) (wR (Z.of_nat (M - 1 - i))) = Ok (dG i, sd i)) →
  run_DoBAR fwds revs verbose log
  = (log ++ ((fun i => (wF (Z.of_nat i), wR (Z.of_nat (M - 1 - i)))) <$> seq 0 M),
     Ok (Profile
           (running_sums 0 ((dG <$> seq 0 M) ++ np_zeros (N - M)))
           (running_stdevs 0 ((sd <$> seq 0 M) ++ np_zeros (N - M)))
           (np_sum ((dG <$> seq 0 M) ++ np_zeros (N - M)))
           (net_stdev ((sd <$> seq 0 M) ++ np_zeros (N - M))))).
Proof.
  intros HF HR Hle Hv HdF HdR HB.
  destruct (keys_seq_length _ _ HF) as [HlenF HndF].
  destruct (keys_seq_length _ _ HR) as [HlenR HndR].
  unfold DoBAR. rewrite HlenF.
  rewrite lift_bind, (fwd_loop fwds gF wF [] []); [|done| |done].
  2:{ intros k _. split; apply not_elem_of_nil. }
  cbn [app].
  destruct (rev_loop revs gR wR [] ((fun kv => (kv.1, [gF kv.1])) <$> fwds) [])
    as (ct' & Hrev & Hkeys' & Hrows'); [done| | | |done|].
  { by rewrite (dict_keys_fmap_key (fun k => [gF k])). }
  { apply Forall_fmap, Forall_forall. intros kv _. simpl. split; [lia|].
    intros Hin. by apply elem_of_nil in Hin. }
  { intros k Hk. split; [|apply not_elem_of_nil].
    rewrite (dict_keys_fmap_key (fun k => [gF k])), HF. rewrite HR in Hk.
    apply list_elem_of_fmap in Hk as (i & -> & Hi%elem_of_seq).
    apply list_elem_of_fmap. exists i. split; [done|]. apply elem_of_seq. lia. }
  rewrite lift_bind, Hrev. cbn [app].
  rewrite (bar_pairs_seq _ _ N M); [|by rewrite dict_keys_fmap_key ..|done].
  destruct (bar_loop ((fun kv => (kv.1, wF kv.1)) <$> fwds)
              ((fun kv => (kv.1, wR kv.1)) <$> revs)
              (fun i => Z.of_nat (M - 1 - i))
              (fun i => wF (Z.of_nat i)) (fun i => wR (Z.of_nat (M - 1 - i)))
              dG sd N M 0 [] [] [] log) as [bar' Hbar]; [done|done|lia| |].
  { intros i Hi. split; [|split].
    - apply dict_get_fmap_key. apply (keys_seq_elem_of _ N); [done | lia].
    - apply dict_get_fmap_key. apply (keys_seq_elem_of _ M); [done | lia].
    - apply HB. lia. }
  cbn [app] in Hbar. rewrite !Nat.sub_0_r in Hbar.
  unfold mbind at 1, prog_bind at 1. rewrite Hbar.
  assert (length ((dG <$> seq 0 M) ++ np_zeros (N - M)) = N) as HlenD.
  { rewrite length_app, length_fmap, length_seq. unfold np_zeros.
    rewrite length_replicate. lia. }
  assert (length ((sd <$> seq 0 M) ++ np_zeros (N - M)) = N) as HlenS.
  { rewrite length_app, length_fmap, length_seq. unfold np_zeros.
    rewrite length_replicate. lia. }
  rewrite lift_bind. rewrite <- HlenD at 3 4.
  rewrite accumulate_spec by congruence.
  rewrite lift_bind.
  assert ((if verbose then print_corr_time ct' else Ok tt) = Ok tt) as ->.
  { destruct Hv as [->| ->]; [done|]. destruct verbose; [|done].
    apply corr_rows_print. eapply corr_rows_weaken; [|exact Hrows'].
    intros k. rewrite Hkeys', (dict_keys_fmap_key (fun k => [gF k])), app_nil_r, HF, HR. done. }
  reflexivity.
Qed.

(** *** Runs that end in an exception before the estimator is called *)

Lemma for_each_raise {S A} (body : S → A → res S) (a : A) (l : list A) (s : S) :
  a ∈ l → (∀ s', ∃ e, body s' a = Raise e) → ∃ e, for_each body s l = Raise e.
Proof.
  intros Hin Hbody. revert s. induction l as [|x l IH]; intros s.
  - by apply elem_of_nil in Hin.
  - rewrite for_each_cons. destruct (body s x) as [s'|e] eqn:Hx; [|by eexists].
    apply elem_of_cons in Hin as [->|Hin].
    + destruct (Hbody s) as [e He]. congruence.
    + rewrite bind_Ok. by apply IH.
Qed.

Lemma fwd_body_raise st k v e :
  decor v = Raise e → ∃ e', fwd_step st (k, v) = Raise e'.
Proof.
  intros Hv. destruct st as [ct ss]. rewrite fwd_body_decorrelated, Hv.
  by eexists.
Qed.

Lemma rev_body_raise st k v e :
  decor v = Raise e → ∃ e', rev_step st (k, v) = Raise e'.
Proof.
  intros Hv. destruct st as [ct ss].
  destruct (dict_get k ct) as [gs|] eqn:Hk.
  - rewrite (rev_body_decorrelated _ _ _ _ _ Hk), Hv. by eexists.
  - apply rev_body_absent. by apply dict_get_None.
Qed.

Lemma rev_loop_absent revs ct ss k :
  k ∈ dict_keys revs → k ∉ dict_keys ct →
  ∃ e, for_each rev_step (ct, ss) revs = Raise e.
Proof.
  revert ct ss. induction revs as [|[k' v'] revs IH]; intros ct ss Hin Hct.
  - by apply elem_of_nil in Hin.
  - rewrite for_each_cons.
    destruct (rev_step (ct, ss) (k', v')) as [[ct1 ss1]|e] eqn:Hstep; [|by eexists].
    rewrite bind_Ok. unfold dict_keys in Hin. simpl in Hin.
    apply elem_of_cons in Hin as [->|Hin].
    + destruct (rev_body_absent ct ss k' v' Hct) as [e He]. congruence.
    + apply IH; [done|]. by rewrite (rev_body_keys _ _ _ _ _ Hstep).
Qed.

Lemma elem_of_dict_keys_set {V} (x k : Z) (v : V) (d : pydict V) :
  x ∈ dict_keys (dict_set k v d) → x = k ∨ x ∈ dict_keys d.
Proof.
  unfold dict_keys. induction d as [|[k' v'] d IH]; simpl.
  - intros ->%list_elem_of_singleton. by left.
  - destruct (decide (k = k')) as [->|Hne]; simpl.
    + intros [->|Hin]%elem_of_cons; [by left|]. right. apply elem_of_cons. by right.
    + intros [->|Hin]%elem_of_cons.
      * right. apply elem_of_cons. by left.
      * destruct (IH Hin) as [->|Hd]; [by left|]. right. apply elem_of_cons. by right.
Qed.

Lemma fwd_loop_keys fwds ct0 ss0 ct ss :
  for_each fwd_step (ct0, ss0) fwds = Ok (ct, ss) →
  ∀ k, k ∈ dict_keys ct → k ∈ dict_keys ct0 ∨ k ∈ dict_keys fwds.
Proof.
  revert ct0 ss0. induction fwds as [|[k' v'] fwds IH]; intros ct0 ss0 Hrun k Hk.
  - injection Hrun as <- <-. by left.
  - rewrite for_each_cons, fwd_body_decorrelated in Hrun.
    apply bind_Ok_inv in Hrun as ([ct1 ss1] & Hstep & Hrun).
    apply bind_Ok_inv in Hstep as (gw & _ & [= <- <-]).
    unfold dict_keys at 2. simpl. rewrite elem_of_cons.
    destruct (IH _ _ Hrun k Hk) as [Hin|Hin]; [|by right; right].
    apply elem_of_dict_keys_set in Hin as [->|Hin]; [right; by left | by left].
Qed.

Lemma DoBAR_decorrelation_raises fwds revs verbose log k v e :
  (k, v) ∈ fwds ∨ (k, v) ∈ revs → decor v = Raise e →
  ∃ e', run_DoBAR fwds revs verbose log = (log, Raise e').
Proof.
  intros Hin Hv. unfold DoBAR. rewrite lift_bind.
  destruct (for_each fwd_step ([], []) fwds) as [[ct fwd_ss]|e1] eqn:Hfwd;
    [|by eexists].
  destruct Hin as [Hin|Hin].
  - destruct (for_each_raise fwd_step (k, v) fwds ([], []) Hin) as [e' He'].
    + intros st. by eapply fwd_body_raise.
    + congruence.
  - rewrite lift_bind.
    destruct (for_each_raise rev_step (k, v) revs (ct, []) Hin) as [e' He'].
    + intros st. by eapply rev_body_raise.
    + rewrite He'. by eexists.
Qed.

Lemma DoBAR_absent_key fwds revs verbose log k :
  k ∈ dict_keys revs → k ∉ dict_keys fwds →
  ∃ e, run_DoBAR fwds revs verbose log = (log, Raise e).
Proof.
  intros Hrev Hfwd. unfold DoBAR. rewrite lift_bind.
  destruct (for_each fwd_step ([], []) fwds) as [[ct fwd_ss]|e1] eqn:Hrun;
    [|by eexists].
  rewrite lift_bind.
  destruct (rev_loop_absent revs ct [] k Hrev) as [e He].
  - intros Hk. destruct (fwd_loop_keys _ _ _ _ _ Hrun k Hk) as [Hnil|Hin]; [|done].
    by apply elem_of_nil in Hnil.
  - rewrite He. by eexists.
Qed.

(** *** The calls of the estimator, whatever it returns *)

Lemma bar_body_any fwd_ss rev_ss dg sd bar kR w_F w_R j log :
  j < length dg → j < length sd →
  dict_get (Z.of_nat j) fwd_ss = Some w_F →
  dict_get kR rev_ss = Some w_R →
  bar_step fwd_ss rev_ss (dg, sd, bar) (Z.of_nat j, kR) log
  = (log ++ [(w_F, w_R)],
     match BAR w_F w_R with
     | Ok (x, s) =>
         Ok (<[j:=x]> dg, <[j:=s]> sd,
             dict_set (Z.of_nat j) (np_sum (<[j:=x]> dg), x, s) bar)
     | Raise e => Raise e
     end).
Proof.
  intros Hd Hs HF HR. unfold bar_body.
  rewrite lift_bind. unfold dict_item. rewrite HF. cbn [of_option].
  rewrite lift_bind, HR. cbn [of_option].
  unfold mbind at 1, prog_bind, call_BAR.
  destruct (BAR w_F w_R) as [[x s]|e]; [|done].
  rewrite lift_bind, np_set_nat by done.
  by rewrite lift_bind, np_set_nat by done.
Qed.

(** Every pair is handed to the estimator as long as the estimator
    returned on the pairs before it. *)
Lemma bar_loop_any fwd_ss rev_ss (kR : nat → Z) (wF' wR' : nat → list R) (N : nat) :
  ∀ m j dg sd bar log,
    length dg = N → length sd = N → j + m ≤ N →
    (∀ i, j ≤ i < j + m →
       dict_get (Z.of_nat i) fwd_ss = Some (wF' i)
       ∧ dict_get (kR i) rev_ss = Some (wR' i)) →
    ∃ calls r,
      for_each (bar_step fwd_ss rev_ss) (dg, sd, bar)
        ((fun i => (Z.of_nat i, kR i)) <$> seq j m) log
      = (log ++ calls, r)
      ∧ ∀ i, j ≤ i < j + m →
          (∀ j', j ≤ j' < i → is_Ok (BAR (wF' j') (wR' j'))) →
          calls !! (i - j) = Some (wF' i, wR' i).
Proof.
  induction m as [|m IH]; intros j dg sd bar log Hd Hs Hle Hwin.
  - exists [], (Ok (dg, sd, bar)). rewrite app_nil_r. split; [done|]. intros i Hi. lia.
  - destruct (Hwin j) as [HF HR]; [lia|].
    cbn [seq]. rewrite fmap_cons, prog_for_each_cons.
    assert (j < length dg) as Hjd by lia.
    assert (j < length sd) as Hjs by lia.
    rewrite (bar_body_any _ _ _ _ _ _ _ _ _ _ Hjd Hjs HF HR).
    destruct (BAR (wF' j) (wR' j)) as [[x s]|e] eqn:HB.
    + destruct (IH (S j) (<[j:=x]> dg) (<[j:=s]> sd)
                  (dict_set (Z.of_nat j) (np_sum (<[j:=x]> dg), x, s) bar)
                  (log ++ [(wF' j, wR' j)])) as (calls & r & Hrun & Hcalls).
      * by rewrite length_insert.
      * by rewrite length_insert.
      * lia.
      * intros i Hi. apply Hwin. lia.
      * exists ((wF' j, wR' j) :: calls), r. split.
        { rewrite Hrun. by rewrite <- app_assoc. }
        intros i Hi Hbefore. destruct (decide (i = j)) as [->|Hne].
        { by rewrite Nat.sub_diag. }
        replace (i - j) with (S (i - S j)) by lia. cbn [lookup list_lookup].
        apply Hcalls; [lia|]. intros j' Hj'. apply Hbefore. lia.
    + exists [(wF' j, wR' j)], (Raise e). split; [done|].
      intros i Hi Hbefore. destruct (decide (i = j)) as [->|Hne].
      { by rewrite Nat.sub_diag. }
      destruct (Hbefore j) as [a Ha]; [lia|]. congruence.
Qed.

(** The calls of a run on windows keyed [0 .. N-1], when the decorrelation
    returns on every window and whatever the estimator does. *)
Lemma DoBAR_calls fwds revs verbose log (N : nat)
    (gF gR : Z → R) (wF wR : Z → list R) :
  dict_keys fwds ≡ₚ Z.of_nat <$> seq 0 N →
  dict_keys revs ≡ₚ Z.of_nat <$> seq 0 N →
  (∀ k v, (k, v) ∈ fwds → decor v = Ok (gF k, wF k)) →
  (∀ k v, (k, v) ∈ revs → decor v = Ok (gR k, wR k)) →
  ∃ calls r,
    run_DoBAR fwds revs verbose log = (log ++ calls, r)
    ∧ ∀ i, i < N →
        (∀ j, j < i →
           is_Ok (BAR (wF (Z.of_nat j)) (wR (Z.of_nat (N - 1 - j))))) →
        calls !! i = Some (wF (Z.of_nat i), wR (Z.of_nat (N - 1 - i))).
Proof.
  intros HF HR HdF HdR.
  destruct (keys_seq_length _ _ HF) as [HlenF HndF].
  destruct (keys_seq_length _ _ HR) as [HlenR HndR].
  unfold DoBAR. rewrite HlenF.
  rewrite lift_bind, (fwd_loop fwds gF wF [] []); [|done| |done].
  2:{ intros k _. split; apply not_elem_of_nil. }
  cbn [app].
  destruct (rev_loop revs gR wR [] ((fun kv => (kv.1, [gF kv.1])) <$> fwds) [])
    as (ct' & Hrev & _ & _); [done| | | |done|].
  { by rewrite (dict_keys_fmap_key (fun k => [gF k])). }
  { apply Forall_fmap, Forall_forall. intros kv _. simpl. split; [lia|].
    intros Hin. by apply elem_of_nil in Hin. }
  { intros k Hk. split; [|apply not_elem_of_nil].
    by rewrite (dict_keys_fmap_key (fun k => [gF k])), HF, <- HR. }
  rewrite lift_bind, Hrev. cbn [app].
  rewrite (bar_pairs_seq _ _ N N); [|by rewrite dict_keys_fmap_key ..|done].
  destruct (bar_loop_any ((fun kv => (kv.1, wF kv.1)) <$> fwds)
              ((fun kv => (kv.1, wR kv.1)) <$> revs)
              (fun i => Z.of_nat (N - 1 - i))
              (fun i => wF (Z.of_nat i)) (fun i => wR (Z.of_nat (N - 1 - i)))
              N N 0 (np_zeros N) (np_zeros N) [] log)
    as (calls & r & Hbar & Hcalls).
  { apply length_replicate. }
  { apply length_replicate. }
  { lia. }
  { intros i Hi. split.
    - apply dict_get_fmap_key. apply (keys_seq_elem_of _ N); [done | lia].
    - apply dict_get_fmap_key. apply (keys_seq_elem_of _ N); [done | lia]. }
  assert (∀ i, i < N →
            (∀ j, j < i →
               is_Ok (BAR (wF (Z.of_nat j)) (wR (Z.of_nat (N - 1 - j))))) →
            calls !! i = Some (wF (Z.of_nat i), wR (Z.of_nat (N - 1 - i)))) as Hall.
  { intros i Hi Hbefore. rewrite <- (Nat.sub_0_r i) at 1.
    apply Hcalls; [lia|]. intros j' Hj'. apply Hbefore. lia. }
  unfold mbind at 1, prog_bind at 1. rewrite Hbar.
  destruct r as [[[dg sd] bar]|e]; [|by exists calls, (Raise e)].
  rewrite lift_bind.
  destruct (accumulate dg sd (np_zeros N) (np_zeros N)) as [[[[d1 s1] n1] n2]|e];
    [|by exists calls, (Raise e)].
  rewrite lift_bind.
  destruct (if verbose then print_corr_time ct' else Ok tt) as [[]|e];
    [|by exists calls, (Raise e)].
  eexists calls, _. split; [reflexivity | exact Hall].
Qed.

End EstimatorFacts.

(** ** The recurrences of the accumulation loop *)

Lemma running_stdevs_recurrence (sd : list R) (i : nat) (sigma : R) :
  sd !! i = Some sigma →
  running_stdevs 0 sd !! i
  = Some (sqrt (sigma ^ 2 + previous (running_stdevs 0 sd) i ^ 2)).
Proof. intros Hs. rewrite (running_stdevs_lookup _ _ _ _ Hs). by destruct i. Qed.

Lemma running_stdevs_monotone (sd : list R) (i : nat) (c : R) :
  running_stdevs 0 sd !! i = Some c → (previous (running_stdevs 0 sd) i <= c)%R.
Proof.
  intros Hc. destruct (lookup_lt_is_Some_2 sd i) as [sigma Hs].
  { apply lookup_lt_Some in Hc. by rewrite length_running_stdevs in Hc. }
  rewrite (running_stdevs_recurrence _ _ _ Hs) in Hc. injection Hc as <-.
  apply sqrt_sq_sum_ge.
Qed.

Lemma final_stdev_net (sd : list R) : final_stdev 0 sd = net_stdev sd.
Proof. rewrite final_stdev_sum by lra. unfold net_stdev. f_equal. lra. Qed.

(** The loop on arbitrary arrays of one length: it raises nothing, and
    [gsdlist] obeys the recurrence, never decreases and ends in the net
    standard deviation. *)
Lemma accumulate_uncertainty (dg_bar gsd_bar : list R) :
  length gsd_bar = length dg_bar →
  ∃ dgs gsdlist net netsd,
    accumulate dg_bar gsd_bar (np_zeros (length dg_bar)) (np_zeros (length dg_bar))
    = Ok (dgs, gsdlist, net, netsd)
    ∧ length gsdlist = length gsd_bar
    ∧ (∀ i sigma, gsd_bar !! i = Some sigma →
         gsdlist !! i = Some (sqrt (sigma ^ 2 + previous gsdlist i ^ 2)))
    ∧ (∀ i c, gsdlist !! i = Some c → (previous gsdlist i <= c)%R)
    ∧ netsd = net_stdev gsd_bar
    ∧ (gsd_bar ≠ [] → last gsdlist = Some (net_stdev gsd_bar)).
Proof.
  intros Hlen. rewrite accumulate_spec by done.
  eexists _, _, _, _. split; [reflexivity|].
  split; [apply length_running_stdevs|].
  split; [apply running_stdevs_recurrence|].
  split; [apply running_stdevs_monotone|].
  split; [apply final_stdev_net|].
  intros Hne. rewrite <- final_stdev_net. by apply running_stdevs_last.
Qed.

(** ** Claims about the pairwise estimator *)

(** The stand-ins on the demonstration windows. *)
Lemma decorrelated_stand_in (v : list R) :
  decorrelated no_correlation keep_all v = Ok (1%R, v).
Proof.
  unfold decorrelated, no_correlation, keep_all. rewrite !bind_Ok.
  by rewrite np_take_keep_all.
Qed.

Lemma demo_decorrelated (d : pydict (list R)) (k : Z) (v : list R) :
  NoDup (dict_keys d) → (k, v) ∈ d →
  decorrelated no_correlation keep_all v = Ok ((fun _ => 1%R) k, demo_series d k).
Proof.
  intros Hnd Hin. unfold demo_series.
  by rewrite (dict_get_elem_of _ _ _ Hnd Hin), decorrelated_stand_in.
Qed.

Lemma demo_keys_NoDup : NoDup (dict_keys demo_fwds) ∧ NoDup (dict_keys demo_revs).
Proof. split; apply (bool_decide_unpack _); reflexivity. Qed.

Section PairedWindows.

Variable statisticalInefficiency : list R → res R.
Variable subsampleCorrelatedData : list R → R → res (list Z).
Variable BAR : list R → list R → res (R * R).

(** [N] forward and [N] reverse windows keyed [0 .. N-1] ... *)
Variables (fwds revs : pydict (list R)) (N : nat).
Hypothesis fwd_keys : dict_keys fwds ≡ₚ Z.of_nat <$> seq 0 N.
Hypothesis rev_keys : dict_keys revs ≡ₚ Z.of_nat <$> seq 0 N.

(** ... on which pymbar raises nothing: [wF k] and [wR k] are the
    subsampled series of forward and reverse window [k], and [est i j] is
    what the estimator returns on forward window [i] and reverse window
    [j]. *)
Variables (gF gR : Z → R) (wF wR : Z → list R) (est : nat → nat → R * R).
Hypothesis fwd_decorrelated : ∀ k v, (k, v) ∈ fwds →
  decorrelated statisticalInefficiency subsampleCorrelatedData v = Ok (gF k, wF k).
Hypothesis rev_decorrelated : ∀ k v, (k, v) ∈ revs →
  decorrelated statisticalInefficiency subsampleCorrelatedData v = Ok (gR k, wR k).
Hypothesis BAR_returns : ∀ i j, i < N → j < N →
  BAR (wF (Z.of_nat i)) (wR (Z.of_nat j)) = Ok (est i j).

Lemma DoBAR_paired verbose log :
  DoBAR statisticalInefficiency subsampleCorrelatedData BAR fwds revs verbose log
  = (log ++ ((fun i => (wF (Z.of_nat i), wR (Z.of_nat (N - 1 - i)))) <$> seq 0 N),
     Ok (Profile
           (running_sums 0 ((fun i => (est i (N - 1 - i)).1) <$> seq 0 N))
           (running_stdevs 0 ((fun i => (est i (N - 1 - i)).2) <$> seq 0 N))
           (np_sum ((fun i => (est i (N - 1 - i)).1) <$> seq 0 N))
           (net_stdev ((fun i => (est i (N - 1 - i)).2) <$> seq 0 N)))).
Proof.
  rewrite (DoBAR_run _ _ _ fwds revs verbose log N N gF gR wF wR
             (fun i => (est i (N - 1 - i)).1) (fun i => (est i (N - 1 - i)).2));
    try done.
  - by rewrite Nat.sub_diag, !app_nil_r.
  - by right.
  - intros i Hi. rewrite BAR_returns by lia. by destruct (est i (N - 1 - i)).
Qed.

(** C1: the estimator is invoked once per window, in forward-ascending
    order, on forward window [i] and reverse window [N-1-i]; so forward 0
    meets reverse [N-1] and forward [N-1] meets reverse 0. *)
Theorem windows_paired_in_reverse (verbose : bool) (log : list call) :
  ∃ calls p,
    DoBAR statisticalInefficiency subsampleCorrelatedData BAR fwds revs verbose log
    = (log ++ calls, Ok p)
    ∧ calls = (fun i => (wF (Z.of_nat i), wR (Z.of_nat (N - 1 - i)))) <$> seq 0 N
    ∧ (∀ fwd_ss rev_ss : pydict (list R),
         dict_keys fwd_ss = dict_keys fwds → dict_keys rev_ss = dict_keys revs →
         bar_pairs fwd_ss rev_ss
         = (fun i => (Z.of_nat i, Z.of_nat (N - 1 - i))) <$> seq 0 N)
    ∧ (0 < N →
       calls !! 0 = Some (wF 0%Z, wR (Z.of_nat (N - 1)))
       ∧ calls !! (N - 1) = Some (wF (Z.of_nat (N - 1)), wR 0%Z)).
Proof.
  eexists _, _. split; [apply DoBAR_paired|]. split; [reflexivity|]. split.
  - intros fwd_ss rev_ss HF HR. apply (bar_pairs_seq fwd_ss rev_ss N N); [by rewrite HF | by rewrite HR | done].
  - intros HN. rewrite !list_lookup_fmap.
    rewrite !lookup_seq_lt by lia. simpl.
    rewrite Nat.sub_0_r. by replace (N - 1 - (N - 1)) with 0 by lia.
Qed.

(** C3: the returned profile has one entry per window and its [i]-th
    entry is the sum of the estimates of the window pairs [0 .. i]. *)
Theorem cumulative_profile_is_prefix_sum (verbose : bool) (log : list call) :
  ∃ calls p,
    DoBAR statisticalInefficiency subsampleCorrelatedData BAR fwds revs verbose log
    = (log ++ calls, Ok p)
    ∧ length (dgs p) = N
    ∧ length fwds = N
    ∧ ∀ i, i < N →
        dgs p !! i = Some (np_sum ((fun j => (est j (N - 1 - j)).1) <$> seq 0 (S i))).
Proof.
  eexists _, _. split; [apply DoBAR_paired|]. cbn [dgs].
  split; [by rewrite length_running_sums, length_fmap, length_seq|].
  split; [by apply (keys_seq_length fwds N)|].
  intros i Hi. rewrite running_sums_lookup by (by rewrite length_fmap, length_seq).
  rewrite <- fmap_take, take_seq, Rplus_0_r.
  by replace (S i `min` N) with (S i) by lia.
Qed.

(** C9: the reverse argument of every estimator call is exactly the
    subsampled reverse series [value[indices]]: its samples are samples of
    the reverse window, unchanged, and the whole series when every index
    is kept. *)
Theorem reverse_series_passed_unchanged (verbose : bool) (log : list call) :
  ∃ calls p,
    DoBAR statisticalInefficiency subsampleCorrelatedData BAR fwds revs verbose log
    = (log ++ calls, Ok p)
    ∧ length calls = N
    ∧ ∀ i, i < N →
        ∃ w_F w_R value g indices,
          calls !! i = Some (w_F, w_R)
          ∧ (Z.of_nat (N - 1 - i), value) ∈ revs
          ∧ statisticalInefficiency value = Ok g
          ∧ subsampleCorrelatedData value g = Ok indices
          ∧ np_take value indices = Ok w_R
          ∧ (∀ x, x ∈ w_R → x ∈ value)
          ∧ (indices = Z.of_nat <$> seq 0 (length value) → w_R = value).
Proof.
  eexists _, _. split; [apply DoBAR_paired|].
  split; [by rewrite length_fmap, length_seq|].
  intros i Hi.
  assert (Z.of_nat (N - 1 - i) ∈ dict_keys revs) as Hkey.
  { rewrite rev_keys. apply list_elem_of_fmap. eexists. split; [done|].
    apply elem_of_seq. lia. }
  apply list_elem_of_fmap in Hkey as ([k value] & Hk & Hin). simpl in Hk. subst k.
  destruct (decorrelated_inv _ _ _ _ _ (rev_decorrelated _ _ Hin))
    as (Hg & indices & Hix & Htake).
  exists (wF (Z.of_nat i)), (wR (Z.of_nat (N - 1 - i))), value,
    (gR (Z.of_nat (N - 1 - i))), indices.
  split; [|repeat split; try done].
  - rewrite list_lookup_fmap, lookup_seq_lt by lia. reflexivity.
  - by apply (np_take_elem_of value indices).
  - intros ->. rewrite np_take_keep_all in Htake. by injection Htake.
Qed.

(** C2: the cumulative uncertainty returned by DoBAR obeys
    [gsdlist_i = sqrt (sigma_i^2 + gsdlist_(i-1)^2)] with 0 before the first
    window, [sigma_i] being the estimator's uncertainty for window pair [i];
    hence it never decreases.  The loop does so on any array of
    uncertainties. *)
Theorem cumulative_uncertainty_recurrence (verbose : bool) (log : list call) :
  (∃ calls p,
     DoBAR statisticalInefficiency subsampleCorrelatedData BAR fwds revs verbose log
     = (log ++ calls, Ok p)
     ∧ length (gsdlist p) = N
     ∧ (∀ i, i < N →
          gsdlist p !! i
          = Some (sqrt ((est i (N - 1 - i)).2 ^ 2 + previous (gsdlist p) i ^ 2)))
     ∧ (∀ i c, gsdlist p !! i = Some c → (previous (gsdlist p) i <= c)%R))
  ∧ (∀ dg_bar gsd_bar : list R,
       length gsd_bar = length dg_bar →
       ∃ dgs gsdlist net netsd,
         accumulate dg_bar gsd_bar (np_zeros (length dg_bar)) (np_zeros (length dg_bar))
         = Ok (dgs, gsdlist, net, netsd)
         ∧ (∀ i sigma, gsd_bar !! i = Some sigma →
              gsdlist !! i = Some (sqrt (sigma ^ 2 + previous gsdlist i ^ 2)))
         ∧ (∀ i c, gsdlist !! i = Some c → (previous gsdlist i <= c)%R)).
Proof.
  split.
  - eexists _, _. split; [apply DoBAR_paired|]. cbn [gsdlist].
    split; [by rewrite length_running_stdevs, length_fmap, length_seq|].
    split; [|apply running_stdevs_monotone].
    intros i Hi. apply running_stdevs_recurrence.
    by rewrite list_lookup_fmap, lookup_seq_lt.
  - intros dg_bar gsd_bar Hlen.
    destruct (accumulate_uncertainty dg_bar gsd_bar Hlen)
      as (d & g & net & netsd & Hrun & _ & Hrec & Hmono & _).
    by exists d, g, net, netsd.
Qed.

(** C4: the net uncertainty of the summary line, computed as
    [sqrt (sum sigma_i^2)], is the last entry of the cumulative uncertainty
    sequence DoBAR returns.  The loop ends in the net standard deviation of
    any non-empty array of uncertainties. *)
Theorem net_uncertainty_is_last_cumulative (verbose : bool) (log : list call) :
  0 < N →
  (∃ calls p,
     DoBAR statisticalInefficiency subsampleCorrelatedData BAR fwds revs verbose log
     = (log ++ calls, Ok p)
     ∧ net_gsd p
       = sqrt (np_sum ((fun i => ((est i (N - 1 - i)).2 ^ 2)%R) <$> seq 0 N))
     ∧ last (gsdlist p) = Some (net_gsd p)
     ∧ gsdlist p !! (N - 1) = Some (net_gsd p))
  ∧ (∀ dg_bar gsd_bar : list R,
       length gsd_bar = length dg_bar → gsd_bar ≠ [] →
       ∃ dgs gsdlist net netsd,
         accumulate dg_bar gsd_bar (np_zeros (length dg_bar)) (np_zeros (length dg_bar))
         = Ok (dgs, gsdlist, net, netsd)
         ∧ last gsdlist = Some (net_stdev gsd_bar)
         ∧ netsd = net_stdev gsd_bar).
Proof.
  intros HN. split.
  - eexists _, _. split; [apply DoBAR_paired|]. cbn [gsdlist net_gsd].
    assert ((fun i => (est i (N - 1 - i)).2) <$> seq 0 N ≠ []) as Hne.
    { destruct N; [lia | done]. }
    split; [unfold net_stdev; by rewrite <- list_fmap_compose|].
    assert (last (running_stdevs 0 ((fun i => (est i (N - 1 - i)).2) <$> seq 0 N))
            = Some (net_stdev ((fun i => (est i (N - 1 - i)).2) <$> seq 0 N)))
      as Hlast.
    { rewrite <- final_stdev_net. by apply running_stdevs_last. }
    split; [exact Hlast|].
    rewrite last_lookup, length_running_stdevs, length_fmap, length_seq in Hlast.
    by replace (pred N) with (N - 1) in Hlast by lia.
  - intros dg_bar gsd_bar Hlen Hne.
    destruct (accumulate_uncertainty dg_bar gsd_bar Hlen)
      as (d & g & net & netsd & Hrun & _ & _ & _ & Hnet & Hlast).
    exists d, g, net, netsd. split; [done|]. split; [by apply Hlast | done].
Qed.

End PairedWindows.

Lemma demo_keys : dict_keys demo_fwds ≡ₚ Z.of_nat <$> seq 0 2
                  ∧ dict_keys demo_revs ≡ₚ Z.of_nat <$> seq 0 2.
Proof. split; reflexivity. Qed.

Lemma demo_BAR_returns (i j : nat) :
  sum_difference (demo_series demo_fwds (Z.of_nat i))
                 (demo_series demo_revs (Z.of_nat j)) = Ok (demo_estimate i j).
Proof. reflexivity. Qed.

Lemma windows_paired_in_reverse_witness :
  ∃ p, DoBAR no_correlation keep_all sum_difference demo_fwds demo_revs true []
       = ([([1; 2], [5; 6]); ([3], [4])]%R, Ok p).
Proof.
  destruct (windows_paired_in_reverse no_correlation keep_all sum_difference
              demo_fwds demo_revs 2 (proj1 demo_keys) (proj2 demo_keys)
              (fun _ => 1%R) (fun _ => 1%R)
              (demo_series demo_fwds) (demo_series demo_revs) demo_estimate
              (fun k v => demo_decorrelated demo_fwds k v (proj1 demo_keys_NoDup))
              (fun k v => demo_decorrelated demo_revs k v (proj2 demo_keys_NoDup))
              (fun i j _ _ => demo_BAR_returns i j) true [])
    as (calls & p & Hrun & -> & _).
  exists p. exact Hrun.
Defined.

Lemma cumulative_profile_is_prefix_sum_witness :
  ∃ calls p,
    DoBAR no_correlation keep_all sum_difference demo_fwds demo_revs false []
    = (calls, Ok p)
    ∧ length (dgs p) = 2
    ∧ dgs p !! 1 = Some (np_sum [(demo_estimate 0 1).1; (demo_estimate 1 0).1]).
Proof.
  destruct (cumulative_profile_is_prefix_sum no_correlation keep_all sum_difference
              demo_fwds demo_revs 2 (proj1 demo_keys) (proj2 demo_keys)
              (fun _ => 1%R) (fun _ => 1%R)
              (demo_series demo_fwds) (demo_series demo_revs) demo_estimate
              (fun k v => demo_decorrelated demo_fwds k v (proj1 demo_keys_NoDup))
              (fun k v => demo_decorrelated demo_revs k v (proj2 demo_keys_NoDup))
              (fun i j _ _ => demo_BAR_returns i j) false [])
    as (calls & p & Hrun & Hlen & _ & Hsum).
  exists calls, p. split; [exact Hrun|]. split; [exact Hlen|].
  apply (Hsum 1). lia.
Defined.

Lemma reverse_series_passed_unchanged_witness :
  ∃ calls p,
    DoBAR no_correlation keep_all sum_difference demo_fwds demo_revs false []
    = (calls, Ok p)
    ∧ ∃ w_F, calls !! 0 = Some (w_F, [5; 6]%R).
Proof.
  destruct (reverse_series_passed_unchanged no_correlation keep_all sum_difference
              demo_fwds demo_revs 2 (proj1 demo_keys) (proj2 demo_keys)
              (fun _ => 1%R) (fun _ => 1%R)
              (demo_series demo_fwds) (demo_series demo_revs) demo_estimate
              (fun k v => demo_decorrelated demo_fwds k v (proj1 demo_keys_NoDup))
              (fun k v => demo_decorrelated demo_revs k v (proj2 demo_keys_NoDup))
              (fun i j _ _ => demo_BAR_returns i j) false [])
    as (calls & p & Hrun & _ & Hcalls).
  exists calls, p. split; [exact Hrun|].
  destruct (Hcalls 0) as (w_F & w_R & value & g & indices & Hcall & Hin & _ & Hix & Htake & _);
    [lia|].
  exists w_F. rewrite Hcall. do 2 f_equal.
  injection Hix as <-. rewrite np_take_keep_all in Htake. injection Htake as <-.
  apply (dict_get_elem_of _ _ _ (proj2 demo_keys_NoDup)) in Hin.
  by injection Hin.
Defined.

Lemma cumulative_uncertainty_recurrence_witness :
  ∃ calls p,
    DoBAR no_correlation keep_all sum_difference demo_fwds demo_revs false []
    = (calls, Ok p)
    ∧ length (gsdlist p) = 2
    ∧ gsdlist p !! 1
      = Some (sqrt ((demo_estimate 1 0).2 ^ 2 + previous (gsdlist p) 1 ^ 2)).
Proof.
  destruct (cumulative_uncertainty_recurrence no_correlation keep_all sum_difference
              demo_fwds demo_revs 2 (proj1 demo_keys) (proj2 demo_keys)
              (fun _ => 1%R) (fun _ => 1%R)
              (demo_series demo_fwds) (demo_series demo_revs) demo_estimate
              (fun k v => demo_decorrelated demo_fwds k v (proj1 demo_keys_NoDup))
              (fun k v => demo_decorrelated demo_revs k v (proj2 demo_keys_NoDup))
              (fun i j _ _ => demo_BAR_returns i j) false [])
    as [(calls & p & Hrun & Hlen & Hrec & _) _].
  exists calls, p. split; [exact Hrun|]. split; [exact Hlen|].
  apply (Hrec 1). lia.
Defined.

Lemma net_uncertainty_is_last_cumulative_witness :
  ∃ calls p,
    DoBAR no_correlation keep_all sum_difference demo_fwds demo_revs false []
    = (calls, Ok p)
    ∧ last (gsdlist p) = Some (net_gsd p).
Proof.
  destruct (net_uncertainty_is_last_cumulative no_correlation keep_all sum_difference
              demo_fwds demo_revs 2 (proj1 demo_keys) (proj2 demo_keys)
              (fun _ => 1%R) (fun _ => 1%R)
              (demo_series demo_fwds) (demo_series demo_revs) demo_estimate
              (fun k v => demo_decorrelated demo_fwds k v (proj1 demo_keys_NoDup))
              (fun k v => demo_decorrelated demo_revs k v (proj2 demo_keys_NoDup))
              (fun i j _ _ => demo_BAR_returns i j) false [])
    as [(calls & p & Hrun & _ & Hlast & _) _]; [lia|].
  exists calls, p. split; [exact Hrun | exact Hlast].
Defined.

Lemma np_sum_app (a b : list R) : np_sum (a ++ b) = (np_sum a + np_sum b)%R.
Proof. induction a as [|x a IH]; simpl; [lra | rewrite IH; lra]. Qed.

Lemma np_sum_zeros (n : nat) : np_sum (replicate n 0%R) = 0%R.
Proof.
  induction n as [|n IH]; [done|].
  change (np_sum (replicate (S n) 0%R)) with (0 + np_sum (replicate n 0%R))%R.
  rewrite IH. lra.
Qed.

(** C5, as stated, fails: with two forward windows and one reverse window
    nothing is raised; the estimator is called on the one pair left by [zip]
    and a two-entry profile is returned. *)
Lemma fewer_reverse_windows_not_rejected :
  ∃ p, DoBAR no_correlation keep_all sum_difference
         demo_fwds [(0%Z, [4%R])] false []
       = ([([1; 2], [4])]%R, Ok p)
    ∧ length (dgs p) = 2.
Proof.
  eexists. split; [cbv -[Rplus Rminus Rmult sqrt IZR pow]|]; reflexivity.
Qed.

(** C5 (amended): a surplus of reverse windows ends the run with an
    exception before the estimator is called.  A surplus of forward
    windows is not checked: with [verbose] off, the [M] reverse windows are
    paired with the forward windows [0 .. M-1] and the profile of [N]
    entries stays flat over the unmatched windows. *)
Theorem window_count_mismatch
    (statisticalInefficiency : list R → res R)
    (subsampleCorrelatedData : list R → R → res (list Z))
    (BAR : list R → list R → res (R * R))
    (fwds revs : pydict (list R)) (verbose : bool) (log : list call) (N M : nat)
    (gF gR : Z → R) (wF wR : Z → list R) (dG sd : nat → R) :
  dict_keys fwds ≡ₚ Z.of_nat <$> seq 0 N →
  dict_keys revs ≡ₚ Z.of_nat <$> seq 0 M →
  (N < M →
   ∃ e, DoBAR statisticalInefficiency subsampleCorrelatedData BAR
          fwds revs verbose log = (log, Raise e))
  ∧ (M < N → verbose = false →
     (∀ k v, (k, v) ∈ fwds →
        decorrelated statisticalInefficiency subsampleCorrelatedData v
        = Ok (gF k, wF k)) →
     (∀ k v, (k, v) ∈ revs →
        decorrelated statisticalInefficiency subsampleCorrelatedData v
        = Ok (gR k, wR k)) →
     (∀ i, i < M →
        BAR (wF (Z.of_nat i)) (wR (Z.of_nat (M - 1 - i))) = Ok (dG i, sd i)) →
     ∃ p, DoBAR statisticalInefficiency subsampleCorrelatedData BAR
            fwds revs verbose log
          = (log ++ ((fun i => (wF (Z.of_nat i), wR (Z.of_nat (M - 1 - i))))
                       <$> seq 0 M), Ok p)
       ∧ length (dgs p) = N
       ∧ ∀ i, M ≤ i < N → dgs p !! i = Some (np_sum (dG <$> seq 0 M))).
Proof.
  intros HF HR. split.
  - intros Hlt. apply (DoBAR_absent_key _ _ _ _ _ _ _ (Z.of_nat N)).
    + rewrite HR. apply list_elem_of_fmap. exists N. split; [done|].
      apply elem_of_seq. lia.
    + rewrite HF. intros (i & Hi%Nat2Z.inj & Hin%elem_of_seq)%list_elem_of_fmap. lia.
  - intros Hlt -> HdF HdR HB.
    rewrite (DoBAR_run _ _ _ fwds revs false log N M gF gR wF wR dG sd);
      [|done|done|lia|by left|done..].
    eexists. split; [reflexivity|]. cbn [dgs].
    assert (length ((dG <$> seq 0 M) ++ np_zeros (N - M)) = N) as Hlen.
    { rewrite length_app, length_fmap, length_seq. unfold np_zeros.
      rewrite length_replicate. lia. }
    split; [by rewrite length_running_sums|].
    intros i Hi. rewrite running_sums_lookup by lia.
    rewrite take_app_ge by (rewrite length_fmap, length_seq; lia).
    unfold np_zeros at 1. rewrite take_replicate.
    rewrite np_sum_app, np_sum_zeros. f_equal. lra.
Qed.

Lemma window_count_mismatch_witness :
  ∃ e, DoBAR no_correlation keep_all sum_difference
         [(0%Z, [1%R])] demo_revs true [] = ([], Raise e).
Proof.
  destruct (window_count_mismatch no_correlation keep_all sum_difference
              [(0%Z, [1%R])] demo_revs true [] 1 2
              (fun _ => 1%R) (fun _ => 1%R) (fun _ => []) (fun _ => [])
              (fun _ => 0%R) (fun _ => 0%R))
    as [Hsurplus _].
  - reflexivity.
  - reflexivity.
  - apply Hsurplus. lia.
Defined.

(** C6, as stated, fails: DoBAR holds no sample-count check, so when the
    pymbar routines return on an empty series, the empty series goes on to
    the estimator and a profile is returned. *)
Lemma empty_series_reaches_estimator :
  ∃ p, DoBAR no_correlation keep_all sum_difference
         [(0%Z, [])] [(0%Z, [])] false []
       = ([([], [])], Ok p).
Proof. eexists. cbv -[Rplus Rminus Rmult sqrt IZR pow]. reflexivity. Qed.

(** C6 (amended): the decorrelation step signals an error for a window
    only by passing on what the pymbar routines or [value[indices]] raise
    on its series, and the run then ends before the estimator is called;
    when they return, both loop bodies store the subsampled series,
    whatever its length, and the series is handed to the estimator: on
    windows keyed [0 .. N-1], call [i] of the estimator receives the
    subsampled series of forward window [i] and of reverse window
    [N - 1 - i], empty or not, unless the estimator itself raised on an
    earlier pair. *)
Theorem decorrelation_error_ends_run
    (statisticalInefficiency : list R → res R)
    (subsampleCorrelatedData : list R → R → res (list Z))
    (BAR : list R → list R → res (R * R))
    (fwds revs : pydict (list R)) (verbose : bool) (log : list call)
    (k : Z) (value : list R) :
  (k, value) ∈ fwds ∨ (k, value) ∈ revs →
  (∀ e, decorrelated statisticalInefficiency subsampleCorrelatedData value = Raise e →
     ∃ e', DoBAR statisticalInefficiency subsampleCorrelatedData BAR
             fwds revs verbose log = (log, Raise e'))
  ∧ (∀ g w corr_time fwd_ss,
       decorrelated statisticalInefficiency subsampleCorrelatedData value = Ok (g, w) →
       fwd_body statisticalInefficiency subsampleCorrelatedData
         (corr_time, fwd_ss) (k, value)
       = Ok (dict_set k [g] corr_time, dict_set k w fwd_ss))
  ∧ (∀ g w gs corr_time rev_ss,
       decorrelated statisticalInefficiency subsampleCorrelatedData value = Ok (g, w) →
       dict_get k corr_time = Some gs →
       rev_body statisticalInefficiency subsampleCorrelatedData
         (corr_time, rev_ss) (k, value)
       = Ok (dict_set k (gs ++ [g]) corr_time, dict_set k w rev_ss))
  ∧ (∀ (N : nat) (gF gR : Z → R) (wF wR : Z → list R),
       dict_keys fwds ≡ₚ Z.of_nat <$> seq 0 N →
       dict_keys revs ≡ₚ Z.of_nat <$> seq 0 N →
       (∀ k' v, (k', v) ∈ fwds →
          decorrelated statisticalInefficiency subsampleCorrelatedData v
          = Ok (gF k', wF k')) →
       (∀ k' v, (k', v) ∈ revs →
          decorrelated statisticalInefficiency subsampleCorrelatedData v
          = Ok (gR k', wR k')) →
       ∃ calls r,
         DoBAR statisticalInefficiency subsampleCorrelatedData BAR
           fwds revs verbose log = (log ++ calls, r)
         ∧ ∀ i, i < N →
             (∀ j, j < i →
                is_Ok (BAR (wF (Z.of_nat j)) (wR (Z.of_nat (N - 1 - j))))) →
             calls !! i = Some (wF (Z.of_nat i), wR (Z.of_nat (N - 1 - i)))).
Proof.
  intros Hin. split; [|split; [|split]].
  - intros e He. by eapply DoBAR_decorrelation_raises.
  - intros g w ct ss Hv. by rewrite fwd_body_decorrelated, Hv.
  - intros g w gs ct ss Hv Hk.
    by rewrite (rev_body_decorrelated _ _ _ _ _ _ _ Hk), Hv.
  - intros N gF gR wF wR HF HR HdF HdR. by eapply DoBAR_calls.
Qed.

Lemma decorrelation_error_ends_run_witness :
  (∃ e', DoBAR needs_two_samples keep_all sum_difference
           demo_fwds [(0%Z, [4%R]); (1%Z, [])] false [] = ([], Raise e'))
  ∧ (∃ calls r,
       DoBAR no_correlation keep_all sum_difference
         [(0%Z, [])] [(0%Z, [])] false [] = ([] ++ calls, r)
       ∧ calls !! 0%nat = Some ([], [])).
Proof.
  split.
  - destruct (decorrelation_error_ends_run needs_two_samples keep_all sum_difference
                demo_fwds [(0%Z, [4%R]); (1%Z, [])] false [] 1%Z [])
      as [Hraise _].
    + right. apply elem_of_cons. right. apply elem_of_cons. by left.
    + apply (Hraise LibraryError). reflexivity.
  - destruct (decorrelation_error_ends_run no_correlation keep_all sum_difference
                [(0%Z, [])] [(0%Z, [])] false [] 0%Z [])
      as (_ & _ & _ & Hcalls).
    + left. apply elem_of_cons. by left.
    + destruct (Hcalls 1%nat (fun _ => 1%R) (fun _ => 1%R)
                  (demo_series [(0%Z, [])]) (demo_series [(0%Z, [])]))
        as (calls & r & Hrun & Hcall).
      * reflexivity.
      * reflexivity.
      * intros k' v Hv. apply demo_decorrelated; [|exact Hv].
        apply (bool_decide_unpack _). reflexivity.
      * intros k' v Hv. apply demo_decorrelated; [|exact Hv].
        apply (bool_decide_unpack _). reflexivity.
      * exists calls, r. split; [exact Hrun|].
        apply (Hcall 0%nat); [lia|]. intros j Hj. lia.
Defined.

(** * Further properties *)

(** ** The parser: malformed lines, aligned channels, concatenated streams *)

Section ParserMore.

Variable float : string → res R.

Lemma sample_short_line (l : list string) :
  length l ≤ 6 → sample float l = Raise IndexError.
Proof.
  intros Hlen. unfold sample, column.
  by rewrite (lookup_ge_None_2 l 6) by lia.
Qed.

(** X1: a line of fewer than seven tokens (a blank line, say) that is met
    while samples are collected makes ParseFEP raise IndexError, whatever
    follows it. *)
Theorem short_line_while_collecting_raises
    (pre rest : list string) (line : string) (st : scan_state) :
  scan float scan_init pre = Ok st →
  parsing st = true →
  is_summary line = false →
  length (split line) ≤ 6 →
  ParseFEP float (pre ++ line :: rest) = Raise IndexError.
Proof.
  intros Hpre Hp Hline Hlen. unfold ParseFEP.
  rewrite scan_app, Hpre, bind_Ok, scan_cons, step_other, Hp by done.
  by rewrite sample_short_line.
Qed.

Lemma same_shape_set (k : Z) (v1 v2 : list R) (d1 d2 : pydict (list R)) :
  same_shape d1 d2 → length v1 = length v2 →
  same_shape (dict_set k v1 d1) (dict_set k v2 d2).
Proof.
  intros Hd Hv. induction Hd as [|[k1 w1] [k2 w2] d1 d2 [Hk Hw] Hd IH]; simpl in *.
  - by repeat constructor.
  - subst k2. destruct (decide (k = k1)); constructor; done.
Qed.

Lemma step_aligned st line st' :
  aligned st → step float st line = Ok st' → aligned st'.
Proof.
  intros (H1 & H2 & H3 & L1 & L2 & L3) Hstep.
  destruct (is_summary line) eqn:Hsum.
  - rewrite step_summary in Hstep by done. injection Hstep as <-.
    unfold aligned; simpl. repeat split; try done; by apply same_shape_set.
  - rewrite step_other in Hstep by done. destruct (parsing st).
    + apply bind_Ok_inv in Hstep as (s & _ & [= <-]).
      unfold aligned; simpl. rewrite !length_app. simpl.
      repeat split; try done; lia.
    + injection Hstep as <-. by repeat split.
Qed.

Lemma scan_aligned st data st' :
  aligned st → scan float st data = Ok st' → aligned st'.
Proof.
  revert st. induction data as [|line data IH]; intros st Hst Hscan.
  - by injection Hscan as <-.
  - rewrite scan_cons in Hscan. apply bind_Ok_inv in Hscan as (st1 & Hstep & Hscan).
    eapply IH; [|exact Hscan]. by eapply step_aligned.
Qed.

(** X2: whenever ParseFEP returns, its four sample dictionaries list the
    same windows in the same order and hold, for every window, the same
    number of samples; the labels have the same keys. *)
Theorem channels_aligned (data : list string)
    (dEs dGs elecs vdws : pydict (list R)) (labels : pydict string) :
  ParseFEP float data = Ok (dEs, dGs, elecs, vdws, labels) →
  same_shape dEs dGs ∧ same_shape dEs elecs ∧ same_shape dEs vdws
  ∧ dict_keys labels = dict_keys dEs.
Proof.
  unfold ParseFEP. intros Hdata.
  apply bind_Ok_inv in Hdata as (st & Hscan & [= <- <- <- <- <-]).
  assert (aligned scan_init) as Hinit by (repeat split; constructor).
  destruct (scan_aligned _ _ _ Hinit Hscan) as (H1 & H2 & H3 & _).
  destruct (scan_keyed float 0 _ _ _ keyed_init Hscan) as (_ & K1 & _ & _ & _ & K5).
  repeat split; try done. by rewrite K1, K5.
Qed.

Lemma dict_set_shift {V} (n j : Z) (v : V) (D E : pydict V) :
  Forall (fun k => k < n)%Z (dict_keys D) → (0 ≤ j)%Z →
  dict_set (j + n) v (D ++ shift_keys n E) = D ++ shift_keys n (dict_set j v E).
Proof.
  intros HD Hj. unfold dict_keys in HD.
  induction D as [|[k w] D IH]; simpl.
  - clear HD. induction E as [|[k w] E IHE]; simpl; [done|].
    destruct (decide (j = k)) as [->|Hne].
    + by rewrite decide_True.
    + rewrite decide_False by lia. simpl. f_equal. apply IHE.
  - apply Forall_cons in HD as [Hk HD]. simpl in Hk.
    rewrite decide_False by lia. f_equal. by apply IH.
Qed.

Lemma step_rebase base st0 line :
  keyed (Z.to_nat (cur_i base)) base → (0 ≤ cur_i base)%Z → (0 ≤ cur_i st0)%Z →
  step float (rebase base st0) line
  = (step float st0 line ≫= fun st0' => Ok (rebase base st0')).
Proof.
  intros (_ & K1 & K2 & K3 & K4 & K5) Hn Hi.
  assert (∀ V (d : pydict V), dict_keys d = Z.of_nat <$> seq 0 (Z.to_nat (cur_i base)) →
            Forall (fun k => k < cur_i base)%Z (dict_keys d)) as Hlt.
  { intros V d ->. apply Forall_fmap, Forall_forall. intros i Hin%elem_of_seq.
    simpl. lia. }
  destruct (is_summary line) eqn:Hsum.
  - rewrite !step_summary, bind_Ok by done. f_equal.
    unfold rebase, seal, set_parsing; simpl.
    rewrite !dict_set_shift by auto. f_equal. lia.
  - rewrite !step_other by done. simpl.
    destruct (parsing st0); [|done].
    by destruct (sample float (split line)).
Qed.

Lemma step_index_nonneg st line st' :
  (0 ≤ cur_i st)%Z → step float st line = Ok st' → (0 ≤ cur_i st')%Z.
Proof.
  intros Hi Hstep. destruct (is_summary line) eqn:Hsum.
  - rewrite step_summary in Hstep by done. injection Hstep as <-. simpl. lia.
  - rewrite step_other in Hstep by done. destruct (parsing st).
    + by apply bind_Ok_inv in Hstep as (s & _ & [= <-]).
    + by injection Hstep as <-.
Qed.

Lemma scan_rebase base st0 data :
  keyed (Z.to_nat (cur_i base)) base → (0 ≤ cur_i base)%Z → (0 ≤ cur_i st0)%Z →
  scan float (rebase base st0) data
  = (scan float st0 data ≫= fun st0' => Ok (rebase base st0')).
Proof.
  intros Hk Hn. revert st0. induction data as [|line data IH]; intros st0 Hi.
  - reflexivity.
  - rewrite !scan_cons, step_rebase by done.
    destruct (step float st0 line) as [st1|e] eqn:Hstep; [|done].
    rewrite !bind_Ok. apply IH. by eapply step_index_nonneg.
Qed.

(** X3: a stream that ends with a summary line (without begin marker)
    can be followed by a second stream: ParseFEP of the two in a row yields
    the windows of the first and then those of the second, numbered on
    from the window count of the first; an exception of the second alone is
    the exception of the whole. *)
Theorem windows_of_concatenated_streams (pre : list string) (fl : string)
    (data2 : list string)
    (dEs dGs elecs vdws : pydict (list R)) (labels : pydict string) :
  is_summary fl = true → has "#STARTING" (split fl) = false →
  ParseFEP float (pre ++ [fl]) = Ok (dEs, dGs, elecs, vdws, labels) →
  ParseFEP float ((pre ++ [fl]) ++ data2)
  = match ParseFEP float data2 with
    | Ok (dEs2, dGs2, elecs2, vdws2, labels2) =>
        let n := Z.of_nat (count_windows (pre ++ [fl])) in
        Ok (dEs ++ shift_keys n dEs2, dGs ++ shift_keys n dGs2,
            elecs ++ shift_keys n elecs2, vdws ++ shift_keys n vdws2,
            labels ++ shift_keys n labels2)
    | Raise e => Raise e
    end.
Proof.
  intros Hfl Hstart Hfirst. unfold ParseFEP in *.
  apply bind_Ok_inv in Hfirst as (st1 & Hscan & [= <- <- <- <- <-]).
  pose proof (scan_keyed float 0 _ _ _ keyed_init Hscan) as Hkeyed.
  rewrite Nat.add_0_r in Hkeyed. pose proof Hkeyed as (Hi & _).
  rewrite (scan_app _ _ (pre ++ [fl])), Hscan, bind_Ok.
  rewrite scan_app in Hscan. apply bind_Ok_inv in Hscan as (st0 & _ & Hlast).
  rewrite scan_cons, step_summary, Hstart in Hlast by done.
  injection Hlast as Hst1.
  assert (st1 = rebase st1 scan_init) as ->.
  { rewrite <- Hst1. unfold rebase, shift_keys; simpl. by rewrite !app_nil_r. }
  rewrite scan_rebase; [| |lia|done].
  2:{ by rewrite Hi, Nat2Z.id. }
  destruct (scan float scan_init data2) as [st2|e]; [|reflexivity].
  rewrite !bind_Ok. unfold rebase; simpl. by rewrite Hi, !app_nil_r.
Qed.

End ParserMore.

Lemma short_line_while_collecting_raises_witness :
  ParseFEP float_int (["#STARTING"; "a b 1 2 3 4 5 c d 6"] ++ "1 2 3" :: ["#Free"])
  = Raise IndexError.
Proof.
  eapply (short_line_while_collecting_raises float_int
            ["#STARTING"; "a b 1 2 3 4 5 c d 6"] ["#Free"] "1 2 3").
  - reflexivity.
  - reflexivity.
  - reflexivity.
  - simpl. lia.
Defined.

Lemma channels_aligned_witness :
  same_shape [(0%Z, [5%R])] [(0%Z, [6%R])].
Proof.
  destruct (channels_aligned float_int
              ["#STARTING"; "a b 1 2 3 4 5 c d 6"; "#Free e c f l w [ 0 1 ]"]
              [(0%Z, [5%R])] [(0%Z, [6%R])] [(0%Z, [(2 - 1)%R])]
              [(0%Z, [(4 - 3)%R])] [(0%Z, "[ 0 1 ]")]) as [Hshape _].
  - reflexivity.
  - exact Hshape.
Defined.

Lemma windows_of_concatenated_streams_witness :
  ParseFEP float_int
    ((["#STARTING"; "a b 1 2 3 4 5 c d 6"] ++ ["#Free e c f l w [ 0 1 ]"])
     ++ ["#STARTING"; "a b 1 2 3 4 7 c d 8"; "#Free e c f l w [ 1 2 ]"])
  = Ok ([(0, [5%R]); (1, [7%R])], [(0, [6%R]); (1, [8%R])],
        [(0, [(2 - 1)%R]); (1, [(2 - 1)%R])], [(0, [(4 - 3)%R]); (1, [(4 - 3)%R])],
        [(0, "[ 0 1 ]"); (1, "[ 1 2 ]")])%Z.
Proof.
  rewrite (windows_of_concatenated_streams float_int
             ["#STARTING"; "a b 1 2 3 4 5 c d 6"] "#Free e c f l w [ 0 1 ]"
             ["#STARTING"; "a b 1 2 3 4 7 c d 8"; "#Free e c f l w [ 1 2 ]"]
             [(0%Z, [5%R])] [(0%Z, [6%R])] [(0%Z, [(2 - 1)%R])]
             [(0%Z, [(4 - 3)%R])] [(0%Z, "[ 0 1 ]")]); reflexivity.
Defined.

(** ** The estimator: shapes, the verbose table, the net free energy *)

Lemma dict_get_set_other {V} (k j : Z) (v : V) (d : pydict V) :
  j ≠ k → dict_get j (dict_set k v d) = dict_get j d.
Proof.
  intros Hne. induction d as [|[k' v'] d IH]; simpl.
  - by rewrite decide_False.
  - destruct (decide (k = k')) as [->|]; simpl.
    + by rewrite !decide_False.
    + destruct (decide (j = k')); [done | apply IH].
Qed.

Lemma np_set_length (a a' : list R) (k : Z) (v : R) :
  np_set a k v = Ok a' → length a' = length a.
Proof.
  unfold np_set. intros H. apply bind_Ok_inv in H as (j & _ & [= <-]).
  apply length_insert.
Qed.

Lemma print_short_row (ct : pydict (list R)) (k : Z) (row : list R) :
  (k, row) ∈ ct → length row < 2 → print_corr_time ct = Raise IndexError.
Proof.
  unfold print_corr_time. intros Hin Hlen.
  induction ct as [|[k' v] ct IH]; [by apply elem_of_nil in Hin|].
  rewrite for_each_cons. simpl.
  destruct v as [|g0 [|g1 v]]; [done..|]. simpl.
  apply elem_of_cons in Hin as [[= -> ->]|Hin]; [simpl in Hlen; lia | by apply IH].
Qed.

Lemma prog_bind_eq {A B} (m : prog A) (f : A → prog B) (log : list call) :
  (m ≫= f) log
  = match m log with
    | (log', Ok a) => f a log'
    | (log', Raise e) => (log', Raise e)
    end.
Proof. reflexivity. Qed.

Section EstimatorMore.

Variable statisticalInefficiency : list R → res R.
Variable subsampleCorrelatedData : list R → R → res (list Z).
Variable BAR : list R → list R → res (R * R).

Local Abbreviation decor' :=
  (decorrelated statisticalInefficiency subsampleCorrelatedData).
Local Abbreviation fwd_step' :=
  (fwd_body statisticalInefficiency subsampleCorrelatedData).
Local Abbreviation rev_step' :=
  (rev_body statisticalInefficiency subsampleCorrelatedData).
Local Abbreviation run' :=
  (DoBAR statisticalInefficiency subsampleCorrelatedData BAR).

Lemma bar_body_lengths fwd_ss rev_ss dg sd bar p log log' dg' sd' bar' :
  bar_body BAR fwd_ss rev_ss (dg, sd, bar) p log = (log', Ok (dg', sd', bar')) →
  length dg' = length dg ∧ length sd' = length sd.
Proof.
  destruct p as [kF kR]. unfold bar_body.
  rewrite lift_bind. destruct (dict_item kF fwd_ss) as [w_F|]; [|done].
  rewrite lift_bind. destruct (dict_item kR rev_ss) as [w_R|]; [|done].
  unfold mbind at 1, prog_bind, call_BAR.
  destruct (BAR w_F w_R) as [[x s]|]; [|done].
  rewrite lift_bind. destruct (np_set dg kF x) as [dg1|] eqn:Hd; [|done].
  rewrite lift_bind. destruct (np_set sd kF s) as [sd1|] eqn:Hs; [|done].
  intros [= _ <- <- _]. split; by eapply np_set_length.
Qed.

Lemma bar_loop_lengths fwd_ss rev_ss pairs dg sd bar log log' dg' sd' bar' :
  for_each (bar_body BAR fwd_ss rev_ss) (dg, sd, bar) pairs log
  = (log', Ok (dg', sd', bar')) →
  length dg' = length dg ∧ length sd' = length sd.
Proof.
  revert dg sd bar log. induction pairs as [|p pairs IH]; intros dg sd bar log.
  - by intros [= _ <- <- _].
  - rewrite prog_for_each_cons.
    destruct (bar_body BAR fwd_ss rev_ss (dg, sd, bar) p log)
      as [log1 [[[dg1 sd1] bar1]|e]] eqn:Hstep; [|done].
    intros Hrest. apply bar_body_lengths in Hstep as [Hd Hs].
    apply IH in Hrest as [Hd' Hs']. split; congruence.
Qed.

(** X4: whenever DoBAR returns, both returned arrays have exactly as many
    entries as there are forward windows, whatever the keys and the number
    of reverse windows. *)
Theorem profile_has_one_entry_per_forward_window
    (fwds revs : pydict (list R)) (verbose : bool) (log log' : list call)
    (p : profile) :
  run' fwds revs verbose log = (log', Ok p) →
  length (dgs p) = length fwds ∧ length (gsdlist p) = length fwds.
Proof.
  unfold DoBAR. rewrite lift_bind.
  destruct (for_each fwd_step' ([], []) fwds) as [[ct fwd_ss]|]; [|done].
  rewrite lift_bind.
  destruct (for_each rev_step' (ct, []) revs) as [[ct' rev_ss]|]; [|done].
  unfold mbind at 1, prog_bind at 1.
  destruct (for_each (bar_body BAR fwd_ss rev_ss) _ _ log)
    as [log1 [[[dg sd] bar]|e]] eqn:Hbar; [|done].
  apply bar_loop_lengths in Hbar as [Hd Hs].
  unfold np_zeros in Hd, Hs. rewrite length_replicate in Hd, Hs.
  rewrite lift_bind. rewrite <- Hd at 1 2.
  rewrite accumulate_spec by congruence.
  rewrite lift_bind.
  destruct (if verbose then print_corr_time ct' else Ok ()); [|done].
  intros [= _ <-]. simpl.
  by rewrite length_running_sums, length_running_stdevs, Hd, Hs.
Qed.

(** The table [corr_time] the two subsampling loops build. *)
Lemma rev_loop_untouched revs ct ss ct' ss' k :
  for_each rev_step' (ct, ss) revs = Ok (ct', ss') →
  k ∉ dict_keys revs → dict_get k ct' = dict_get k ct.
Proof.
  revert ct ss. induction revs as [|[k' v] revs IH]; intros ct ss Hrun Hk.
  - by injection Hrun as <- <-.
  - rewrite for_each_cons in Hrun.
    apply bind_Ok_inv in Hrun as ([ct1 ss1] & Hstep & Hrun).
    unfold dict_keys in Hk. simpl in Hk. apply not_elem_of_cons in Hk as [Hne Hk].
    rewrite (IH _ _ Hrun Hk).
    destruct (dict_get k' ct) as [gs|] eqn:Hget.
    + rewrite (rev_body_decorrelated _ _ _ _ _ _ _ Hget) in Hstep.
      apply bind_Ok_inv in Hstep as (gw & _ & [= <- _]).
      by apply dict_get_set_other.
    + apply dict_get_None in Hget.
      destruct (rev_body_absent statisticalInefficiency subsampleCorrelatedData
                  ct ss k' v Hget) as [e He]. congruence.
Qed.

(** With [verbose] on, the run is the run with [verbose] off followed by
    the reads of the correlation-time table. *)
Lemma DoBAR_verbose fwds revs log :
  run' fwds revs true log
  = match run' fwds revs false log with
    | (log', Ok p) =>
        (log',
         '(ct, _) ← for_each fwd_step' ([], []) fwds;
         '(ct', _) ← for_each rev_step' (ct, []) revs;
         _ ← print_corr_time ct'; Ok p)
    | (log', Raise e) => (log', Raise e)
    end.
Proof.
  unfold DoBAR. rewrite !lift_bind.
  destruct (for_each fwd_step' ([], []) fwds) as [[ct fwd_ss]|]; [|done].
  rewrite !lift_bind. cbn [mbind res_bind].
  destruct (for_each rev_step' (ct, []) revs) as [[ct' rev_ss]|]; [|done].
  remember (for_each (bar_body BAR fwd_ss rev_ss)
              (np_zeros (length fwds), np_zeros (length fwds), [])
              (bar_pairs fwd_ss rev_ss)) as loop eqn:Hloop.
  rewrite !(prog_bind_eq loop).
  destruct (loop log) as [log1 [[[dg sd] bar]|e]]; [|done].
  rewrite !lift_bind.
  destruct (accumulate dg sd _ _) as [[[[d g] net] netsd]|]; [|done].
  rewrite !lift_bind. unfold mret, prog_ret. cbn [mbind res_bind].
  by destruct (print_corr_time ct').
Qed.

(** X5: with [verbose] on and fewer reverse than forward windows, the
    estimator is still invoked on the [M] pairs left by [zip], and only
    then the correlation-time table raises IndexError on the first forward
    window without reverse partner: the profile is lost. *)
Theorem verbose_table_raises_after_estimation
    (fwds revs : pydict (list R)) (log : list call) (N M : nat)
    (gF gR : Z → R) (wF wR : Z → list R) (dG sd : nat → R) :
  dict_keys fwds ≡ₚ Z.of_nat <$> seq 0 N →
  dict_keys revs ≡ₚ Z.of_nat <$> seq 0 M →
  M < N →
  (∀ k v, (k, v) ∈ fwds → decor' v = Ok (gF k, wF k)) →
  (∀ k v, (k, v) ∈ revs → decor' v = Ok (gR k, wR k)) →
  (∀ i, i < M →
     BAR (wF (Z.of_nat i)) (wR (Z.of_nat (M - 1 - i))) = Ok (dG i, sd i)) →
  run' fwds revs true log
  = (log ++ ((fun i => (wF (Z.of_nat i), wR (Z.of_nat (M - 1 - i)))) <$> seq 0 M),
     Raise IndexError).
Proof.
  intros HF HR Hlt HdF HdR HB.
  destruct (keys_seq_length _ _ HF) as [HlenF HndF].
  destruct (keys_seq_length _ _ HR) as [HlenR HndR].
  rewrite DoBAR_verbose.
  rewrite (DoBAR_run _ _ _ fwds revs false log N M gF gR wF wR dG sd);
    [|done|done|lia|by left|done..].
  f_equal.
  rewrite (fwd_loop _ _ fwds gF wF [] []); [|done| |done].
  2:{ intros k _. split; apply not_elem_of_nil. }
  cbn [app]. rewrite bind_Ok.
  destruct (for_each rev_step' ((fun kv => (kv.1, [gF kv.1])) <$> fwds, []) revs)
    as [[ct' rev_ss]|e] eqn:Hrev.
  - rewrite bind_Ok.
    assert (dict_get (Z.of_nat M) ct' = Some [gF (Z.of_nat M)]) as Hrow.
    { rewrite (rev_loop_untouched _ _ _ _ _ (Z.of_nat M) Hrev).
      - apply (dict_get_fmap_key (fun k => [gF k])).
        by apply (keys_seq_elem_of _ N).
      - rewrite HR. intros (i & Hi%Nat2Z.inj & Hin%elem_of_seq)%list_elem_of_fmap.
        lia. }
    apply dict_get_Some_elem_of in Hrow.
    by rewrite (print_short_row _ _ _ Hrow) by (simpl; lia).
  - exfalso.
    destruct (rev_loop statisticalInefficiency subsampleCorrelatedData BAR revs gR wR [] ((fun kv => (kv.1, [gF kv.1])) <$> fwds) [])
      as (ct' & Hrun & _); [done| | | |done|congruence].
    + by rewrite (dict_keys_fmap_key (fun k => [gF k])).
    + apply Forall_fmap, Forall_forall. intros kv _. simpl. split; [lia|].
      intros Hin. by apply elem_of_nil in Hin.
    + intros k Hk. split; [|apply not_elem_of_nil].
      rewrite (dict_keys_fmap_key (fun k => [gF k])), HF. rewrite HR in Hk.
      apply list_elem_of_fmap in Hk as (i & -> & Hi%elem_of_seq).
      apply list_elem_of_fmap. exists i. split; [done|]. apply elem_of_seq. lia.
Qed.

(** X6: with no forward window the estimator is never invoked: DoBAR
    returns the empty profile with net 0 and uncertainty 0 when there is no
    reverse window either, and raises otherwise. *)
Theorem no_forward_window (revs : pydict (list R)) (verbose : bool)
    (log : list call) :
  ∃ r, run' [] revs verbose log = (log, r)
    ∧ (revs = [] → r = Ok (Profile [] [] 0 0))
    ∧ (revs ≠ [] → ∃ e, r = Raise e).
Proof.
  destruct revs as [|[k v] revs].
  - eexists. split; [|split; [intros _|done]].
    + unfold DoBAR. simpl. destruct verbose; reflexivity.
    + unfold net_stdev. simpl. by rewrite sqrt_0.
  - destruct (DoBAR_absent_key statisticalInefficiency subsampleCorrelatedData BAR
                [] ((k, v) :: revs) verbose log k) as [e He].
    + apply elem_of_cons. by left.
    + apply not_elem_of_nil.
    + exists (Raise e). split; [done|]. split; [done | eauto].
Qed.

End EstimatorMore.

Lemma profile_has_one_entry_per_forward_window_witness :
  ∃ p, DoBAR no_correlation keep_all sum_difference
         demo_fwds [(0%Z, [4%R])] false [] = ([([1; 2], [4])]%R, Ok p)
    ∧ length (dgs p) = 2 ∧ length (gsdlist p) = 2.
Proof.
  eassert (DoBAR no_correlation keep_all sum_difference
             demo_fwds [(0%Z, [4%R])] false [] = (_, Ok _)) as Hrun.
  { cbv -[Rplus Rminus Rmult sqrt IZR pow]. reflexivity. }
  eexists. split; [exact Hrun|].
  exact (profile_has_one_entry_per_forward_window _ _ _ _ _ _ _ _ _ Hrun).
Defined.

Lemma verbose_table_raises_after_estimation_witness :
  DoBAR no_correlation keep_all sum_difference demo_fwds [(0%Z, [4%R])] true []
  = ([([1; 2], [4])]%R, Raise IndexError).
Proof.
  apply (verbose_table_raises_after_estimation no_correlation keep_all sum_difference
           demo_fwds [(0%Z, [4%R])] [] 2 1
           (fun _ => 1%R) (fun _ => 1%R)
           (demo_series demo_fwds) (demo_series [(0%Z, [4%R])])
           (fun i => (np_sum (demo_series demo_fwds (Z.of_nat i))
                      - np_sum (demo_series [(0%Z, [4%R])] (Z.of_nat (1 - 1 - i))))%R)
           (fun _ => 1%R)).
  - reflexivity.
  - reflexivity.
  - lia.
  - intros k v. apply demo_decorrelated, demo_keys_NoDup.
  - intros k v. apply demo_decorrelated. apply (bool_decide_unpack _). reflexivity.
  - reflexivity.
Defined.

Section PairedWindowsMore.

Variable statisticalInefficiency : list R → res R.
Variable subsampleCorrelatedData : list R → R → res (list Z).
Variable BAR : list R → list R → res (R * R).
Variables (fwds revs : pydict (list R)) (N : nat).
Hypothesis fwd_keys : dict_keys fwds ≡ₚ Z.of_nat <$> seq 0 N.
Hypothesis rev_keys : dict_keys revs ≡ₚ Z.of_nat <$> seq 0 N.
Variables (gF gR : Z → R) (wF wR : Z → list R) (est : nat → nat → R * R).
Hypothesis fwd_decorrelated : ∀ k v, (k, v) ∈ fwds →
  decorrelated statisticalInefficiency subsampleCorrelatedData v = Ok (gF k, wF k).
Hypothesis rev_decorrelated : ∀ k v, (k, v) ∈ revs →
  decorrelated statisticalInefficiency subsampleCorrelatedData v = Ok (gR k, wR k).
Hypothesis BAR_returns : ∀ i j, i < N → j < N →
  BAR (wF (Z.of_nat i)) (wR (Z.of_nat j)) = Ok (est i j).

(** X7: the net free energy of the summary line, [np.sum(dg_bar)], is the
    last entry of the cumulative profile DoBAR returns (over the reals). *)
Theorem net_free_energy_is_last_cumulative (verbose : bool) (log : list call) :
  0 < N →
  ∃ calls p,
    DoBAR statisticalInefficiency subsampleCorrelatedData BAR fwds revs verbose log
    = (log ++ calls, Ok p)
    ∧ net_dG p = np_sum ((fun i => (est i (N - 1 - i)).1) <$> seq 0 N)
    ∧ last (dgs p) = Some (net_dG p).
Proof.
  intros HN. eexists _, _. split.
  { apply (DoBAR_paired statisticalInefficiency subsampleCorrelatedData BAR
             fwds revs N fwd_keys rev_keys gF gR wF wR est
             fwd_decorrelated rev_decorrelated BAR_returns). }
  cbn [net_dG dgs]. split; [reflexivity|].
  rewrite last_lookup, length_running_sums, length_fmap, length_seq.
  rewrite running_sums_lookup by (rewrite length_fmap, length_seq; lia).
  rewrite take_ge by (rewrite length_fmap, length_seq; lia).
  f_equal. lra.
Qed.

End PairedWindowsMore.

Lemma net_free_energy_is_last_cumulative_witness :
  ∃ calls p,
    DoBAR no_correlation keep_all sum_difference demo_fwds demo_revs false []
    = (calls, Ok p)
    ∧ last (dgs p) = Some (net_dG p).
Proof.
  destruct (net_free_energy_is_last_cumulative no_correlation keep_all sum_difference
              demo_fwds demo_revs 2 (proj1 demo_keys) (proj2 demo_keys)
              (fun _ => 1%R) (fun _ => 1%R)
              (demo_series demo_fwds) (demo_series demo_revs) demo_estimate
              (fun k v => demo_decorrelated demo_fwds k v (proj1 demo_keys_NoDup))
              (fun k v => demo_decorrelated demo_revs k v (proj2 demo_keys_NoDup))
              (fun i j _ _ => demo_BAR_returns i j) false [])
    as (calls & p & Hrun & _ & Hlast); [lia|].
  exists calls, p. split; [exact Hrun | exact Hlast].
Defined.
(** ** The BAR analysis of [main] on parsed streams *)

Section AnalysisFacts.

Variable float : string → res R.
Variable statisticalInefficiency : list R → res R.
Variable subsampleCorrelatedData : list R → R → res (list Z).
Variable BAR : list R → list R → res (R * R).

Local Abbreviation decor3 :=
  (decorrelated statisticalInefficiency subsampleCorrelatedData).
Local Abbreviation sub3 :=
  (subsampled_of statisticalInefficiency subsampleCorrelatedData).

(** One channel: pymbar raising nothing on the windows of the two
    dictionaries and on the pairs of the run. *)
Lemma DoBAR_total (fwds revs : pydict (list R)) (N : nat) :
  dict_keys fwds ≡ₚ Z.of_nat <$> seq 0 N →
  dict_keys revs ≡ₚ Z.of_nat <$> seq 0 N →
  (∀ k v, (k, v) ∈ fwds ∨ (k, v) ∈ revs → is_Ok (decor3 v)) →
  (∀ i, i < N →
     is_Ok (BAR (sub3 fwds (Z.of_nat i)) (sub3 revs (Z.of_nat (N - 1 - i))))) →
  ∃ calls p,
    length calls = N ∧ length (dgs p) = N ∧ length (gsdlist p) = N
    ∧ ∀ verbose log,
        DoBAR statisticalInefficiency subsampleCorrelatedData BAR fwds revs verbose log
        = (log ++ calls, Ok p).
Proof.
  intros HF HR Hdec HB.
  destruct (keys_seq_length _ _ HF) as [_ HndF].
  destruct (keys_seq_length _ _ HR) as [_ HndR].
  assert (∀ d k v, NoDup (dict_keys d) → (k, v) ∈ d → is_Ok (decor3 v) →
            decor3 v
            = Ok (inefficiency_of statisticalInefficiency subsampleCorrelatedData d k,
                  sub3 d k)) as Hwin.
  { intros d k v Hnd Hin [[g w] Hv]. unfold inefficiency_of, subsampled_of, series_of.
    rewrite (dict_get_elem_of _ _ _ Hnd Hin). simpl. by rewrite Hv. }
  pose proof (fun verbose log =>
    DoBAR_run statisticalInefficiency subsampleCorrelatedData BAR
      fwds revs verbose log N N
      (inefficiency_of statisticalInefficiency subsampleCorrelatedData fwds)
      (inefficiency_of statisticalInefficiency subsampleCorrelatedData revs)
      (sub3 fwds) (sub3 revs)
      (fun i => (estimate_of statisticalInefficiency subsampleCorrelatedData BAR
                   fwds revs N i).1)
      (fun i => (estimate_of statisticalInefficiency subsampleCorrelatedData BAR
                   fwds revs N i).2) HF HR (le_n N) (or_intror eq_refl)) as Hrun.
  eexists _, _. split; [|split; [|split]]; [| | |intros verbose log; apply Hrun].
  - by rewrite length_fmap, length_seq.
  - cbn [dgs]. rewrite length_running_sums, length_app, length_fmap, length_seq.
    unfold np_zeros. rewrite length_replicate. lia.
  - cbn [gsdlist]. rewrite length_running_stdevs, length_app, length_fmap, length_seq.
    unfold np_zeros. rewrite length_replicate. lia.
  - intros k v Hin. apply (Hwin fwds); [done..|]. apply (Hdec k). by left.
  - intros k v Hin. apply (Hwin revs); [done..|]. apply (Hdec k). by right.
  - intros i Hi. unfold estimate_of. destruct (HB i Hi) as [[x s] ->]. done.
Qed.

Lemma fill_row_returns (r n : nat) (fwds revs : pydict (list R)) (verbose : bool)
    (alls sds : list (list R)) (log calls : list call) (p : profile) :
  DoBAR statisticalInefficiency subsampleCorrelatedData BAR fwds revs verbose log
  = (log ++ calls, Ok p) →
  length (dgs p) = n → length (gsdlist p) = n →
  fill_row statisticalInefficiency subsampleCorrelatedData BAR
    r n fwds revs verbose (alls, sds) log
  = (log ++ calls, Ok (<[r:=dgs p]> alls, <[r:=gsdlist p]> sds)).
Proof.
  intros Hrun Hd Hs. unfold fill_row. rewrite prog_bind_eq, Hrun.
  rewrite !lift_bind. unfold set_row. simpl.
  by rewrite !decide_True by done.
Qed.

(** X8: on the dictionaries ParseFEP returns for a forward and a reverse
    stream with equally many windows, and with pymbar raising nothing on
    the windows and the pairs of the channels that are analysed (the total
    channel, and the other two with [--decomp]), the analysis of [main]
    raises nothing either: every profile fits its row, both arrays keep
    three rows of one entry per window, the estimator is invoked once per
    window and channel, row 0 holds the profile of the total channel, and
    rows 1 and 2 stay zero without [--decomp]. *)
Theorem analysis_of_parsed_streams (dataF dataR : list string)
    (w_F dGs_F elecs_F vdws_F w_R dGs_R elecs_R vdws_R : pydict (list R))
    (window_F window_R : pydict string)
    (decomp verbose : bool) (log : list call) :
  ParseFEP float dataF = Ok (w_F, dGs_F, elecs_F, vdws_F, window_F) →
  ParseFEP float dataR = Ok (w_R, dGs_R, elecs_R, vdws_R, window_R) →
  count_windows dataF = count_windows dataR →
  (∀ d_F d_R k v,
     (d_F, d_R) ∈ channels (w_F, dGs_F, elecs_F, vdws_F, window_F)
                    (w_R, dGs_R, elecs_R, vdws_R, window_R) decomp →
     (k, v) ∈ d_F ∨ (k, v) ∈ d_R → is_Ok (decor3 v)) →
  (∀ d_F d_R i,
     (d_F, d_R) ∈ channels (w_F, dGs_F, elecs_F, vdws_F, window_F)
                    (w_R, dGs_R, elecs_R, vdws_R, window_R) decomp →
     i < count_windows dataF →
     is_Ok (BAR (sub3 d_F (Z.of_nat i))
                (sub3 d_R (Z.of_nat (count_windows dataF - 1 - i))))) →
  ∃ calls alls sds,
    bar_analysis statisticalInefficiency subsampleCorrelatedData BAR
      (w_F, dGs_F, elecs_F, vdws_F, window_F)
      (w_R, dGs_R, elecs_R, vdws_R, window_R) decomp verbose log
    = (log ++ calls, Ok (alls, sds))
    ∧ length calls
      = (if decomp then 3 * count_windows dataF else count_windows dataF)
    ∧ length alls = 3 ∧ length sds = 3
    ∧ Forall (fun row => length row = count_windows dataF) alls
    ∧ Forall (fun row => length row = count_windows dataF) sds
    ∧ (decomp = false →
       alls !! 1 = Some (np_zeros (count_windows dataF))
       ∧ alls !! 2 = Some (np_zeros (count_windows dataF)))
    ∧ ∃ calls_total p_total,
        (∀ log0,
           DoBAR statisticalInefficiency subsampleCorrelatedData BAR
             dGs_F dGs_R verbose log0 = (log0 ++ calls_total, Ok p_total))
        ∧ alls !! 0 = Some (dgs p_total) ∧ sds !! 0 = Some (gsdlist p_total).
Proof.
  unfold ParseFEP. intros HF HR Hcount Hdec HB.
  apply bind_Ok_inv in HF as (stF & HscanF & [= <- <- <- <- <-]).
  apply bind_Ok_inv in HR as (stR & HscanR & [= <- <- <- <- <-]).
  destruct (scan_keyed float 0 _ _ _ keyed_init HscanF) as (_ & _ & F2 & F3 & F4 & _).
  destruct (scan_keyed float 0 _ _ _ keyed_init HscanR) as (_ & _ & R2 & R3 & R4 & _).
  rewrite Nat.add_0_r in *. rewrite <- Hcount in *.
  set (n := count_windows dataF) in *.
  assert (∀ d1 d2 : pydict (list R),
            dict_keys d1 = Z.of_nat <$> seq 0 n → dict_keys d2 = Z.of_nat <$> seq 0 n →
            (d1, d2) ∈ channels
                         (dEs_dict stF, dGs_dict stF, elecs_dict stF, vdws_dict stF,
                          window stF)
                         (dEs_dict stR, dGs_dict stR, elecs_dict stR, vdws_dict stR,
                          window stR) decomp →
            ∃ calls p,
              length calls = n ∧ length (dgs p) = n ∧ length (gsdlist p) = n
              ∧ ∀ verbose log,
                  DoBAR statisticalInefficiency subsampleCorrelatedData BAR
                    d1 d2 verbose log = (log ++ calls, Ok p)) as Hchannel.
  { intros d1 d2 H1 H2 Hin. apply DoBAR_total; [by rewrite H1 | by rewrite H2 | |].
    - intros k v. by apply Hdec.
    - intros i. by apply HB. }
  assert (length (dGs_dict stF) = n) as Hlen.
  { apply (keys_seq_length (dGs_dict stF) n). by rewrite F2. }
  unfold bar_analysis. rewrite Hlen. destruct decomp.
  - destruct (Hchannel _ _ F2 R2) as (cT & pT & LcT & LdT & LsT & HT);
      [cbn [channels]; rewrite !elem_of_cons; auto|].
    destruct (Hchannel _ _ F3 R3) as (cE & pE & LcE & LdE & LsE & HE);
      [cbn [channels]; rewrite !elem_of_cons; auto|].
    destruct (Hchannel _ _ F4 R4) as (cV & pV & LcV & LdV & LsV & HV);
      [cbn [channels]; rewrite !elem_of_cons; auto|].
    rewrite prog_bind_eq, (fill_row_returns _ _ _ _ _ _ _ _ _ pV (HV _ _)) by done.
    rewrite prog_bind_eq, (fill_row_returns _ _ _ _ _ _ _ _ _ pE (HE _ _)) by done.
    rewrite (fill_row_returns _ _ _ _ _ _ _ _ _ pT (HT _ _)) by done.
    rewrite <- !app_assoc.
    eexists _, _, _. split; [reflexivity|].
    split; [rewrite !length_app; lia|].
    split; [done|]. split; [done|].
    split; [repeat constructor; done|]. split; [repeat constructor; done|].
    split; [done|]. exists cT, pT. by repeat split.
  - destruct (Hchannel _ _ F2 R2) as (cT & pT & LcT & LdT & LsT & HT);
      [cbn [channels]; rewrite !elem_of_cons; auto|].
    rewrite (fill_row_returns _ _ _ _ _ _ _ _ _ pT (HT _ _)) by done.
    eexists _, _, _. split; [reflexivity|].
    split; [done|]. split; [done|]. split; [done|].
    assert (length (np_zeros n) = n) as Hz
      by (unfold np_zeros; apply length_replicate).
    split; [repeat constructor; done|]. split; [repeat constructor; done|].
    split; [done|]. exists cT, pT. by repeat split.
Qed.

End AnalysisFacts.

Lemma analysis_of_parsed_streams_witness :
  ∃ calls alls sds,
    bar_analysis no_correlation keep_all sum_difference
      ([(0%Z, [5%R])], [(0%Z, [6%R])], [(0%Z, [(2 - 1)%R])], [(0%Z, [(4 - 3)%R])],
       [(0%Z, "[ 0 1 ]")])
      ([(0%Z, [7%R])], [(0%Z, [8%R])], [(0%Z, [(2 - 1)%R])], [(0%Z, [(4 - 3)%R])],
       [(0%Z, "[ 1 0 ]")]) true false []
    = (calls, Ok (alls, sds))
    ∧ length calls = 3 ∧ length alls = 3.
Proof.
  destruct (analysis_of_parsed_streams float_int no_correlation keep_all sum_difference
              ["#STARTING"; "a b 1 2 3 4 5 c d 6"; "#Free e c f l w [ 0 1 ]"]
              ["#STARTING"; "a b 1 2 3 4 7 c d 8"; "#Free e c f l w [ 1 0 ]"]
              [(0%Z, [5%R])] [(0%Z, [6%R])] [(0%Z, [(2 - 1)%R])] [(0%Z, [(4 - 3)%R])]
              [(0%Z, [7%R])] [(0%Z, [8%R])] [(0%Z, [(2 - 1)%R])] [(0%Z, [(4 - 3)%R])]
              [(0%Z, "[ 0 1 ]")] [(0%Z, "[ 1 0 ]")] true false [])
    as (calls & alls & sds & Hrun & Hcalls & Halls & _).
  - reflexivity.
  - reflexivity.
  - reflexivity.
  - intros d_F d_R k v _ _. exists (1%R, v). apply decorrelated_stand_in.
  - intros d_F d_R i _ _. eexists. reflexivity.
  - exists calls, alls, sds. split; [exact Hrun|]. split; [exact Hcalls | exact Halls].
Defined.

(** ** numericalSort and the order of the files *)

Lemma digits_all_digits (s : string) (acc : Z) :
  all_digits s = true → is_Some (digits acc s).
Proof.
  revert acc. induction s as [|c s IH]; intros acc Hs; [by eexists|].
  simpl in Hs. apply andb_prop in Hs as [Hc Hs].
  cbn [digits]. unfold digit. unfold is_digit in Hc. rewrite Hc. simpl. by apply IH.
Qed.

Lemma re_split_shape (s : string) (m : bool) : split_shape m (re_split m s).
Proof.
  revert m. induction s as [|c s IH]; intros m.
  - destruct m; simpl; auto.
  - cbn [re_split]. destruct (is_digit c) eqn:Hc, m.
    + specialize (IH true). destruct (re_split true s) as [|d ps]; [done|].
      simpl in *. by rewrite Hc.
    + specialize (IH true). destruct (re_split true s) as [|d ps]; [done|].
      simpl in *. right. split; [done|]. by rewrite Hc.
    + specialize (IH false). destruct (re_split false s) as [|t ps]; [done|].
      by simpl in *.
    + specialize (IH false). destruct (re_split false s) as [|t ps]; [done|].
      by simpl in *.
Qed.

Lemma convert_odd_shape (ps : list string) (m : bool) :
  split_shape m ps → (m = true → head ps ≠ Some EmptyString) →
  ∃ k, convert_odd m ps = Ok k ∧ alternating m k ∧ length k = length ps.
Proof.
  revert m. induction ps as [|p ps IH]; intros m Hshape Hhead; [done|].
  destruct m; simpl in Hshape.
  - destruct Hshape as [Hd Hshape].
    destruct (IH false Hshape) as (k & Hk & Halt & Hlen); [done|].
    destruct (digits_all_digits p 0 Hd) as [n Hn].
    exists (PInt n :: k). cbn [convert_odd]. unfold int_of_digits.
    destruct p as [|c p]; [by specialize (Hhead eq_refl)|].
    rewrite Hn. simpl. rewrite Hk. simpl. by rewrite Hlen.
  - destruct Hshape as [->|[Hne Hshape]].
    + exists [PStr p]. by repeat split.
    + destruct (IH true Hshape) as (k & Hk & Halt & Hlen); [done|].
      exists (PStr p :: k). cbn [convert_odd]. rewrite Hk. simpl. by rewrite Hlen.
Qed.

Lemma numericalSort_shape (value : string) :
  ∃ k, numericalSort value = Ok k ∧ alternating false k.
Proof.
  destruct (convert_odd_shape (re_split false value) false) as (k & Hk & Halt & _).
  - apply re_split_shape.
  - done.
  - by exists k.
Qed.

Lemma list_lt_alternating (a b : list part) (m : bool) :
  alternating m a → alternating m b → is_Some (list_lt a b).
Proof.
  revert b m. induction a as [|x a IH]; intros b m Ha Hb.
  - destruct b; by eexists.
  - destruct b as [|y b]; [by eexists|].
    destruct x, y; simpl in *; destruct Ha as [-> Ha], Hb as [Hm Hb]; try done.
    + destruct (String.eqb s s0); [by eapply IH | by eexists].
    + destruct (Z.eqb n n0); [by eapply IH | by eexists].
Qed.

(** X9: numericalSort never raises: its key starts and ends with text and
    alternates text and numbers, so that any two keys can be compared
    without the TypeError of comparing text with a number. *)
Theorem keys_are_comparable (a b : string) :
  ∃ ka kb,
    numericalSort a = Ok ka ∧ numericalSort b = Ok kb
    ∧ alternating false ka ∧ alternating false kb
    ∧ is_Some (list_lt ka kb).
Proof.
  destruct (numericalSort_shape a) as (ka & Ha & Hka).
  destruct (numericalSort_shape b) as (kb & Hb & Hkb).
  exists ka, kb. repeat split; try done. by eapply list_lt_alternating.
Qed.

Lemma part_eqb_eq (x y : part) : part_eqb x y = true ↔ x = y.
Proof.
  destruct x, y; simpl; try (split; [done | discriminate]).
  - rewrite String.eqb_eq. split; [by intros -> | by intros [= ->]].
  - rewrite Z.eqb_eq. split; [by intros -> | by intros [= ->]].
Qed.

Lemma part_eqb_sym (x y : part) : part_eqb x y = part_eqb y x.
Proof.
  destruct x, y; simpl; try done; [apply String.eqb_sym | apply Z.eqb_sym].
Qed.

Lemma string_ltb_asym (s t : string) : String.ltb s t = true → String.ltb t s = false.
Proof.
  unfold String.ltb. rewrite (String.compare_antisym t s).
  by destruct (String.compare s t).
Qed.

Lemma part_lt_asym (x y : part) : part_lt x y = Some true → part_lt y x = Some false.
Proof.
  destruct x, y; simpl; try done; intros [= H]; f_equal.
  - by apply string_ltb_asym.
  - lia.
Qed.

Lemma list_lt_irrefl (a : list part) : list_lt a a = Some false.
Proof.
  induction a as [|x a IH]; [done|]. simpl.
  by rewrite (proj2 (part_eqb_eq x x) eq_refl).
Qed.

Lemma list_lt_asym (a b : list part) :
  list_lt a b = Some true → list_lt b a = Some false.
Proof.
  revert b. induction a as [|x a IH]; intros [|y b]; simpl; try done.
  rewrite (part_eqb_sym y x). destruct (part_eqb x y); [apply IH | apply part_lt_asym].
Qed.

Lemma with_keys_keyed (files : list string) :
  ∃ kl, with_keys files = Ok kl ∧ kl.*2 = files ∧ Forall keyed_file kl.
Proof.
  induction files as [|f files (kl & Hkl & Hfiles & Hall)].
  - by exists [].
  - destruct (numericalSort_shape f) as (k & Hk & Halt).
    exists ((k, f) :: kl). cbn [with_keys]. rewrite Hk, bind_Ok, Hkl, bind_Ok.
    split; [done|]. split; [by rewrite fmap_cons, Hfiles|]. by constructor.
Qed.

Lemma insert_by_key_spec (x : list part * string) (l : list (list part * string)) :
  keyed_file x → Forall keyed_file l →
  ∃ l', insert_by_key x l = Some l'
    ∧ l' ≡ₚ x :: l
    ∧ (∀ z, not_before z x → HdRel not_before z l → HdRel not_before z l')
    ∧ (Sorted not_before l → Sorted not_before l')
    ∧ ∀ k, filter (fun y => y.1 = k) l'
           = filter (fun y => y.1 = k) (x :: l).
Proof.
  intros Hx Hl. induction Hl as [|y l Hy Hl (l' & Hins & Hperm & Hhd & Hsorted & Hstable)].
  - exists [x]. repeat split; try done.
    + intros z Hz _. by constructor.
    + intros _. by repeat constructor.
  - cbn [insert_by_key].
    destruct (list_lt_alternating y.1 x.1 false (proj2 Hy) (proj2 Hx)) as [b Hb].
    rewrite Hb. simpl. destruct b.
    + rewrite Hins. simpl. exists (y :: l'). split; [done|].
      split; [by rewrite Hperm, Permutation_swap|].
      split; [|split].
      * intros z Hz Hzl. apply HdRel_inv in Hzl. by constructor.
      * intros Hs. apply Sorted_inv in Hs as [Hs Hhdy]. constructor; [by apply Hsorted|].
        apply Hhd; [|done]. by apply list_lt_asym.
      * intros k. rewrite !filter_cons, Hstable, !filter_cons.
        destruct (decide (y.1 = k)) as [Hyk|]; [|done].
        destruct (decide (x.1 = k)) as [Hxk|]; [|done].
        rewrite Hyk, Hxk, list_lt_irrefl in Hb. done.
    + exists (x :: y :: l). repeat split; try done.
      * intros z Hz _. by constructor.
      * intros Hs. constructor; [done|]. by constructor.
Qed.

Lemma sort_by_key_spec (l : list (list part * string)) :
  Forall keyed_file l →
  ∃ s, sort_by_key l = Some s ∧ s ≡ₚ l ∧ Forall keyed_file s
    ∧ Sorted not_before s
    ∧ ∀ k, filter (fun y => y.1 = k) s = filter (fun y => y.1 = k) l.
Proof.
  induction 1 as [|x l Hx Hl (s & Hs & Hperm & Hall & Hsorted & Hstable)].
  - exists []. by repeat split.
  - destruct (insert_by_key_spec x s Hx Hall) as (s' & Hins & Hperm' & _ & Hsorted' & Hstable').
    exists s'. cbn [sort_by_key]. rewrite Hs. simpl. split; [done|].
    split; [by rewrite Hperm', Hperm|].
    split; [rewrite Hperm'; by constructor|].
    split; [by apply Hsorted'|].
    intros k. by rewrite Hstable', !filter_cons, Hstable.
Qed.

Lemma filter_keyed_files (k : list part) (l : list (list part * string)) :
  Forall keyed_file l →
  filter (fun f => numericalSort f = Ok k) l.*2
  = (filter (fun y => y.1 = k) l).*2.
Proof.
  induction 1 as [|[k' f] l [Hk _] Hl IH]; [done|]. simpl in Hk.
  rewrite fmap_cons, !filter_cons, IH. simpl. rewrite Hk.
  destruct (decide (k' = k)) as [->|Hne].
  - by rewrite decide_True.
  - rewrite decide_False; [done|]. by intros [= ?].
Qed.

(** X10: sorting the globbed paths never raises and returns them in the
    one stable ascending order of their keys: the result is a permutation
    of the paths, no path has a smaller key than the path before it, and
    paths with equal keys keep the order glob gave them. *)
Theorem files_sorted_by_key (files : list string) :
  ∃ l, sorted_numerical files = Returns l
    ∧ l ≡ₚ files
    ∧ Sorted keys_ascend l
    ∧ ∀ k, filter (fun f => numericalSort f = Ok k) l
           = filter (fun f => numericalSort f = Ok k) files.
Proof.
  destruct (with_keys_keyed files) as (kl & Hkl & Hfiles & Hall).
  destruct (sort_by_key_spec kl Hall) as (s & Hs & Hperm & Halls & Hsorted & Hstable).
  exists s.*2. unfold sorted_numerical. rewrite Hkl, Hs.
  split; [done|]. split; [by rewrite Hperm, Hfiles|]. split.
  - clear Hs Hperm Hstable. induction Hsorted as [|x s Hsorted IH Hhd]; [constructor|].
    apply Forall_cons in Halls as [Hx Halls].
    rewrite fmap_cons. constructor; [by apply IH|].
    destruct Hhd as [|y s Hxy]; [constructor|].
    apply Forall_cons in Halls as [Hy _].
    rewrite fmap_cons. constructor. exists x.1, y.1.
    split; [apply Hx|]. split; [apply Hy | exact Hxy].
  - intros k. rewrite <- Hfiles, !filter_keyed_files by done. by rewrite Hstable.
Qed.

Lemma re_split_nonempty (m : bool) (s : string) : re_split m s ≠ [].
Proof. pose proof (re_split_shape s m) as H. by destruct (re_split m s). Qed.

Lemma push_char_push_str (c : ascii) (t : string) (ps : list string) :
  push_char c (push_str t ps) = push_str (String c t) ps.
Proof. by destruct ps. Qed.

Lemma ends_with_digit_cons (c : ascii) (q : string) :
  ends_with_digit (String c q) = false →
  ends_with_digit q = false ∧ (q = EmptyString → is_digit c = false).
Proof. destruct q; simpl; [by intros -> | done]. Qed.

(** Appending to a string that does not end in a digit only extends the
    last part of its split. *)
Lemma re_split_text_prefix (q : string) (m : bool) :
  ends_with_digit q = false → (q = EmptyString → m = false) →
  ∃ init t,
    re_split m q = init ++ [t]
    ∧ ∀ s, re_split m (q ++ s) = init ++ push_str t (re_split false s).
Proof.
  revert m. induction q as [|c q IH]; intros m Hend Hm.
  - rewrite (Hm eq_refl). exists [], EmptyString. split; [done|].
    intros s. simpl. pose proof (re_split_nonempty false s).
    by destruct (re_split false s).
  - apply ends_with_digit_cons in Hend as [Hend Hc].
    destruct (IH (is_digit c) Hend Hc) as (init' & t' & E1 & E2).
    destruct init' as [|h tl].
    + exists (if xorb (is_digit c) m then [EmptyString] else []), (String c t').
      split.
      * cbn [re_split]. destruct (is_digit c), m; by rewrite E1.
      * intros s. cbn [re_split append].
        destruct (is_digit c), m; rewrite E2; simpl; by rewrite push_char_push_str.
    + exists ((if xorb (is_digit c) m then [EmptyString] else []) ++ String c h :: tl), t'.
      split.
      * cbn [re_split]. destruct (is_digit c), m; by rewrite E1.
      * intros s. cbn [re_split append].
        destruct (is_digit c), m; by rewrite E2.
Qed.

Lemma re_split_no_digit_start (r : string) :
  starts_with_digit r = false → re_split true r = EmptyString :: re_split false r.
Proof. destruct r as [|c r]; simpl; [done|]. by intros ->. Qed.

Lemma re_split_digits_prefix (d r : string) :
  all_digits d = true → starts_with_digit r = false →
  re_split true (d ++ r) = d :: re_split false r.
Proof.
  intros Hd Hr. induction d as [|c d IH]; [by apply re_split_no_digit_start|].
  simpl in Hd. apply andb_prop in Hd as [Hc Hd].
  cbn [append re_split]. by rewrite Hc, IH.
Qed.

Lemma re_split_number (d r : string) :
  d ≠ EmptyString → all_digits d = true → starts_with_digit r = false →
  re_split false (d ++ r) = EmptyString :: d :: re_split false r.
Proof.
  intros Hne Hd Hr. destruct d as [|c d]; [done|].
  simpl in Hd. apply andb_prop in Hd as [Hc Hd].
  cbn [append re_split]. by rewrite Hc, re_split_digits_prefix.
Qed.

Lemma append_empty_r (s : string) : (s ++ EmptyString)%string = s.
Proof. induction s as [|c s IH]; [done|]. simpl. by rewrite IH. Qed.

Lemma re_split_length_parity (s : string) (m : bool) :
  Nat.even (length (re_split m s)) = m.
Proof.
  revert m. induction s as [|c s IH]; intros m; [by destruct m|].
  cbn [re_split].
  assert (∀ m', length (push_char c (re_split m' s)) = length (re_split m' s)) as Hpush.
  { intros m'. pose proof (re_split_nonempty m' s). by destruct (re_split m' s). }
  destruct (is_digit c), m; cbn [length]; rewrite ?Nat.even_succ, ?Hpush;
    rewrite <- ?Nat.negb_even, ?IH; done.
Qed.

Lemma convert_odd_app_parity (a b : list string) (m : bool) :
  convert_odd m (a ++ b)
  = (k1 ← convert_odd m a;
     k2 ← convert_odd (xorb m (Nat.odd (length a))) b; Ok (k1 ++ k2)).
Proof.
  revert m. induction a as [|x a IH]; intros m.
  - simpl. rewrite xorb_false_r. by destruct (convert_odd m b).
  - cbn [app convert_odd length]. rewrite Nat.odd_succ, <- Nat.negb_odd.
    destruct m.
    + destruct (int_of_digits x); [|done]. rewrite !bind_Ok, IH.
      destruct (convert_odd false a); [|done]. rewrite !bind_Ok. simpl.
      destruct (Nat.odd (length a)); simpl; by destruct (convert_odd _ b).
    + rewrite IH. destruct (convert_odd true a); [|done]. rewrite !bind_Ok. simpl.
      destruct (Nat.odd (length a)); simpl; by destruct (convert_odd _ b).
Qed.

Lemma convert_odd_app (a b : list string) (m : bool) :
  Nat.even (length a) = true →
  convert_odd m (a ++ b)
  = (k1 ← convert_odd m a; k2 ← convert_odd m b; Ok (k1 ++ k2)).
Proof.
  intros Hlen. rewrite convert_odd_app_parity.
  by rewrite <- Nat.negb_even, Hlen, xorb_false_r.
Qed.

Lemma list_lt_common_prefix (K a b : list part) :
  list_lt (K ++ a) (K ++ b) = list_lt a b.
Proof.
  induction K as [|x K IH]; [done|]. simpl.
  by rewrite (proj2 (part_eqb_eq x x) eq_refl).
Qed.

(** The key of a string that continues, after a prefix not ending in a
    digit, with a number and then with no digit. *)
Lemma key_of_number (q d r : string) (n : Z) :
  ends_with_digit q = false → all_digits d = true →
  starts_with_digit r = false → int_of_digits d = Ok n →
  ∃ K t kr,
    numericalSort q = Ok (K ++ [PStr t])
    ∧ numericalSort r = Ok kr
    ∧ numericalSort (q ++ d ++ r) = Ok (K ++ PStr t :: PInt n :: kr).
Proof.
  intros Hq Hd Hr Hn.
  assert (d ≠ EmptyString) as Hne by (by intros ->).
  destruct (re_split_text_prefix q false Hq) as (init & t & E1 & E2); [done|].
  assert (Nat.even (length init) = true) as Heven.
  { pose proof (re_split_length_parity q false) as Hpar.
    rewrite E1, length_app, Nat.add_1_r, Nat.even_succ, <- Nat.negb_even in Hpar.
    by destruct (Nat.even (length init)). }
  destruct (numericalSort_shape q) as (kq & Hkq & _).
  destruct (numericalSort_shape r) as (kr & Hkr & _).
  unfold numericalSort in *.
  rewrite E1, convert_odd_app in Hkq by done.
  destruct (convert_odd false init) as [K|] eqn:HK; [|done].
  exists K, t, kr. split; [by rewrite E1, convert_odd_app, HK|].
  split; [done|].
  rewrite E2, re_split_number by done. cbn [push_str]. rewrite append_empty_r.
  rewrite convert_odd_app, HK by done. cbn [convert_odd].
  by rewrite Hn, !bind_Ok, Hkr.
Qed.

(** X11: two paths that agree up to a number are ordered by the value of
    that number, not by its text: after a common prefix that does not end
    in a digit, the smaller number gives the smaller key. *)
Theorem numbers_order_by_value (q d1 r1 d2 r2 : string) (n1 n2 : Z) :
  ends_with_digit q = false →
  all_digits d1 = true → starts_with_digit r1 = false → int_of_digits d1 = Ok n1 →
  all_digits d2 = true → starts_with_digit r2 = false → int_of_digits d2 = Ok n2 →
  (n1 < n2)%Z →
  ∃ k1 k2,
    numericalSort (q ++ d1 ++ r1) = Ok k1
    ∧ numericalSort (q ++ d2 ++ r2) = Ok k2
    ∧ list_lt k1 k2 = Some true ∧ list_lt k2 k1 = Some false.
Proof.
  intros Hq Hd1 Hr1 Hn1 Hd2 Hr2 Hn2 Hlt.
  destruct (key_of_number q d1 r1 n1) as (K1 & t1 & kr1 & Hq1 & _ & Hk1); [done..|].
  destruct (key_of_number q d2 r2 n2) as (K2 & t2 & kr2 & Hq2 & _ & Hk2); [done..|].
  rewrite Hq1 in Hq2. injection Hq2 as Heq.
  apply app_inj_tail in Heq as [<- [= <-]].
  exists (K1 ++ PStr t1 :: PInt n1 :: kr1), (K1 ++ PStr t1 :: PInt n2 :: kr2).
  split; [done|]. split; [done|].
  assert (list_lt (K1 ++ PStr t1 :: PInt n1 :: kr1) (K1 ++ PStr t1 :: PInt n2 :: kr2)
          = Some true) as Hk.
  { rewrite list_lt_common_prefix. simpl. rewrite String.eqb_refl.
    rewrite (proj2 (Z.eqb_neq n1 n2)) by lia. f_equal. lia. }
  split; [exact Hk | by apply list_lt_asym].
Qed.

Lemma numbers_order_by_value_witness :
  ∃ k1 k2,
    numericalSort "results/w2.fepout" = Ok k1
    ∧ numericalSort "results/w10.fepout" = Ok k2
    ∧ list_lt k1 k2 = Some true ∧ list_lt k2 k1 = Some false.
Proof.
  apply (numbers_order_by_value "results/w" "2" ".fepout" "10" ".fepout" 2 10);
    reflexivity.
Defined.

(** X12: zeros in front of a number do not change the key, so a padded
    and an unpadded name tie and keep the order glob gave them. *)
Theorem leading_zero_keeps_key (q d r : string) :
  ends_with_digit q = false → all_digits d = true → d ≠ EmptyString →
  starts_with_digit r = false →
  numericalSort (q ++ ("0" ++ d) ++ r) = numericalSort (q ++ d ++ r).
Proof.
  intros Hq Hd Hne Hr.
  destruct (digits_all_digits d 0 Hd) as [n Hn].
  assert (int_of_digits d = Ok n) as Hint.
  { unfold int_of_digits. destruct d; [done|]. by rewrite Hn. }
  assert (int_of_digits ("0" ++ d) = Ok n) as Hint0.
  { unfold int_of_digits. change ("0" ++ d)%string with (String "0" d).
    change (digits 0 (String "0" d)) with (digits 0 d). by rewrite Hn. }
  destruct (key_of_number q d r n) as (K & t & kr & Hkq & Hkr & ->); [done..|].
  destruct (key_of_number q ("0" ++ d)%string r n) as (K' & t' & kr' & Hkq' & Hkr' & ->);
    [done|by simpl|done..|].
  rewrite Hkq in Hkq'. injection Hkq' as Heq.
  apply app_inj_tail in Heq as [<- [= <-]]. congruence.
Qed.

Lemma leading_zero_keeps_key_witness :
  numericalSort "results/w007.fepout" = numericalSort "results/w07.fepout".
Proof.
  apply (leading_zero_keeps_key "results/w" "07" ".fepout"); done.
Defined.

(** ** cat_fepout *)

Lemma sorted_numerical_returns (files : list string) :
  ∃ l, sorted_numerical files = Returns l ∧ l ≡ₚ files.
Proof.
  destruct (with_keys_keyed files) as (kl & Hkl & Hfiles & Hall).
  destruct (sort_by_key_spec kl Hall) as (s & Hs & Hperm & _).
  exists s.*2. unfold sorted_numerical. rewrite Hkl, Hs.
  split; [done|]. by rewrite Hperm, Hfiles.
Qed.

Lemma string_app_assoc (a b c : string) :
  ((a ++ b) ++ c)%string = (a ++ b ++ c)%string.
Proof. induction a as [|x a IH]; [done|]. simpl. by rewrite IH. Qed.

Lemma fs_write_same (path content : string) (files : fs) :
  fs_write path content files path = Some content.
Proof. unfold fs_write. by rewrite String.eqb_refl. Qed.

Lemma fs_write_other (path content p : string) (files : fs) :
  p ≠ path → fs_write path content files p = files p.
Proof.
  intros Hne. unfold fs_write.
  destruct (String.eqb_spec p path); [done|done].
Qed.

Lemma contents_fs_write (outfile w : string) (names : list string) (files : fs) :
  outfile ∉ names → contents (fs_write outfile w files) names = contents files names.
Proof.
  induction names as [|f names IH]; [done|]. intros Hnot.
  apply not_elem_of_cons in Hnot as [Hne Hnot]. simpl.
  rewrite fs_write_other by done. by rewrite IH.
Qed.

Section FilesFacts.

Variables can_read can_write : string → bool.

Lemma read_file_Some (f : string) (files : fs) :
  can_read f = true → read_file can_read f files = files f.
Proof. unfold read_file. by intros ->. Qed.

Lemma read_file_fs_write (outfile w f : string) (files : fs) :
  f ≠ outfile →
  read_file can_read f (fs_write outfile w files) = read_file can_read f files.
Proof. intros Hne. unfold read_file. by rewrite fs_write_other. Qed.

(** The loop over readable files, ended by the end of the list or by one
    file that cannot be opened. *)
Lemma write_all_run (outfile : string) (pre tail : list string) (w : string) (files : fs) :
  files outfile = Some w → outfile ∉ pre →
  Forall (fun f => can_read f = true ∧ is_Some (files f)) pre →
  (tail = [] ∨ ∃ f rest, tail = f :: rest ∧ read_file can_read f files = None
                         ∧ f ≠ outfile) →
  ∃ files',
    write_all can_read outfile w (pre ++ tail) files
    = (files', if tail is [] then Returns tt else Raises OSError)
    ∧ files' outfile = Some (w ++ contents files pre)%string
    ∧ ∀ p, p ≠ outfile → files' p = files p.
Proof.
  revert w files. induction pre as [|g pre IH]; intros w files Hw Hnot Hall Htail.
  - exists files. simpl. rewrite append_empty_r. split; [|done].
    destruct Htail as [->|(f & rest & -> & Hf & _)]; [done|]. simpl. by rewrite Hf.
  - apply not_elem_of_cons in Hnot as [Hne Hnot].
    apply Forall_cons in Hall as [[Hg [c Hc]] Hall].
    simpl. rewrite read_file_Some, Hc by done.
    destruct (IH (w ++ c)%string (fs_write outfile (w ++ c) files))
      as (files' & Hrun & Hout & Hother).
    + apply fs_write_same.
    + done.
    + rewrite Forall_forall in Hall. apply Forall_forall. intros f Hf.
      rewrite fs_write_other; [by apply Hall|]. by intros ->.
    + destruct Htail as [->|(f & rest & -> & Hf & Hfne)]; [by left|].
      right. exists f, rest. by rewrite read_file_fs_write.
    + exists files'. split; [done|]. split.
      * rewrite Hout, contents_fs_write by done. simpl. by rewrite string_app_assoc.
      * intros p Hp. rewrite Hother by done. by apply fs_write_other.
Qed.

Lemma write_all_keeps_output (outfile : string) (names : list string) (w : string)
    (files : fs) :
  is_Some (files outfile) →
  is_Some ((write_all can_read outfile w names files).1 outfile).
Proof.
  revert w files. induction names as [|f names IH]; intros w files Hout; [done|].
  simpl. destruct (read_file can_read f files) as [c|]; [|done].
  apply IH. rewrite fs_write_same. by eexists.
Qed.

Lemma cat_fepout_existing (globbed : list string) (label D c : string) (files : fs) :
  files (label ++ "_" ++ D ++ ".fepout")%string = Some c →
  cat_fepout can_read can_write globbed label D files
  = (files, Returns (label ++ "_" ++ D ++ ".fepout")%string).
Proof.
  intros Hc. destruct (sorted_numerical_returns globbed) as (l & Hl & _).
  unfold cat_fepout. by rewrite Hl, Hc.
Qed.

(** Without a summary file and without the means to create one, nothing
    is read or written. *)
Lemma cat_fepout_no_output (globbed : list string) (label D : string) (files : fs) :
  files (label ++ "_" ++ D ++ ".fepout")%string = None →
  can_write (label ++ "_" ++ D ++ ".fepout")%string = false →
  cat_fepout can_read can_write globbed label D files = (files, Raises OSError).
Proof.
  intros Hnone Hw. destruct (sorted_numerical_returns globbed) as (l & Hl & _).
  unfold cat_fepout. by rewrite Hl, Hnone, Hw.
Qed.

(** A run that creates the summary file: the sorted files [pre] are read
    and written, and [tail] is empty or starts with a file that cannot be
    opened. *)
Lemma cat_fepout_run (globbed pre tail : list string) (label D : string) (files : fs) :
  files (label ++ "_" ++ D ++ ".fepout")%string = None →
  can_write (label ++ "_" ++ D ++ ".fepout")%string = true →
  sorted_numerical globbed = Returns (pre ++ tail) →
  Forall (fun f => can_read f = true ∧ is_Some (files f)) pre →
  (tail = [] ∨ ∃ f rest, tail = f :: rest ∧ read_file can_read f files = None
                         ∧ f ≠ (label ++ "_" ++ D ++ ".fepout")%string) →
  ∃ files',
    cat_fepout can_read can_write globbed label D files
    = (files', if tail is [] then Returns (label ++ "_" ++ D ++ ".fepout")%string
               else Raises OSError)
    ∧ files' (label ++ "_" ++ D ++ ".fepout")%string = Some (contents files pre)
    ∧ ∀ p, p ≠ (label ++ "_" ++ D ++ ".fepout")%string → files' p = files p.
Proof.
  intros Hnone Hw Hl Hall Htail.
  set (outfile := (label ++ "_" ++ D ++ ".fepout")%string) in *.
  assert (outfile ∉ pre) as Hnot.
  { intros Hin. rewrite Forall_forall in Hall.
    destruct (Hall _ Hin) as [_ [c Hc]]. congruence. }
  destruct (write_all_run outfile pre tail EmptyString
              (fs_write outfile EmptyString files))
    as (files' & Hrun & Hout & Hother).
  - apply fs_write_same.
  - done.
  - rewrite Forall_forall in Hall. apply Forall_forall.
    intros g Hg. rewrite fs_write_other; [by apply Hall|]. by intros ->.
  - destruct Htail as [->|(f & rest & -> & Hf & Hne)]; [by left|].
    right. exists f, rest. by rewrite read_file_fs_write.
  - exists files'. unfold cat_fepout. fold outfile. rewrite Hl, Hnone, Hw, Hrun.
    split; [by destruct tail|]. split.
    + by rewrite Hout, contents_fs_write.
    + intros p Hp. rewrite Hother by done. by apply fs_write_other.
Qed.

Lemma cat_fepout_fresh (globbed : list string) (label D : string) (files : fs) :
  files (label ++ "_" ++ D ++ ".fepout")%string = None →
  can_write (label ++ "_" ++ D ++ ".fepout")%string = true →
  Forall (fun f => can_read f = true ∧ is_Some (files f)) globbed →
  ∃ l files',
    sorted_numerical globbed = Returns l
    ∧ l ≡ₚ globbed
    ∧ cat_fepout can_read can_write globbed label D files
      = (files', Returns (label ++ "_" ++ D ++ ".fepout")%string)
    ∧ files' (label ++ "_" ++ D ++ ".fepout")%string = Some (contents files l)
    ∧ ∀ p, p ≠ (label ++ "_" ++ D ++ ".fepout")%string → files' p = files p.
Proof.
  intros Hnone Hw Hall.
  destruct (sorted_numerical_returns globbed) as (l & Hl & Hperm).
  destruct (cat_fepout_run globbed l [] label D files) as (files' & Hrun & Hout & Hother).
  - done.
  - done.
  - by rewrite app_nil_r.
  - by rewrite Hperm.
  - by left.
  - by exists l, files'.
Qed.

(** X13: when the summary file does not exist yet and can be created, and
    every globbed file exists and can be read, cat_fepout returns the name
    of the summary file, which then holds the contents of the globbed files
    in their sorted order, one after the other with nothing between them;
    no other file changes. *)
Theorem summary_file_concatenates_in_order (globbed : list string) (label D : string)
    (files : fs) :
  files (label ++ "_" ++ D ++ ".fepout")%string = None →
  can_write (label ++ "_" ++ D ++ ".fepout")%string = true →
  Forall (fun f => can_read f = true ∧ is_Some (files f)) globbed →
  ∃ l files',
    sorted_numerical globbed = Returns l
    ∧ cat_fepout can_read can_write globbed label D files
      = (files', Returns (label ++ "_" ++ D ++ ".fepout")%string)
    ∧ files' (label ++ "_" ++ D ++ ".fepout")%string = Some (contents files l)
    ∧ ∀ p, p ≠ (label ++ "_" ++ D ++ ".fepout")%string → files' p = files p.
Proof.
  intros Hnone Hw Hall.
  destruct (cat_fepout_fresh globbed label D files Hnone Hw Hall)
    as (l & files' & Hl & _ & Hrun & Hout & Hother).
  by exists l, files'.
Qed.

(** X14: when the summary file does not exist yet and can be created, and
    one of the sorted files cannot be opened, cat_fepout raises OSError and
    leaves a summary file behind that holds the contents of the files
    sorted before the unreadable one. *)
Theorem unreadable_file_leaves_partial_summary (globbed pre rest : list string)
    (f label D : string) (files : fs) :
  files (label ++ "_" ++ D ++ ".fepout")%string = None →
  can_write (label ++ "_" ++ D ++ ".fepout")%string = true →
  sorted_numerical globbed = Returns (pre ++ f :: rest) →
  Forall (fun g => can_read g = true ∧ is_Some (files g)) pre →
  read_file can_read f files = None → f ≠ (label ++ "_" ++ D ++ ".fepout")%string →
  ∃ files',
    cat_fepout can_read can_write globbed label D files = (files', Raises OSError)
    ∧ files' (label ++ "_" ++ D ++ ".fepout")%string = Some (contents files pre)
    ∧ ∀ p, p ≠ (label ++ "_" ++ D ++ ".fepout")%string → files' p = files p.
Proof.
  intros Hnone Hw Hl Hall Hf Hne.
  apply (cat_fepout_run globbed pre (f :: rest)); [done..|].
  right. by exists f, rest.
Qed.

(** X15: a call of cat_fepout either finds the summary file, or creates
    it, or cannot create it and raises OSError with nothing read and
    nothing written.  In the first two cases, also when the call raised
    while reading, the summary file exists afterwards, so every later call
    for the same label and direction returns its name and changes nothing,
    whatever the directory holds by then: a partial summary file is never
    completed.  In the last case a later call raises OSError again. *)
Theorem later_calls_change_nothing (globbed globbed' : list string) (label D : string)
    (files : fs) :
  cat_fepout can_read can_write globbed' label D
    (cat_fepout can_read can_write globbed label D files).1
  = ((cat_fepout can_read can_write globbed label D files).1,
     match files (label ++ "_" ++ D ++ ".fepout")%string with
     | Some _ => Returns (label ++ "_" ++ D ++ ".fepout")%string
     | None =>
         if can_write (label ++ "_" ++ D ++ ".fepout")%string
         then Returns (label ++ "_" ++ D ++ ".fepout")%string
         else Raises OSError
     end)
  ∧ (files (label ++ "_" ++ D ++ ".fepout")%string = None →
     can_write (label ++ "_" ++ D ++ ".fepout")%string = false →
     cat_fepout can_read can_write globbed label D files = (files, Raises OSError)).
Proof.
  split; [|apply cat_fepout_no_output].
  destruct (files (label ++ "_" ++ D ++ ".fepout")%string) as [c|] eqn:Hout.
  - rewrite (cat_fepout_existing globbed _ _ c) by done. cbn [fst].
    by apply cat_fepout_existing with c.
  - destruct (can_write (label ++ "_" ++ D ++ ".fepout")%string) eqn:Hw.
    + assert (is_Some ((cat_fepout can_read can_write globbed label D files).1
                         (label ++ "_" ++ D ++ ".fepout")%string)) as [c Hc].
      { destruct (sorted_numerical_returns globbed) as (l & Hl & _).
        unfold cat_fepout. rewrite Hl, Hout, Hw.
        pose proof (write_all_keeps_output (label ++ "_" ++ D ++ ".fepout") l
                      EmptyString
                      (fs_write (label ++ "_" ++ D ++ ".fepout") EmptyString files))
          as Hkeep.
        destruct (write_all _ _ _ _ _) as [files' [[]|e]]; cbn [fst] in *;
          apply Hkeep; rewrite fs_write_same; by eexists. }
      by apply cat_fepout_existing with c.
    + rewrite (cat_fepout_no_output globbed) by done. cbn [fst].
      by apply cat_fepout_no_output.
Qed.

End FilesFacts.

Lemma summary_file_concatenates_in_order_witness :
  ∃ l files',
    sorted_numerical ["d/w10.fepout"; "d/w2.fepout"] = Returns l
    ∧ cat_fepout permitted permitted ["d/w10.fepout"; "d/w2.fepout"] "fwd" "F" demo_fs
      = (files', Returns "fwd_F.fepout")
    ∧ files' "fwd_F.fepout" = Some (contents demo_fs l)
    ∧ ∀ p, p ≠ "fwd_F.fepout" → files' p = demo_fs p.
Proof.
  apply (summary_file_concatenates_in_order permitted permitted
           ["d/w10.fepout"; "d/w2.fepout"] "fwd" "F" demo_fs).
  - reflexivity.
  - reflexivity.
  - repeat constructor; by eexists.
Defined.

Lemma unreadable_file_leaves_partial_summary_witness :
  ∃ files',
    cat_fepout permitted permitted
      ["d/w10.fepout"; "d/w3.fepout"; "d/w2.fepout"] "fwd" "F" demo_fs
    = (files', Raises OSError)
    ∧ files' "fwd_F.fepout" = Some (contents demo_fs ["d/w2.fepout"])
    ∧ ∀ p, p ≠ "fwd_F.fepout" → files' p = demo_fs p.
Proof.
  apply (unreadable_file_leaves_partial_summary permitted permitted
           ["d/w10.fepout"; "d/w3.fepout"; "d/w2.fepout"]
           ["d/w2.fepout"] ["d/w10.fepout"] "d/w3.fepout" "fwd" "F" demo_fs).
  - reflexivity.
  - reflexivity.
  - reflexivity.
  - repeat constructor; by eexists.
  - reflexivity.
  - discriminate.
Defined.

(** ** getdata *)

Lemma readlines_nonempty (text : string) : text ≠ EmptyString → readlines text ≠ [].
Proof.
  destruct text as [|c text]; [done|]. intros _. simpl.
  destruct (Ascii.eqb c newline); [done|]. by destruct (readlines text).
Qed.

Lemma push_char_app (c : ascii) (l l' : list string) :
  l ≠ [] → push_char c (l ++ l') = push_char c l ++ l'.
Proof. by destruct l. Qed.

(** A text of whole lines keeps its lines when more text follows. *)
Lemma readlines_app (a b : string) :
  whole_lines a = true → readlines (a ++ b) = readlines a ++ readlines b.
Proof.
  induction a as [|c a IH]; [done|]. intros Hw.
  change (String c a ++ b)%string with (String c (a ++ b)).
  cbn [readlines]. destruct (Ascii.eqb c newline) eqn:Hc.
  - rewrite IH; [done|]. by destruct a.
  - destruct a as [|c' a]; [simpl in Hw; congruence|].
    rewrite IH by done. by apply push_char_app, readlines_nonempty.
Qed.

Lemma readlines_contents (files : fs) (names : list string) :
  Forall (fun f => whole_lines (default EmptyString (files f)) = true) names →
  readlines (contents files names) = lines_of files names.
Proof.
  induction 1 as [|f names Hf _ IH]; [done|].
  cbn [contents]. rewrite readlines_app, IH by done. reflexivity.
Qed.

Section ReadingFacts.

Variable float : string → res R.
Variables can_read can_write : string → bool.

Lemma getdata_existing (globbed : list string) (outfname D text : string) (files : fs) :
  files (outfname ++ "_" ++ D ++ ".fepout")%string = Some text →
  can_read (outfname ++ "_" ++ D ++ ".fepout")%string = true →
  getdata float can_read can_write true globbed outfname D files
  = (files, to_outcome (ParseFEP float (readlines text))).
Proof.
  intros Hc Hr. unfold getdata.
  rewrite (cat_fepout_existing _ _ _ _ _ text) by done.
  unfold ParseFEP_file. by rewrite read_file_Some, Hc.
Qed.

(** X16: on a directory whose files exist, can be read and hold whole
    lines, with no summary file yet and a summary file that can be created
    and read, getdata returns what ParseFEP makes of the lines of the files
    taken in the sorted order, as one stream. *)
Theorem getdata_parses_files_in_order (globbed : list string) (outfname D : string)
    (files : fs) :
  files (outfname ++ "_" ++ D ++ ".fepout")%string = None →
  can_write (outfname ++ "_" ++ D ++ ".fepout")%string = true →
  can_read (outfname ++ "_" ++ D ++ ".fepout")%string = true →
  Forall (fun f => can_read f = true
                   ∧ ∃ text, files f = Some text ∧ whole_lines text = true) globbed →
  ∃ l files',
    sorted_numerical globbed = Returns l
    ∧ getdata float can_read can_write true globbed outfname D files
      = (files', to_outcome (ParseFEP float (lines_of files l))).
Proof.
  intros Hnone Hw Hr Hall.
  destruct (cat_fepout_fresh can_read can_write globbed outfname D files Hnone Hw)
    as (l & files' & Hl & Hperm & Hrun & Hout & _).
  { eapply Forall_impl; [exact Hall|]. intros f (Hf & text & -> & _).
    split; [done | by eexists]. }
  exists l, files'. split; [done|].
  unfold getdata. rewrite Hrun. unfold ParseFEP_file. rewrite read_file_Some, Hout by done.
  rewrite readlines_contents; [done|].
  rewrite Hperm. eapply Forall_impl; [exact Hall|].
  by intros f (_ & text & -> & Hw').
Qed.

(** X17: after a run that created the summary file and that an unreadable
    file ended, the next call of getdata raises nothing on account of the
    result files: it parses the partial summary file, that is the files
    sorted before the unreadable one, whatever the directory holds by
    then. *)
Theorem partial_summary_parsed_by_next_run (globbed pre rest : list string)
    (f outfname D : string) (files : fs) :
  files (outfname ++ "_" ++ D ++ ".fepout")%string = None →
  can_write (outfname ++ "_" ++ D ++ ".fepout")%string = true →
  can_read (outfname ++ "_" ++ D ++ ".fepout")%string = true →
  sorted_numerical globbed = Returns (pre ++ f :: rest) →
  Forall (fun g => can_read g = true ∧ is_Some (files g)) pre →
  read_file can_read f files = None →
  f ≠ (outfname ++ "_" ++ D ++ ".fepout")%string →
  ∃ files',
    getdata float can_read can_write true globbed outfname D files
    = (files', Raises OSError)
    ∧ ∀ globbed',
        getdata float can_read can_write true globbed' outfname D files'
        = (files', to_outcome (ParseFEP float (readlines (contents files pre)))).
Proof.
  intros Hnone Hw Hr Hl Hall Hf Hne.
  destruct (cat_fepout_run can_read can_write globbed pre (f :: rest) outfname D files)
    as (files' & Hrun & Hout & _); [done..| |].
  { right. by exists f, rest. }
  exists files'. split.
  - unfold getdata. by rewrite Hrun.
  - intros globbed'. by apply getdata_existing.
Qed.

End ReadingFacts.

Lemma getdata_parses_files_in_order_witness :
  ∃ l files',
    sorted_numerical ["d/w2.fepout"; "d/w1.fepout"] = Returns l
    ∧ getdata float_int permitted permitted true ["d/w2.fepout"; "d/w1.fepout"]
        "fwd" "F" demo_results
      = (files', to_outcome (ParseFEP float_int (lines_of demo_results l))).
Proof.
  apply (getdata_parses_files_in_order float_int permitted permitted
           ["d/w2.fepout"; "d/w1.fepout"] "fwd" "F" demo_results).
  - reflexivity.
  - reflexivity.
  - reflexivity.
  - repeat constructor; eexists; split; reflexivity.
Defined.

Lemma partial_summary_parsed_by_next_run_witness :
  ∃ files',
    getdata float_int permitted permitted true ["d/w3.fepout"; "d/w2.fepout"]
      "fwd" "F" demo_results
    = (files', Raises OSError)
    ∧ ∀ globbed',
        getdata float_int permitted permitted true globbed' "fwd" "F" files'
        = (files', to_outcome (ParseFEP float_int
                                 (readlines (contents demo_results ["d/w2.fepout"])))).
Proof.
  apply (partial_summary_parsed_by_next_run float_int permitted permitted
           ["d/w3.fepout"; "d/w2.fepout"]
           ["d/w2.fepout"] [] "d/w3.fepout" "fwd" "F" demo_results).
  - reflexivity.
  - reflexivity.
  - reflexivity.
  - reflexivity.
  - repeat constructor; by eexists.
  - reflexivity.
  - discriminate.
Defined.

(** ** hist_plot and dg_plot *)

Lemma has_char_app (c : ascii) (s t : string) :
  has_char c (s ++ t) = has_char c s || has_char c t.
Proof. induction s as [|x s IH]; [done|]. simpl. by rewrite IH, orb_assoc. Qed.

Lemma not_space_not_blank (c : ascii) : is_space c = false → Ascii.eqb c " " = false.
Proof. destruct (Ascii.eqb_spec c " ") as [->|]; [by vm_compute|done]. Qed.

(** The tokens of a line hold no blank. *)
Lemma split_from_no_blank (cur s : string) :
  has_char " " cur = false →
  Forall (fun t => has_char " " t = false) (split_from cur s).
Proof.
  revert cur. induction s as [|c s IH]; intros cur Hcur; simpl.
  - destruct cur; repeat constructor; done.
  - destruct (is_space c) eqn:Hc.
    + destruct cur; simpl; [by apply IH|]. constructor; [done | by apply IH].
    + apply IH. rewrite has_char_app, Hcur. simpl.
      by rewrite not_space_not_blank.
Qed.

Lemma split_on_no_sep (sep : ascii) (x : string) :
  has_char sep x = false → split_on sep x = [x].
Proof.
  induction x as [|c x IH]; [done|]. simpl. intros [Hc Hx]%orb_false_elim.
  by rewrite Hc, IH.
Qed.

Lemma split_on_app (sep : ascii) (x rest : string) :
  has_char sep x = false →
  split_on sep (x ++ String sep rest) = x :: split_on sep rest.
Proof.
  induction x as [|c x IH]; simpl.
  - intros _. by rewrite Ascii.eqb_refl.
  - intros [Hc Hx]%orb_false_elim. by rewrite Hc, IH.
Qed.

(** Splitting at blanks undoes joining with blanks, for pieces that hold
    no blank. *)
Lemma split_on_join (ts : list string) :
  Forall (fun t => has_char " " t = false) ts → ts ≠ [] →
  split_on " " (join " " ts) = ts.
Proof.
  unfold join. induction 1 as [|t ts Ht Hts IH]; [done|]. intros _.
  destruct ts as [|t' ts].
  - by apply split_on_no_sep.
  - change (String.concat " " (t :: t' :: ts))
      with (t ++ String " " (String.concat " " (t' :: ts)))%string.
    rewrite split_on_app by done. by rewrite IH.
Qed.

(** The title made of a label that was joined from tokens. *)
Lemma sbtitle_joined (l : list string) :
  Forall (fun t => has_char " " t = false) l →
  sbtitle (join " " (slice 6 10 l))
  = match l !! 7%nat, l !! 8%nat with
    | Some a, Some b => Ok ("$\lambda$ = " ++ a ++ " to " ++ b)%string
    | _, _ => Raise IndexError
    end.
Proof.
  intros Hl.
  assert (Forall (fun t => has_char " " t = false) (slice 6 10 l)) as Hts
    by (by apply Forall_take, Forall_drop).
  assert (slice 6 10 l !! 1%nat = l !! 7%nat) as H1
    by (unfold slice; rewrite lookup_take_lt, lookup_drop by lia; done).
  assert (slice 6 10 l !! 2%nat = l !! 8%nat) as H2
    by (unfold slice; rewrite lookup_take_lt, lookup_drop by lia; done).
  unfold sbtitle. destruct (slice 6 10 l) as [|t ts] eqn:Hslice.
  - simpl in H1. by rewrite <- H1.
  - rewrite split_on_join by done. rewrite H1, H2.
    destruct (l !! 7%nat); [|done]. by destruct (l !! 8%nat).
Qed.

(** X18: the subplot title is made of the tokens 7 and 8 of the summary
    line the label came from: splitting the label at blanks gives back the
    tokens 6 to 9 that ParseFEP joined.  A summary line of fewer than nine
    tokens, which ParseFEP accepts, makes the title raise IndexError. *)
Theorem subplot_title_from_summary_line (line : string) :
  sbtitle (join " " (slice 6 10 (split line)))
  = match split line !! 7%nat, split line !! 8%nat with
    | Some a, Some b => Ok ("$\lambda$ = " ++ a ++ " to " ++ b)%string
    | _, _ => Raise IndexError
    end.
Proof. apply sbtitle_joined, (split_from_no_blank EmptyString line eq_refl). Qed.

Lemma zip_fmap_seq_min {A B} (f : nat → A) (g : nat → B) (a n m : nat) :
  zip (f <$> seq a n) (g <$> seq a m) = (fun i => (f i, g i)) <$> seq a (n `min` m).
Proof.
  revert a m. induction n as [|n IH]; intros a m; [done|].
  destruct m as [|m]; [done|]. simpl. f_equal. apply IH.
Qed.

Lemma plot_pairs_seq (d_F d_R : pydict (list R)) (N M : nat) :
  dict_keys d_F ≡ₚ Z.of_nat <$> seq 0 N →
  dict_keys d_R ≡ₚ Z.of_nat <$> seq 0 M →
  plot_pairs d_F d_R
  = (fun i => (Z.of_nat i, Z.of_nat (M - 1 - i))) <$> seq 0 (N `min` M).
Proof.
  intros HF HR. unfold plot_pairs.
  rewrite (sorted_seq _ _ HF), (sorted_reverse_seq _ _ HR), reverse_seq.
  rewrite <- list_fmap_compose. apply zip_fmap_seq_min.
Qed.

Lemma series_of_item (d : pydict (list R)) (n i : nat) :
  dict_keys d ≡ₚ Z.of_nat <$> seq 0 n → i < n →
  dict_item (Z.of_nat i) d = Ok (series_of d (Z.of_nat i)).
Proof.
  intros Hd Hi. unfold dict_item, series_of.
  by destruct (dict_get_is_Some _ _ (keys_seq_elem_of d n i Hd Hi)) as [v ->].
Qed.

Lemma for_each_Ok_elem {S A} (body : S → A → res S) (l : list A) (s s' : S) (x : A) :
  for_each body s l = Ok s' → x ∈ l → ∃ s1 s2, body s1 x = Ok s2.
Proof.
  revert s. induction l as [|a l IH]; intros s Hrun Hx; [by apply elem_of_nil in Hx|].
  rewrite for_each_cons in Hrun. apply bind_Ok_inv in Hrun as (s1 & Hbody & Hrun).
  apply elem_of_cons in Hx as [->|Hx]; [by exists s, s1 | by apply (IH s1)].
Qed.

Lemma length_ns : length ns = 2001.
Proof. unfold ns. by rewrite length_fmap, length_seq. Qed.

Lemma length_negated (a : list R) : length (negated a) = length a.
Proof. apply length_fmap. Qed.

Section PlotFacts.

Variables (d_F d_R : pydict (list R)) (window_F window_R : pydict string).
Variables (title outfname : string) (N M : nat).
Hypothesis fwd_keys : dict_keys d_F ≡ₚ Z.of_nat <$> seq 0 N.
Hypothesis rev_keys : dict_keys d_R ≡ₚ Z.of_nat <$> seq 0 M.

Section Titles.

(** Every plotted window has a label with three pieces or more. *)
Variable titles : nat → string.
Hypothesis labels : ∀ i, i < N `min` M →
  ∃ label, dict_get (Z.of_nat i) window_F = Some label ∧ sbtitle label = Ok (titles i).

Lemma hist_body_cell (i : nat) (calls : list plt_call) :
  i < N `min` M →
  hist_body d_F d_R window_F (i, calls) (Z.of_nat i, Z.of_nat (M - 1 - i))
  = (cell ← gridspec_item i;
     Ok (S i, calls ++ [plt_subplot cell;
                        plt_hist (negated (series_of d_R (Z.of_nat (M - 1 - i)))) "r";
                        plt_hist (series_of d_F (Z.of_nat i)) "b";
                        plt_title (titles i); plt_tick_params])).
Proof.
  intros Hi. destruct (labels i Hi) as (label & Hlabel & Htitle).
  assert (dict_item (Z.of_nat i) window_F = Ok label) as Hitem
    by (unfold dict_item; by rewrite Hlabel).
  unfold hist_body. rewrite Hitem, bind_Ok, Htitle, bind_Ok.
  destruct (gridspec_item i) as [cell|]; [|done]. rewrite !bind_Ok.
  rewrite (series_of_item d_R M), bind_Ok by (done || lia).
  by rewrite (series_of_item d_F N), bind_Ok by (done || lia).
Qed.

Lemma hist_loop (n : nat) :
  n ≤ N `min` M → n ≤ 40 →
  for_each (hist_body d_F d_R window_F) (0, [plt_figure])
    ((fun i => (Z.of_nat i, Z.of_nat (M - 1 - i))) <$> seq 0 n)
  = Ok (n, [plt_figure] ++ (seq 0 n ≫= hist_cell d_F d_R titles M)).
Proof.
  induction n as [|n IH]; intros Hn H40; [done|].
  rewrite seq_S, fmap_app, for_each_app, IH by lia. rewrite bind_Ok.
  cbn [fmap list_fmap Nat.add]. rewrite for_each_cons, hist_body_cell by lia.
  unfold gridspec_item. destruct (Nat.ltb_spec n (8 * 5)) as [_|Hge]; [|lia].
  rewrite !bind_Ok. cbn [for_each]. unfold mret, res_ret.
  rewrite bind_app, <- app_assoc. do 3 f_equal.
Qed.

Lemma hist_plot_run :
  N `min` M ≤ 40 →
  hist_plot d_F d_R window_F window_R title outfname
  = Ok ([plt_figure]
        ++ (seq 0 (N `min` M) ≫= hist_cell d_F d_R titles M)
        ++ [plt_subplots_adjust; plt_suptitle title;
            plt_text "$\Delta$U (kcal/mol)"; plt_text "frequency";
            plt_savefig (outfname ++ "_dE-overlap.eps")%string; plt_clf]).
Proof.
  intros Hle. unfold hist_plot. rewrite (plot_pairs_seq d_F d_R N M) by done.
  rewrite hist_loop by done. rewrite bind_Ok. by rewrite <- app_assoc.
Qed.

(** X19: for forward windows keyed [0 .. N-1] and reverse windows keyed
    [0 .. M-1], every plotted forward window having a label of three pieces
    or more, hist_plot pairs forward window [i] with reverse window
    [M - 1 - i], as DoBAR does, and draws the reverse series negated; it
    stops at the shorter of the two sets of windows without an error, and
    raises IndexError when more than 40 pairs are to be drawn. *)
Theorem histograms_pair_windows_in_reverse :
  hist_plot d_F d_R window_F window_R title outfname
  = if decide (N `min` M ≤ 40)
    then Ok ([plt_figure]
             ++ (seq 0 (N `min` M) ≫= hist_cell d_F d_R titles M)
             ++ [plt_subplots_adjust; plt_suptitle title;
                 plt_text "$\Delta$U (kcal/mol)"; plt_text "frequency";
                 plt_savefig (outfname ++ "_dE-overlap.eps")%string; plt_clf])
    else Raise IndexError.
Proof.
  destruct (decide (N `min` M ≤ 40)) as [Hle|Hgt]; [by apply hist_plot_run|].
  unfold hist_plot. rewrite (plot_pairs_seq d_F d_R N M) by done.
  replace (N `min` M) with (40 + S (N `min` M - 41)) by lia.
  rewrite seq_app, fmap_app, for_each_app, hist_loop by lia. rewrite bind_Ok.
  cbn [seq fmap list_fmap Nat.add]. rewrite for_each_cons, hist_body_cell by lia.
  reflexivity.
Qed.

End Titles.

(** X20: for forward windows keyed [0 .. N-1] and reverse windows keyed
    [0 .. M-1], dg_plot draws [ns], which has 2001 entries, against every
    paired series, so it raises when a paired window has another number of
    samples. *)
Theorem dg_plot_needs_2001_samples (i : nat) :
  i < N `min` M →
  length (series_of d_F (Z.of_nat i)) ≠ 2001
  ∨ length (series_of d_R (Z.of_nat (M - 1 - i))) ≠ 2001 →
  ∃ e, dg_plot d_F d_R window_F window_R title outfname = Raise e.
Proof.
  intros Hi Hlen. unfold dg_plot. rewrite (plot_pairs_seq d_F d_R N M) by done.
  destruct (for_each _ _ _) as [[idx calls]|e] eqn:Hrun; [|by exists e].
  exfalso.
  destruct (for_each_Ok_elem _ _ _ _ (Z.of_nat i, Z.of_nat (M - 1 - i)) Hrun)
    as ([idx1 calls1] & s2 & Hbody).
  { apply list_elem_of_fmap. exists i. split; [done|]. apply elem_of_seq. lia. }
  unfold dg_body in Hbody.
  apply bind_Ok_inv in Hbody as (label & _ & Hbody).
  apply bind_Ok_inv in Hbody as (ttl & _ & Hbody).
  apply bind_Ok_inv in Hbody as (cell & _ & Hbody).
  rewrite (series_of_item d_R M), bind_Ok in Hbody by (done || lia).
  apply bind_Ok_inv in Hbody as (plot_R & HR & Hbody).
  rewrite (series_of_item d_F N), bind_Ok in Hbody by (done || lia).
  apply bind_Ok_inv in Hbody as (plot_F & HF & _).
  unfold plot_xy in HR, HF. rewrite length_ns, ?length_negated in HR, HF.
  destruct (decide (2001 = _)) as [HlenR|] in HR; [|done].
  destruct (decide (2001 = _)) as [HlenF|] in HF; [|done].
  rewrite length_negated in HlenR. destruct Hlen as [Hne|Hne]; by apply Hne.
Qed.

End PlotFacts.

Lemma histograms_pair_windows_in_reverse_witness :
  hist_plot demo_fwds demo_revs [(0%Z, "[ 0 0.5 ]"); (1%Z, "[ 0.5 1 ]")] [] "F->R" "out"
  = if decide (2 `min` 2 ≤ 40)
    then Ok ([plt_figure]
             ++ (seq 0 (2 `min` 2)
                 ≫= hist_cell demo_fwds demo_revs
                      (fun i => match i with
                                | O => "$\lambda$ = 0 to 0.5"
                                | _ => "$\lambda$ = 0.5 to 1"
                                end) 2)
             ++ [plt_subplots_adjust; plt_suptitle "F->R";
                 plt_text "$\Delta$U (kcal/mol)"; plt_text "frequency";
                 plt_savefig "out_dE-overlap.eps"; plt_clf])
    else Raise IndexError.
Proof.
  apply (histograms_pair_windows_in_reverse demo_fwds demo_revs
           [(0%Z, "[ 0 0.5 ]"); (1%Z, "[ 0.5 1 ]")] [] "F->R" "out" 2 2
           (proj1 demo_keys) (proj2 demo_keys)).
  intros [|[|i]] Hi; [eexists; split; reflexivity ..|lia].
Defined.

Lemma dg_plot_needs_2001_samples_witness :
  ∃ e, dg_plot demo_fwds demo_revs [(0%Z, "[ 0 0.5 ]"); (1%Z, "[ 0.5 1 ]")] []
         "F->R" "out" = Raise e.
Proof.
  apply (dg_plot_needs_2001_samples demo_fwds demo_revs
           [(0%Z, "[ 0 0.5 ]"); (1%Z, "[ 0.5 1 ]")] [] "F->R" "out" 2 2
           (proj1 demo_keys) (proj2 demo_keys) 0).
  - lia.
  - left. vm_compute. lia.
Defined.

(** ** The plots of [main] on parsed streams *)

Lemma elem_of_dict_set {V} (k k0 : Z) (v v0 : V) (d : pydict V) :
  (k, v) ∈ dict_set k0 v0 d → (k, v) = (k0, v0) ∨ (k, v) ∈ d.
Proof.
  induction d as [|[k' v'] d IH]; simpl.
  - intros ->%list_elem_of_singleton. by left.
  - destruct (decide (k0 = k')) as [->|Hne].
    + intros [->|Hin]%elem_of_cons; [by left|]. right. apply elem_of_cons. by right.
    + intros [->|Hin]%elem_of_cons; [right; apply elem_of_cons; by left|].
      destruct (IH Hin) as [?|?]; [by left|]. right. apply elem_of_cons. by right.
Qed.

Section PlotsOfParsedStreams.

Variable float : string → res R.

Lemma step_labels (st st' : scan_state) (line : string) (kl : Z * string) :
  step float st line = Ok st' → kl ∈ window st' →
  kl ∈ window st ∨ labelled_by [line] kl.
Proof.
  intros Hstep Hin. destruct (is_summary line) eqn:Hsum.
  - rewrite step_summary in Hstep by done. injection Hstep as <-.
    destruct kl as [k label]. cbn in Hin.
    apply elem_of_dict_set in Hin as [[= -> ->]|Hin]; [|by left].
    right. exists line. split; [apply list_elem_of_here|done].
  - left. rewrite step_other in Hstep by done. destruct (parsing st).
    + apply bind_Ok_inv in Hstep as (s & _ & [= <-]). exact Hin.
    + injection Hstep as <-. exact Hin.
Qed.

Lemma scan_labels (data : list string) (st st' : scan_state) (kl : Z * string) :
  scan float st data = Ok st' → kl ∈ window st' →
  kl ∈ window st ∨ labelled_by data kl.
Proof.
  revert st. induction data as [|line data IH]; intros st Hscan Hin.
  - injection Hscan as <-. by left.
  - rewrite scan_cons in Hscan. apply bind_Ok_inv in Hscan as (st1 & Hstep & Hscan).
    destruct (IH _ Hscan Hin) as [Hin1|(l & Hl & Hsum & Hlabel)].
    + destruct (step_labels _ _ _ _ Hstep Hin1) as [?|(l & Hl & Hsum & Hlabel)];
        [by left|].
      right. exists l. apply list_elem_of_singleton in Hl as ->.
      split; [apply list_elem_of_here|done].
    + right. exists l. split; [by apply list_elem_of_further|done].
Qed.

(** X21: on the dictionaries ParseFEP returns for a forward and a reverse
    stream, when every summary line of the forward stream has nine tokens
    or more and no more than 40 pairs of windows are to be drawn,
    hist_plot raises nothing: it draws one cell per pair, up to the
    shorter stream, and saves the figure. *)
Theorem histograms_of_parsed_streams (dataF dataR : list string)
    (w_F dGs_F elecs_F vdws_F w_R dGs_R elecs_R vdws_R : pydict (list R))
    (window_F window_R : pydict string) (title outfname : string) :
  ParseFEP float dataF = Ok (w_F, dGs_F, elecs_F, vdws_F, window_F) →
  ParseFEP float dataR = Ok (w_R, dGs_R, elecs_R, vdws_R, window_R) →
  Forall (fun line => is_summary line = true → 9 ≤ length (split line)) dataF →
  count_windows dataF `min` count_windows dataR ≤ 40 →
  ∃ titles,
    hist_plot w_F w_R window_F window_R title outfname
    = Ok ([plt_figure]
          ++ (seq 0 (count_windows dataF `min` count_windows dataR)
              ≫= hist_cell w_F w_R titles (count_windows dataR))
          ++ [plt_subplots_adjust; plt_suptitle title;
              plt_text "$\Delta$U (kcal/mol)"; plt_text "frequency";
              plt_savefig (outfname ++ "_dE-overlap.eps")%string; plt_clf]).
Proof.
  unfold ParseFEP. intros HF HR Hlines H40.
  apply bind_Ok_inv in HF as (stF & HscanF & [= <- <- <- <- <-]).
  apply bind_Ok_inv in HR as (stR & HscanR & [= <- <- <- <- <-]).
  destruct (scan_keyed float 0 _ _ _ keyed_init HscanF) as (_ & F1 & _ & _ & _ & F5).
  destruct (scan_keyed float 0 _ _ _ keyed_init HscanR) as (_ & R1 & _).
  rewrite Nat.add_0_r in *.
  set (titles := fun i : nat =>
         match dict_get (Z.of_nat i) (window stF) with
         | Some label => match sbtitle label with Ok t => t | Raise _ => EmptyString end
         | None => EmptyString
         end).
  exists titles.
  apply (hist_plot_run (dEs_dict stF) (dEs_dict stR)
           (window stF) (window stR) title outfname
           (count_windows dataF) (count_windows dataR)).
  - by rewrite F1.
  - by rewrite R1.
  - intros i Hi.
    assert (Z.of_nat i ∈ dict_keys (window stF)) as Hkey.
    { rewrite F5. apply list_elem_of_fmap. exists i. split; [done|].
      apply elem_of_seq. lia. }
    destruct (dict_get_is_Some _ _ Hkey) as [label Hlabel].
    exists label. split; [done|]. unfold titles. rewrite Hlabel.
    destruct (scan_labels _ _ _ (Z.of_nat i, label) HscanF
                (dict_get_Some_elem_of _ _ _ Hlabel))
      as [Hin|(line & Hline & Hsum & Hjoin)]; [by apply elem_of_nil in Hin|].
    rewrite Forall_forall in Hlines. specialize (Hlines _ Hline Hsum).
    cbn [snd] in Hjoin. rewrite Hjoin. rewrite sbtitle_joined
      by apply (split_from_no_blank EmptyString line eq_refl).
    destruct (lookup_lt_is_Some_2 (split line) 7) as [a Ha]; [lia|].
    destruct (lookup_lt_is_Some_2 (split line) 8) as [b Hb]; [lia|].
    fold (split line). by rewrite Ha, Hb.
  - done.
Qed.

End PlotsOfParsedStreams.

Lemma histograms_of_parsed_streams_witness :
  ∃ titles,
    hist_plot [(0%Z, [5%R])] [(0%Z, [7%R])] [(0%Z, "[ 0 1 ]")] [(0%Z, "[ 1 0 ]")]
      "F->R" "out"
    = Ok ([plt_figure]
          ++ (seq 0 1 ≫= hist_cell [(0%Z, [5%R])] [(0%Z, [7%R])] titles 1)
          ++ [plt_subplots_adjust; plt_suptitle "F->R";
              plt_text "$\Delta$U (kcal/mol)"; plt_text "frequency";
              plt_savefig "out_dE-overlap.eps"; plt_clf]).
Proof.
  apply (histograms_of_parsed_streams float_int
           ["#STARTING"; "a b 1 2 3 4 5 c d 6"; "#Free e c f l w [ 0 1 ]"]
           ["#STARTING"; "a b 1 2 3 4 7 c d 8"; "#Free e c f l w [ 1 0 ]"]
           [(0%Z, [5%R])] [(0%Z, [6%R])] [(0%Z, [(2 - 1)%R])] [(0%Z, [(4 - 3)%R])]
           [(0%Z, [7%R])] [(0%Z, [8%R])] [(0%Z, [(2 - 1)%R])] [(0%Z, [(4 - 3)%R])]
           [(0%Z, "[ 0 1 ]")] [(0%Z, "[ 1 0 ]")] "F->R" "out").
  - reflexivity.
  - reflexivity.
  - apply Forall_cons. split; [vm_compute; discriminate|].
    apply Forall_cons. split; [vm_compute; discriminate|].
    apply Forall_cons. split; [vm_compute; lia | constructor].
  - vm_compute. lia.
Defined.
